(** * PEPit: the problem orchestrator [PEPit/pep.py]

    A shallow embedding of the class [PEP]: the registration of functions,
    points, conditions and metrics, the flattening of an [Expression] into
    its weights on the function-value vector [F] and the Gram matrix [G]
    ([expression_to_cvxpy]), the compilation of the SDP and the call of the
    solver ([solve]), and the reconstruction of the values of the leaves
    ([eval_points_and_function_values]).

    Numbers are exact rationals ([Q]) where Python has floats.  Python
    objects carry their immutable attributes in a record together with an
    [id] (the object's identity); the one attribute the orchestrator mutates,
    [value], lives in a store keyed by that identity, so that two references
    to one object see the same value.  Exceptions are an error result. *)

From Stdlib Require Import QArith Qminmax.
From stdpp Require Import base option list gmap strings.

#[local] Set Warnings "-register-all".
Local Close Scope Q_scope.
Local Open Scope nat_scope.

(** ** Exceptions *)

Inductive exn : Type :=
  | TypeError
  | AssertionError
  | ValueError
  | AttributeError
  | IndexError
  | LinAlgError
  | SolverError.

Inductive result (A : Type) : Type :=
  | Ok (a : A)
  | Raise (e : exn).
Arguments Ok {A} a.
Arguments Raise {A} e.

#[global] Instance result_ret : MRet result := λ A a, Ok a.
#[global] Instance result_bind : MBind result := λ A B k r,
  match r with
  | Ok a => k a
  | Raise e => Raise e
  end.

Definition is_ok {A : Type} (r : result A) : bool :=
  match r with Ok _ => true | Raise _ => false end.

(** A [for] loop whose body may raise: the first exception ends it. *)
Fixpoint for_each {A S : Type} (body : S → A → result S) (l : list A) (s : S)
  : result S :=
  match l with
  | [] => Ok s
  | a :: l' => s' ← body s a; for_each body l' s'
  end.

(** ** Points, expressions and dictionary keys *)

Module Point.
(** [counter] is the index of a leaf in the Gram matrix. *)
Record t : Type := Build {
  id : nat;
  _is_leaf : bool;
  counter : nat
}.
End Point.

(** The Python values that occur as keys of a decomposition dictionary, or
    as items of a tuple key, besides expressions: the points, and the
    values of the built-in types, which have neither an attribute
    [_is_leaf] nor an attribute [counter].  Objects of other classes are
    not among them. *)
Inductive pyobj : Type :=
  | PyPoint (p : Point.t)
  | PyInt (z : Z)
  | PyFloat (q : Q)
  | PyBool (b : bool)
  | PyStr (s : string)
  | PyNone.

Inductive dict_key (E : Type) : Type :=
  | KExpression (e : E)
  | KTuple (items : list pyobj)
  | KAtom (a : pyobj).
Arguments KExpression {E} e.
Arguments KTuple {E} items.
Arguments KAtom {E} a.

Module Expression.
(** [counter] is the index of a leaf function value in [F];
    [decomposition_dict] lists the items of the dictionary in the order
    of iteration. *)
Inductive t : Type := Build {
  id : nat;
  _is_function_value : bool;
  counter : nat;
  decomposition_dict : list (dict_key t * Q)
}.
End Expression.

Abbreviation key := (dict_key Expression.t).

(** [key == 1] for a key that is neither an [Expression] nor a tuple. *)
Definition py_eq_one (a : pyobj) : bool :=
  match a with
  | PyInt z => Z.eqb z 1
  | PyFloat q => Qeq_bool q 1
  | PyBool b => b
  | PyPoint _ | PyStr _ | PyNone => false
  end.

(** ** numpy arrays *)

Definition np_zeros (n : nat) : list Q := replicate n 0%Q.
Definition np_zeros2 (n m : nat) : list (list Q) := replicate n (np_zeros m).

(** [a[i] += w] *)
Definition iadd1 (a : list Q) (i : nat) (w : Q) : result (list Q) :=
  match a !! i with
  | Some x => Ok (<[i := (x + w)%Q]> a)
  | None => Raise IndexError
  end.

(** [m[i, j] += w] *)
Definition iadd2 (m : list (list Q)) (i j : nat) (w : Q)
  : result (list (list Q)) :=
  match m !! i with
  | Some row =>
      match row !! j with
      | Some x => Ok (<[i := <[j := (x + w)%Q]> row]> m)
      | None => Raise IndexError
      end
  | None => Raise IndexError
  end.

(** [m[i, j]] *)
Definition cell (m : list (list Q)) (i j : nat) : option Q :=
  row ← m !! i; row !! j.

(** ** The flattened form of an expression

    The value returned by [expression_to_cvxpy] is the cvxpy expression
    [const + F @ Fweights + sum(multiply(G, Gweights))]; it is kept as its
    three coefficients. *)
Record linear_form : Type := LinearForm {
  const : Q;
  Fweights : list Q;
  Gweights : list (list Q)
}.

(** The body of the loop over [decomposition_dict.items()]. *)
Definition add_item (acc : linear_form) (item : key * Q) : result linear_form :=
  let '(k, weight) := item in
  match k with
  | KExpression e =>
      if Expression._is_function_value e then
        Fw ← iadd1 (Fweights acc) (Expression.counter e) weight;
        Ok (LinearForm (const acc) Fw (Gweights acc))
      else Raise AssertionError
  | KTuple items =>
      match items with
      | [point1; point2] =>
          match point1 with
          | PyPoint p1 =>
              if Point._is_leaf p1 then
                match point2 with
                | PyPoint p2 =>
                    if Point._is_leaf p2 then
                      Gw ← iadd2 (Gweights acc)
                             (Point.counter p1) (Point.counter p2) weight;
                      Ok (LinearForm (const acc) (Fweights acc) Gw)
                    else Raise AssertionError
                | _ => Raise AttributeError
                end
              else Raise AssertionError
          | _ => Raise AttributeError
          end
      | _ => Raise ValueError
      end
  | KAtom a =>
      if py_eq_one a then
        Ok (LinearForm (const acc + weight)%Q (Fweights acc) (Gweights acc))
      else Raise TypeError
  end.

(** [PEP.expression_to_cvxpy], with [V = Expression.counter] and
    [P = Point.counter]. *)
Definition expression_to_cvxpy (V P : nat) (expression : Expression.t)
  : result linear_form :=
  let cvxpy_variable := 0%Q in
  let Fw := np_zeros V in
  let Gw := np_zeros2 P P in
  if Expression._is_function_value expression then
    Fw' ← iadd1 Fw (Expression.counter expression) 1%Q;
    Ok (LinearForm cvxpy_variable Fw' Gw)
  else
    for_each add_item (Expression.decomposition_dict expression)
      (LinearForm cvxpy_variable Fw Gw).

(** ** Functions and problems *)

Module Function.
(** [list_of_points] holds the triplets (point, gradient, function value)
    recorded by the oracle calls. *)
Record t : Type := Build {
  id : nat;
  _is_leaf : bool;
  list_of_points : list (Point.t * Point.t * Expression.t);
  list_of_constraints : list Expression.t
}.
End Function.

Module PEP.
Record t : Type := Build {
  counter : nat;
  list_of_functions : list Function.t;
  list_of_points : list Point.t;
  list_of_conditions : list Expression.t;
  list_of_performance_metrics : list Expression.t
}.
End PEP.

(** ** The cvxpy problem and what the solver answers *)

Inductive constraint : Type :=
  | ObjectiveLe (rhs : linear_form)   (* objective <= rhs *)
  | LeZero (lhs : linear_form).       (* lhs <= 0 *)

Inductive objective_sense : Type := Maximize | Minimize.

(** [cp.Problem(objective=cp.Maximize(objective), constraints=...)] over the
    scalar variable [objective], the vector [F] of length [V] and the PSD
    matrix [G] of size [P]. *)
Record Problem : Type := BuildProblem {
  sense : objective_sense;
  F_size : nat;
  G_size : nat;
  constraints : list constraint
}.

Inductive failure_status : Type :=
  | infeasible
  | unbounded
  | infeasible_inaccurate
  | unbounded_inaccurate.

(** What [prob.solve] does: it raises [SolverError], or it returns with a
    status.  With a status of failure the variables have no value
    ([F.value] and [G.value] are [None]); with [optimal] or
    [optimal_inaccurate] they have one. *)
Inductive solver_outcome : Type :=
  | SolverRaises
  | NoSolution (st : failure_status)
  | Solution (inaccurate : bool) (value : Q)
      (F_value : list Q) (G_value : list (list Q)).

Inductive prob_value : Type :=
  | Finite (q : Q)
  | PlusInf
  | MinusInf.

(** [prob.value] of a maximization. *)
Definition value_of (o : solver_outcome) : prob_value :=
  match o with
  | Solution _ v _ _ => Finite v
  | NoSolution (unbounded | unbounded_inaccurate) => PlusInf
  | NoSolution (infeasible | infeasible_inaccurate) => MinusInf
  | SolverRaises => MinusInf
  end.

Definition F_value_of (o : solver_outcome) : option (list Q) :=
  match o with Solution _ _ F _ => Some F | _ => None end.

Definition G_value_of (o : solver_outcome) : option (list (list Q)) :=
  match o with Solution _ _ _ G => Some G | _ => None end.

(** ** The state of the program

    The class counters, the allocator of object identities, the [value]
    attribute of the points and of the expressions (absent: [None]), and
    the calls made to the solver. *)
Record world : Type := World {
  Point_counter : nat;
  Expression_counter : nat;
  Function_counter : nat;
  PEP_counter : nat;
  next_id : nat;
  point_value : gmap nat (list Q);
  expression_value : gmap nat Q;
  solver_log : list (string * Problem)
}.

Definition set_point_value (i : nat) (v : list Q) (w : world) : world :=
  World (Point_counter w) (Expression_counter w) (Function_counter w)
    (PEP_counter w) (next_id w) (<[i := v]> (point_value w))
    (expression_value w) (solver_log w).

Definition set_expression_value (i : nat) (v : Q) (w : world) : world :=
  World (Point_counter w) (Expression_counter w) (Function_counter w)
    (PEP_counter w) (next_id w) (point_value w)
    (<[i := v]> (expression_value w)) (solver_log w).

Definition log_solver_call (solver : string) (prob : Problem) (w : world)
  : world :=
  World (Point_counter w) (Expression_counter w) (Function_counter w)
    (PEP_counter w) (next_id w) (point_value w) (expression_value w)
    (solver_log w ++ [(solver, prob)]).

(** Statements that change the state and may raise; the state reached when
    the exception is raised is kept. *)
Definition M (A : Type) : Type := world → result A * world.

#[global] Instance M_ret : MRet M := λ A a w, (Ok a, w).
#[global] Instance M_bind : MBind M := λ A B k m w,
  match m w with
  | (Ok a, w') => k a w'
  | (Raise e, w') => (Raise e, w')
  end.

Definition raise {A : Type} (e : exn) : M A := λ w, (Raise e, w).
Definition lift {A : Type} (r : result A) : M A := λ w, (r, w).
Definition modify (f : world → world) : M unit := λ w, (Ok tt, f w).

Fixpoint for_ {A : Type} (l : list A) (body : A → M unit) : M unit :=
  match l with
  | [] => mret tt
  | a :: l' => _ ← body a; for_ l' body
  end.

Definition when (b : bool) (m : M unit) : M unit :=
  if b then m else mret tt.

(** ** Objects created on behalf of the orchestrator *)

(** Modelled from the spec: the constructor of a leaf [Point]
    ([PEPit/point.py] is not among the sources).  The basis registry assigns
    "a unique dense index to every new leaf point": the new leaf takes the
    class counter as its index and the counter is incremented. *)
Definition Point_new_leaf : M Point.t := λ w,
  (Ok (Point.Build (next_id w) true (Point_counter w)),
   World (S (Point_counter w)) (Expression_counter w) (Function_counter w)
     (PEP_counter w) (S (next_id w)) (point_value w) (expression_value w)
     (solver_log w)).


(** ** The class [PEP] *)

(** [PEP.__init__] *)
Definition __init__ : M PEP.t := λ w,
  (Ok (PEP.Build (PEP_counter w) [] [] [] []),
   World 0 0 0 (S (PEP_counter w)) (next_id w) (point_value w)
     (expression_value w) (solver_log w)).


(** [PEP.set_initial_point] *)
Definition set_initial_point (self : PEP.t) : M (Point.t * PEP.t) :=
  x ← Point_new_leaf;
  mret (x, PEP.Build (PEP.counter self) (PEP.list_of_functions self)
             (PEP.list_of_points self ++ [x]) (PEP.list_of_conditions self)
             (PEP.list_of_performance_metrics self)).



Definition with_functions (self : PEP.t) (fs : list Function.t) : PEP.t :=
  PEP.Build (PEP.counter self) fs (PEP.list_of_points self)
    (PEP.list_of_conditions self) (PEP.list_of_performance_metrics self).

(** ** More of numpy *)

(** [np.min] of a vector; an empty one has no minimum. *)
Definition np_min (l : list Q) : result Q :=
  match l with
  | [] => Raise ValueError
  | x :: l' => Ok (fold_left Qmin l' x)
  end.

(** [np.maximum(l, c)] *)
Definition np_maximum (l : list Q) (c : Q) : list Q := map (λ x, Qmax x c) l.

(** [v * m] for a vector and a matrix: every row of [m] is multiplied by [v],
    entry by entry. *)
Definition broadcast_mul (v : list Q) (m : list (list Q)) : list (list Q) :=
  map (λ row, zip_with Qmult v row) m.

Definition ncols (m : list (list Q)) : nat :=
  match m with
  | [] => 0
  | row :: _ => length row
  end.

(** [m[:, c]] *)
Definition column (m : list (list Q)) (c : nat) : result (list Q) :=
  if c <? ncols m then Ok (map (λ row, nth c row 0%Q) m) else Raise IndexError.

(** [m.T] *)
Definition transpose (m : list (list Q)) : list (list Q) :=
  map (λ c, map (λ row, nth c row 0%Q) m) (seq 0 (ncols m)).

(** [F_value[c]] *)
Definition getitem (F_value : option (list Q)) (c : nat) : result Q :=
  match F_value with
  | None => Raise TypeError
  | Some F =>
      match F !! c with
      | Some x => Ok x
      | None => Raise IndexError
      end
  end.

(** The tolerance of the eigenvalue check, [- 10**-4]. *)
Definition tolerance : Q := (- 10 ^ (-4))%Q.

(** ** Compilation, solution and reconstruction

    The collaborators of the orchestrator are taken as they come: the class
    constraints of a function ([add_class_constraints], which acts on the
    function it is called on and fills its [list_of_constraints]), the
    solver behind [prob.solve], and numpy's [linalg.eig], [sqrt] and
    [linalg.qr(..., mode='r')]. *)
Section Orchestrator.

Variable add_class_constraints : Function.t → Function.t.
Variable cp_solve : string → Problem → solver_outcome.
Variable np_linalg_eig : list (list Q) → list Q * list (list Q).
Variable np_sqrt : Q → Q.
Variable np_linalg_qr_r : list (list Q) → list (list Q).

(** The three loops of [PEP.solve] that fill [constraints_list]; the
    functions are returned as [add_class_constraints] left them. *)
Definition constraints_of_problem (V P : nat) (self : PEP.t)
  : result (list constraint * list Function.t) :=
  let constraints_list := [] in
  constraints_list ←
    for_each (λ cl performance_metric,
        e ← expression_to_cvxpy V P performance_metric;
        Ok (cl ++ [ObjectiveLe e]))
      (PEP.list_of_performance_metrics self) constraints_list;
  constraints_list ←
    for_each (λ cl condition,
        e ← expression_to_cvxpy V P condition;
        Ok (cl ++ [LeZero e]))
      (PEP.list_of_conditions self) constraints_list;
  for_each (λ '(cl, fs) function,
      let function := add_class_constraints function in
      cl ←
        for_each (λ cl constraint,
            e ← expression_to_cvxpy V P constraint;
            Ok (cl ++ [LeZero e]))
          (Function.list_of_constraints function) cl;
      Ok (cl, fs ++ [function]))
    (PEP.list_of_functions self) (constraints_list, []).

(** [np.linalg.eig(G_value)]; there is no decomposition of [None].  On a
    matrix the provider always returns: what numpy raises on an array that
    is not square or not finite is not followed. *)
Definition linalg_eig (G_value : option (list (list Q)))
  : result (list Q * list (list Q)) :=
  match G_value with
  | None => Raise LinAlgError
  | Some G => Ok (np_linalg_eig G)
  end.

(** [np.linalg.qr((np.sqrt(eig_val) * eig_vec).T, mode='r')] *)
Definition factor (eig_val : list Q) (eig_vec : list (list Q))
  : list (list Q) :=
  np_linalg_qr_r (transpose (broadcast_mul (map np_sqrt eig_val) eig_vec)).

(** [point.value = points_values[:, point.counter]] *)
Definition assign_point (points_values : list (list Q)) (point : Point.t)
  : M unit :=
  v ← lift (column points_values (Point.counter point));
  modify (set_point_value (Point.id point) v).

(** [function_value.value = F_value[function_value.counter]] *)
Definition assign_function_value (F_value : option (list Q))
  (function_value : Expression.t) : M unit :=
  v ← lift (getitem F_value (Expression.counter function_value));
  modify (set_expression_value (Expression.id function_value) v).

(** The two loops that end [eval_points_and_function_values]. *)
Definition assign_values (self : PEP.t) (F_value : option (list Q))
  (points_values : list (list Q)) : M unit :=
  _ ← for_ (PEP.list_of_points self) (λ point,
        when (Point._is_leaf point) (assign_point points_values point));
  for_ (PEP.list_of_functions self) (λ function,
    when (Function._is_leaf function)
      (for_ (Function.list_of_points function)
         (λ '(point, gradient, function_value),
            _ ← when (Point._is_leaf point)
                  (assign_point points_values point);
            _ ← when (Point._is_leaf gradient)
                  (assign_point points_values gradient);
            when (Expression._is_function_value function_value)
              (assign_function_value F_value function_value)))).

(** The matrix whose columns the reconstruction hands out, for a Gram
    matrix that passes the check of the eigenvalues. *)
Definition points_values_of (G : list (list Q)) : list (list Q) :=
  let '(eig_val, eig_vec) := np_linalg_eig G in
  factor (np_maximum eig_val 0) eig_vec.

(** [PEP.eval_points_and_function_values] *)
Definition eval_points_and_function_values (self : PEP.t)
  (F_value : option (list Q)) (G_value : option (list (list Q)))
  : M unit :=
  '(eig_val, eig_vec) ← lift (linalg_eig G_value);
  smallest ← lift (np_min eig_val);
  if Qle_bool tolerance smallest then
    let eig_val := np_maximum eig_val 0 in
    let points_values := factor eig_val eig_vec in
    assign_values self F_value points_values
  else raise AssertionError.

(** [PEP.solve]; what it prints is left out.  The updated [self] is
    returned with the value; what an exception leaves of [self] is followed
    by [solve_in_place] below. *)
Definition solve (self : PEP.t) (solver : string)
  : M (prob_value * PEP.t) := λ w,
  let V := Expression_counter w in
  let P := Point_counter w in
  match constraints_of_problem V P self with
  | Raise e => (Raise e, w)
  | Ok (constraints_list, fs) =>
      let self := with_functions self fs in
      let prob := BuildProblem Maximize V P constraints_list in
      let outcome := cp_solve solver prob in
      let w := log_solver_call solver prob w in
      match outcome with
      | SolverRaises => (Raise SolverError, w)
      | _ =>
          match eval_points_and_function_values self
                  (F_value_of outcome) (G_value_of outcome) w with
          | (Raise e, w) => (Raise e, w)
          | (Ok _, w) => (Ok (value_of outcome, self), w)
          end
      end
  end.

(** The third loop of [PEP.solve], on the functions in place:
    [function.add_class_constraints()] changes the function it is called
    on, so that when the loop stops at an exception the functions it has
    reached, the one whose constraint fails included, keep what was added
    to them, and the others are as they were. *)
Fixpoint class_constraints_in_place (V P : nat) (functions : list Function.t)
  (constraints_list : list constraint)
  : result (list constraint) * list Function.t :=
  match functions with
  | [] => (Ok constraints_list, [])
  | function :: rest =>
      let function := add_class_constraints function in
      match for_each (λ cl constraint,
                e ← expression_to_cvxpy V P constraint;
                Ok (cl ++ [LeZero e]))
              (Function.list_of_constraints function) constraints_list with
      | Raise e => (Raise e, function :: rest)
      | Ok constraints_list =>
          let '(r, rest) :=
            class_constraints_in_place V P rest constraints_list in
          (r, function :: rest)
      end
  end.

(** The three loops of [PEP.solve] that fill [constraints_list], with
    [self] as they leave it, whether they end or stop at an exception. *)
Definition compile_in_place (V P : nat) (self : PEP.t)
  : result (list constraint) * PEP.t :=
  let constraints_list := [] in
  match for_each (λ cl performance_metric,
            e ← expression_to_cvxpy V P performance_metric;
            Ok (cl ++ [ObjectiveLe e]))
          (PEP.list_of_performance_metrics self) constraints_list with
  | Raise e => (Raise e, self)
  | Ok constraints_list =>
      match for_each (λ cl condition,
                e ← expression_to_cvxpy V P condition;
                Ok (cl ++ [LeZero e]))
              (PEP.list_of_conditions self) constraints_list with
      | Raise e => (Raise e, self)
      | Ok constraints_list =>
          let '(r, fs) :=
            class_constraints_in_place V P (PEP.list_of_functions self)
              constraints_list in
          (r, with_functions self fs)
      end
  end.

(** [PEP.solve] with [self] as the call leaves it, also when it raises:
    the outcome, the object and the state. *)
Definition solve_in_place (self : PEP.t) (solver : string) (w : world)
  : result prob_value * PEP.t * world :=
  let V := Expression_counter w in
  let P := Point_counter w in
  match compile_in_place V P self with
  | (Raise e, self) => (Raise e, self, w)
  | (Ok constraints_list, self) =>
      let prob := BuildProblem Maximize V P constraints_list in
      let outcome := cp_solve solver prob in
      let w := log_solver_call solver prob w in
      match outcome with
      | SolverRaises => (Raise SolverError, self, w)
      | _ =>
          match eval_points_and_function_values self
                  (F_value_of outcome) (G_value_of outcome) w with
          | (Raise e, w) => (Raise e, self, w)
          | (Ok _, w) => (Ok (value_of outcome), self, w)
          end
      end
  end.

End Orchestrator.

(** ** Well-formed expressions and the sums the flattening computes *)

(** The keys that the loop of [expression_to_cvxpy] accepts, for a vector
    [F] of length [V] and a matrix [G] of size [P]. *)
Definition wf_key (V P : nat) (k : key) : bool :=
  match k with
  | KExpression e =>
      Expression._is_function_value e && (Expression.counter e <? V)
  | KTuple [PyPoint p1; PyPoint p2] =>
      Point._is_leaf p1 && Point._is_leaf p2
      && (Point.counter p1 <? P) && (Point.counter p2 <? P)
  | KTuple _ => false
  | KAtom a => py_eq_one a
  end.

Definition wf_items (V P : nat) (items : list (key * Q)) : bool :=
  forallb (λ item, wf_key V P (fst item)) items.

Definition well_formed (V P : nat) (e : Expression.t) : bool :=
  if Expression._is_function_value e then Expression.counter e <? V
  else wf_items V P (Expression.decomposition_dict e).

(** The weights of the items whose key is the function value of index [i],
    in the order of the dictionary. *)
Fixpoint F_terms (items : list (key * Q)) (i : nat) : list Q :=
  match items with
  | [] => []
  | (KExpression e, w) :: items' =>
      if decide (Expression.counter e = i) then w :: F_terms items' i
      else F_terms items' i
  | _ :: items' => F_terms items' i
  end.

(** The weights of the items whose key is the pair of the points of indices
    [i] and [j], in this order. *)
Fixpoint G_terms (items : list (key * Q)) (i j : nat) : list Q :=
  match items with
  | [] => []
  | (KTuple [PyPoint p1; PyPoint p2], w) :: items' =>
      if decide (Point.counter p1 = i ∧ Point.counter p2 = j)
      then w :: G_terms items' i j
      else G_terms items' i j
  | _ :: items' => G_terms items' i j
  end.

(** The weights of the items whose key is the constant. *)
Fixpoint const_terms (items : list (key * Q)) : list Q :=
  match items with
  | [] => []
  | (KAtom _, w) :: items' => w :: const_terms items'
  | _ :: items' => const_terms items'
  end.

(** [x + w1 + w2 + ...], added from left to right. *)
Definition accumulate (x : Q) (ws : list Q) : Q := fold_left Qplus ws x.

(** The key kinds as the specification words them: a leaf function value,
    a pair of points, the constant. *)
Definition recognized_key (k : key) : bool :=
  match k with
  | KExpression e => Expression._is_function_value e
  | KTuple [PyPoint _; PyPoint _] => true
  | KTuple _ => false
  | KAtom a => py_eq_one a
  end.

(** The shape of the arrays of a flattened form. *)
Definition shaped (V P : nat) (lf : linear_form) : Prop :=
  length (Fweights lf) = V ∧ length (Gweights lf) = P ∧
  Forall (λ row, length row = P) (Gweights lf).


(** ** A small problem instance

    One step of gradient descent on a smooth convex function [f]: the
    points [x0] and [xs] and the gradients [g0] and [g1] are leaves of
    indices 0 to 3, the function values [fs], [f0] and [f1] are leaves of
    indices 0 to 2. *)
Module Demo.
Definition x0 : Point.t := Point.Build 0 true 0.
Definition xs : Point.t := Point.Build 1 true 1.
Definition g0 : Point.t := Point.Build 2 true 2.
Definition g1 : Point.t := Point.Build 3 true 3.
(** The gradient at the stationary point, zero, and [x1 = x0 - g0] are
    not leaves. *)
Definition gs : Point.t := Point.Build 4 false 0.
Definition x1 : Point.t := Point.Build 5 false 0.
Definition fs : Expression.t := Expression.Build 6 true 0 [].
Definition f0 : Expression.t := Expression.Build 7 true 1 [].
Definition f1 : Expression.t := Expression.Build 8 true 2 [].

Definition pair (p q : Point.t) : key := KTuple [PyPoint p; PyPoint q].

(** [(x0 - xs) ** 2 - 1] *)
Definition initial_condition : Expression.t :=
  Expression.Build 9 false 0
    [(pair x0 x0, 1%Q); (pair x0 xs, (-1)%Q); (pair xs x0, (-1)%Q);
     (pair xs xs, 1%Q); (KAtom (PyInt 1), (-1)%Q)].

(** [f1 - fs] *)
Definition metric : Expression.t :=
  Expression.Build 10 false 0
    [(KExpression f1, 1%Q); (KExpression fs, (-1)%Q)].

(** [x0 * g0], a single inner product. *)
Definition inner_product : Expression.t :=
  Expression.Build 11 false 0 [(pair x0 g0, 1%Q)].

(** [f0 - fs + g0 * (xs - x0)], an inequality between two triplets. *)
Definition interpolation : Expression.t :=
  Expression.Build 12 false 0
    [(KExpression f0, 1%Q); (KExpression fs, (-1)%Q);
     (pair g0 xs, 1%Q); (pair g0 x0, (-1)%Q)].

(** An expression used as a key although it is not a function value. *)
Definition composite_key : Expression.t :=
  Expression.Build 13 false 0 [(KExpression metric, 1%Q)].

(** A string used as a key. *)
Definition string_key : Expression.t :=
  Expression.Build 14 false 0
    [(KExpression f0, 1%Q); (KAtom (PyStr "f"), 1%Q)].

(** The function, with its three triplets and no constraint yet. *)
Definition f : Function.t :=
  Function.Build 15 true [(xs, gs, fs); (x0, g0, f0); (x1, g1, f1)] [].

Definition problem : PEP.t :=
  PEP.Build 0 [f] [x0] [initial_condition] [metric].

(** The state when [solve] is called: four leaf points, three leaf
    function values, one function, one problem, no value yet. *)
Definition state : world := World 4 3 1 1 16 ∅ ∅ [].

(** The class of [f] emits one constraint. *)
Definition add_class_constraints (fn : Function.t) : Function.t :=
  Function.Build (Function.id fn) (Function._is_leaf fn)
    (Function.list_of_points fn)
    (Function.list_of_constraints fn ++ [interpolation]).

Definition identity (n : nat) : list (list Q) :=
  map (λ i, map (λ j, if decide (i = j) then 1%Q else 0%Q) (seq 0 n))
    (seq 0 n).

(** The constraints of the compiled problem. *)
Definition constraints_list : list constraint :=
  match constraints_of_problem add_class_constraints 3 4 problem with
  | Ok (cl, _) => cl
  | Raise _ => []
  end.

(** The problem once the class constraints are in the function. *)
Definition compiled_problem : PEP.t :=
  with_functions problem [add_class_constraints f].

(** A leaf point kept from an earlier, larger problem: its index is beyond
    the four points of the state.  The problem with it among the initial
    points. *)
Definition stale : Point.t := Point.Build 20 true 7.

Definition stale_problem : PEP.t :=
  PEP.Build 0 [f] [x0; stale] [initial_condition] [metric].

(** A solver that answers with the identity for Gram matrix, and one that
    finds the problem infeasible. *)
Definition cp_solve (solver : string) (prob : Problem) : solver_outcome :=
  Solution false (1 # 4)%Q (np_zeros (F_size prob)) (identity (G_size prob)).

Definition cp_solve_infeasible (solver : string) (prob : Problem)
  : solver_outcome :=
  NoSolution infeasible.

(** The decomposition of a diagonal matrix: its diagonal and the
    identity. *)
Definition np_linalg_eig (G : list (list Q)) : list Q * list (list Q) :=
  (imap (λ i row, nth i row 0%Q) G, identity (length G)).

(** Exact on zero and one. *)
Definition np_sqrt (x : Q) : Q := x.

(** Exact on the matrices that are upper triangular already. *)
Definition np_linalg_qr_r (X : list (list Q)) : list (list Q) := X.
End Demo.

(** A class of functions whose constraint has a string among its keys. *)
Module Malformed.
Definition add_class_constraints (fn : Function.t) : Function.t :=
  Function.Build (Function.id fn) (Function._is_leaf fn)
    (Function.list_of_points fn)
    (Function.list_of_constraints fn ++ [Demo.string_key]).
End Malformed.

(** ** The problem as the specification describes it *)

(** The flattened forms of a list of expressions, in order. *)
Definition flatten_all (V P : nat) (es : list Expression.t)
  : result (list linear_form) :=
  mapM (expression_to_cvxpy V P) es.

Section Specification.

Variable add_class_constraints : Function.t → Function.t.

(** The constraints emitted by the declared functions, each function being
    asked once. *)
Definition class_constraints (self : PEP.t) : list Expression.t :=
  concat (map (λ f, Function.list_of_constraints (add_class_constraints f))
            (PEP.list_of_functions self)).

(** Every expression that the compilation flattens. *)
Definition problem_expressions (self : PEP.t) : list Expression.t :=
  PEP.list_of_performance_metrics self ++ PEP.list_of_conditions self
  ++ class_constraints self.

(** [t ≤ flatten(m)] for every performance metric [m], [flatten(c) ≤ 0]
    for every initial condition [c] and for every class constraint. *)
Definition sdp_constraints (V P : nat) (self : PEP.t)
  : result (list constraint * list Function.t) :=
  ms ← flatten_all V P (PEP.list_of_performance_metrics self);
  cs ← flatten_all V P (PEP.list_of_conditions self);
  ks ← flatten_all V P (class_constraints self);
  Ok (map ObjectiveLe ms ++ map LeZero cs ++ map LeZero ks,
      map add_class_constraints (PEP.list_of_functions self)).

End Specification.

(** ** The assignments of the reconstruction, one after the other *)

Inductive target : Type :=
  | TPoint (p : Point.t)
  | TValue (e : Expression.t).

Definition point_target (p : Point.t) : list target :=
  if Point._is_leaf p then [TPoint p] else [].

Definition value_target (e : Expression.t) : list target :=
  if Expression._is_function_value e then [TValue e] else [].

Definition triplet_targets (triplet : Point.t * Point.t * Expression.t)
  : list target :=
  let '(point, gradient, function_value) := triplet in
  point_target point ++ point_target gradient ++ value_target function_value.

Definition function_targets (f : Function.t) : list target :=
  if Function._is_leaf f
  then concat (map triplet_targets (Function.list_of_points f))
  else [].

(** The leaves that [eval_points_and_function_values] visits, in the order
    of the visit: the leaves among the initial points, then, for every leaf
    function, the leaves of its triplets. *)
Definition targets (self : PEP.t) : list target :=
  concat (map point_target (PEP.list_of_points self))
  ++ concat (map function_targets (PEP.list_of_functions self)).

Definition assign_target (F_value : option (list Q))
  (points_values : list (list Q)) (t : target) : M unit :=
  match t with
  | TPoint p => assign_point points_values p
  | TValue e => assign_function_value F_value e
  end.

(** The identities of the points and of the function values among some
    targets. *)
Definition point_ids (ts : list target) : list nat :=
  omap (λ t, match t with TPoint p => Some (Point.id p) | _ => None end) ts.

Definition value_ids (ts : list target) : list nat :=
  omap (λ t, match t with TValue e => Some (Expression.id e) | _ => None end)
    ts.

(** The column [c] of a matrix, read without a check of the index. *)
Definition column_at (m : list (list Q)) (c : nat) : list Q :=
  map (λ row, nth c row 0%Q) m.

(** Modelled from the spec: the matrix [X = (√Λ)Qᵗ] once the negative
    eigenvalues are clipped to zero.  Its row [j] is the eigenvector [j],
    which is the column [j] of [Q], scaled by the root of the eigenvalue
    [j]. *)
Definition scaled_eigenvectors (np_sqrt : Q → Q) (eig_val : list Q)
  (eig_vec : list (list Q)) : list (list Q) :=
  imap (λ j v, map (λ row, (np_sqrt (Qmax v 0) * nth j row 0)%Q) eig_vec)
    eig_val.

(** [F_value[c]], read without a check. *)
Definition item_at (F_value : option (list Q)) (c : nat) : Q :=
  match F_value with
  | Some F => nth c F 0%Q
  | None => 0%Q
  end.

(** A target whose index lies inside the arrays. *)
Definition in_range (F_value : option (list Q)) (points_values : list (list Q))
  (t : target) : bool :=
  match t with
  | TPoint p => Point.counter p <? ncols points_values
  | TValue e =>
      match F_value with
      | Some F => Expression.counter e <? length F
      | None => false
      end
  end.

(** The state after the assignment to a target in range. *)
Definition assigned (F_value : option (list Q)) (points_values : list (list Q))
  (w : world) (t : target) : world :=
  match t with
  | TPoint p =>
      set_point_value (Point.id p)
        (column_at points_values (Point.counter p)) w
  | TValue e =>
      set_expression_value (Expression.id e)
        (item_at F_value (Expression.counter e)) w
  end.

(** The points and the function values that the problem holds: the initial
    points, and the points, gradients and values of the triplets of its leaf
    functions. *)
Definition registered_point (self : PEP.t) (p : Point.t) : Prop :=
  p ∈ PEP.list_of_points self ∨
  ∃ f x g v, f ∈ PEP.list_of_functions self ∧ Function._is_leaf f = true ∧
             (x, g, v) ∈ Function.list_of_points f ∧ (p = x ∨ p = g).

Definition registered_value (self : PEP.t) (e : Expression.t) : Prop :=
  ∃ f x g, f ∈ PEP.list_of_functions self ∧ Function._is_leaf f = true ∧
           (x, g, e) ∈ Function.list_of_points f.

(** Two registered leaves with one identity are one object. *)
Definition distinct_identities (self : PEP.t) : Prop :=
  (∀ p q, registered_point self p → registered_point self q →
          Point._is_leaf p = true → Point._is_leaf q = true →
          Point.id p = Point.id q → p = q) ∧
  (∀ e e', registered_value self e → registered_value self e' →
           Expression._is_function_value e = true →
           Expression._is_function_value e' = true →
           Expression.id e = Expression.id e' → e = e').

(** ** What the orchestrator expects of its collaborators and of its input *)

(** An [n] by [n] matrix. *)
Definition square (n : nat) (m : list (list Q)) : Prop :=
  length m = n ∧ Forall (λ row, length row = n) m.

(** The solver returns values of the shapes of the variables. *)
Definition solver_respects_sizes
  (cp_solve : string → Problem → solver_outcome) : Prop :=
  ∀ solver prob inaccurate v F G,
    cp_solve solver prob = Solution inaccurate v F G →
    length F = F_size prob ∧ square (G_size prob) G.

(** [np.linalg.eig] of an [n] by [n] matrix returns [n] eigenvalues and an
    [n] by [n] matrix of eigenvectors. *)
Definition eig_respects_sizes
  (np_linalg_eig : list (list Q) → list Q * list (list Q)) : Prop :=
  ∀ n G, square n G →
         length (np_linalg_eig G).1 = n ∧ square n (np_linalg_eig G).2.

(** The factor [R] of an [n] by [n] matrix has [n] columns. *)
Definition qr_respects_sizes
  (np_linalg_qr_r : list (list Q) → list (list Q)) : Prop :=
  ∀ n X, square n X → ncols (np_linalg_qr_r X) = n.

(** Every registered leaf was minted under the counters of the state. *)
Definition minted_in_epoch (w : world) (self : PEP.t) : Prop :=
  (∀ p, registered_point self p → Point._is_leaf p = true →
        Point.counter p < Point_counter w) ∧
  (∀ e, registered_value self e → Expression._is_function_value e = true →
        Expression.counter e < Expression_counter w).

(** ** Problems made one after the other *)

(** [n] calls of [set_initial_point]. *)
Fixpoint set_initial_points (n : nat) (self : PEP.t) : M PEP.t :=
  match n with
  | 0 => mret self
  | S n' => '(_, self) ← set_initial_point self; set_initial_points n' self
  end.

(** The indices of the leaves among the initial points of a problem. *)
Definition leaf_indices (self : PEP.t) : list nat :=
  omap (λ p, if Point._is_leaf p then Some (Point.counter p) else None)
    (PEP.list_of_points self).

(** A problem with one initial point, then a second problem with one
    initial point. *)
Definition two_instances : M (PEP.t * PEP.t) :=
  p1 ← __init__;
  '(_, p1) ← set_initial_point p1;
  p2 ← __init__;
  '(_, p2) ← set_initial_point p2;
  mret (p1, p2).

(** Two problems made first, one initial point for each afterwards. *)
Definition interleaved_instances : M (PEP.t * PEP.t) :=
  p1 ← __init__;
  p2 ← __init__;
  '(_, p1) ← set_initial_point p1;
  '(_, p2) ← set_initial_point p2;
  mret (p1, p2).

(** The state before anything is made. *)
Definition initial_world : world := World 0 0 0 0 0 ∅ ∅ [].

(** ** The value of a flattened form

    What the cvxpy expression
    [cvxpy_variable + (F @ Fweights + cp.sum(cp.multiply(G, Gweights)))]
    evaluates to once [F] and [G] have values. *)

(** [a @ b] *)
Definition dot (a b : list Q) : Q := foldr Qplus 0%Q (zip_with Qmult a b).

(** [sum(multiply(G, W))] *)
Definition sum_multiply (G W : list (list Q)) : Q :=
  foldr Qplus 0%Q (zip_with dot G W).

Definition form_value (lf : linear_form) (F : list Q) (G : list (list Q)) : Q :=
  (const lf + (dot F (Fweights lf) + sum_multiply G (Gweights lf)))%Q.

(** What a key of a decomposition stands for: a function value, an inner
    product, the constant one. *)
Definition key_value (F : list Q) (G : list (list Q)) (k : key) : Q :=
  match k with
  | KExpression e => nth (Expression.counter e) F 0%Q
  | KTuple [PyPoint p1; PyPoint p2] =>
      nth (Point.counter p2) (nth (Point.counter p1) G []) 0%Q
  | KTuple _ => 0%Q
  | KAtom _ => 1%Q
  end.

(** The weighted sum that a decomposition stands for. *)
Definition items_value (F : list Q) (G : list (list Q))
  (items : list (key * Q)) : Q :=
  foldr (λ item acc, (snd item * key_value F G (fst item) + acc)%Q) 0%Q items.

(** The values of the built-in types among the items of a tuple: numbers,
    booleans, strings and [None], which have no attribute [_is_leaf]. *)
Definition is_builtin (a : pyobj) : bool :=
  match a with
  | PyInt _ | PyFloat _ | PyBool _ | PyStr _ | PyNone => true
  | PyPoint _ => false
  end.

(** More inputs for the small problem instance. *)
Module Samples.
(** A pair of a leaf point and a number used as a key. *)
Definition number_key : Expression.t :=
  Expression.Build 29 false 0
    [(KTuple [PyPoint Demo.x0; PyFloat (1 # 2)], 1%Q)].
(** A tuple of three points used as a key. *)
Definition triple_key : Expression.t :=
  Expression.Build 30 false 0
    [(KAtom (PyInt 1), 1%Q);
     (KTuple [PyPoint Demo.x0; PyPoint Demo.xs; PyPoint Demo.g0], 1%Q)].
End Samples.

Module Reordered.
(** [Demo.metric] with its two items the other way round. *)
Definition metric : Expression.t :=
  Expression.Build 31 false 0
    [(KExpression Demo.fs, (-1)%Q); (KExpression Demo.f1, 1%Q)].
End Reordered.

(** ** Sequences of registrations *)









(** * The stepsizes of the example [gradient_descent_optimized_basic_stepsizes_f.py]

    The schedules [OBS_S] and [OBS_F] that [wc_gradient_descent_OBS_F]
    computes before it builds its problem.  The numbers are the ones of
    Python and numpy, with their arithmetic taken as it comes: a division,
    a square root and a square may raise. *)

Module SComp.
Record t (float : Type) : Type := Build {
  sequence : list float;
  rate : float
}.
Arguments Build {float} sequence rate.
Arguments sequence {float} t.
Arguments rate {float} t.
End SComp.

Module FComp.
Record t (float : Type) : Type := Build {
  sequence : list float;
  rate : float
}.
Arguments Build {float} sequence rate.
Arguments sequence {float} t.
Arguments rate {float} t.
End FComp.

Module OBS.

Inductive error : Type :=
  | IndexError
  | ZeroDivisionError
  | ValueError
  | OverflowError.

(** The outcome of a computation: a value, an exception, or, for the
    recursive functions, a recursion deeper than allowed. *)
Inductive outcome (A : Type) : Type :=
  | Return (a : A)
  | Raises (e : error)
  | TooDeep.
Arguments Return {A} a.
Arguments Raises {A} e.
Arguments TooDeep {A}.

#[global] Instance outcome_ret : MRet outcome := λ A a, Return a.
#[global] Instance outcome_bind : MBind outcome := λ A B k r,
  match r with
  | Return a => k a
  | Raises e => Raises e
  | TooDeep => TooDeep
  end.

(** The place of the index [k] in an array of length [len]: numpy counts
    the negative indices from the end. *)
Definition position (len : nat) (k : Z) : option nat :=
  if ((0 <=? k) && (k <? Z.of_nat len))%Z then Some (Z.to_nat k)
  else if ((- Z.of_nat len <=? k) && (k <? 0))%Z
       then Some (Z.to_nat (Z.of_nat len + k))
       else None.

(** [a[k]] *)
Definition getitem {A : Type} (a : list A) (k : Z) : outcome A :=
  match position (length a) k with
  | Some i =>
      match a !! i with
      | Some x => Return x
      | None => Raises IndexError
      end
  | None => Raises IndexError
  end.

(** [a[k] = x] *)
Definition setitem {A : Type} (a : list A) (k : Z) (x : A)
  : outcome (list A) :=
  match position (length a) k with
  | Some i => Return (<[i := x]> a)
  | None => Raises IndexError
  end.

(** [for i in range(first, first + n)] over a state. *)
Fixpoint for_range {S : Type} (first : Z) (n : nat)
  (body : S → Z → outcome S) (s : S) : outcome S :=
  match n with
  | 0 => Return s
  | Datatypes.S n' => s' ← body s first; for_range (first + 1)%Z n' body s'
  end.

Section Schedule.

(** The numbers, Python floats and numpy floats alike, and their
    operations. *)
Variable float : Type.
Variable lit : Q → float.
Variable fadd fsub fmul fmax : float → float → float.
Variable fneg : float → float.
Variable flt : float → float → bool.
(** [x / y], [sqrt(x)] and [x ** 2]; [None] when they raise. *)
Variable fdiv : float → float → option float.
Variable fsqrt : float → option float.
Variable fpow2 : float → option float.

Definition div (x y : float) : outcome float :=
  match fdiv x y with Some z => Return z | None => Raises ZeroDivisionError end.
Definition sqrt (x : float) : outcome float :=
  match fsqrt x with Some z => Return z | None => Raises ValueError end.
Definition pow2 (x : float) : outcome float :=
  match fpow2 x with Some z => Return z | None => Raises OverflowError end.

Definition tolerance : float := lit (1 # 100000000000000).

(** [join_scomp] *)
Definition join_scomp (L R : float) : outcome float :=
  L2 ← pow2 L;
  R2 ← pow2 R;
  root ← sqrt (fadd (fadd L2 (fmul (fmul (lit 6) L) R)) R2);
  let denominator := fadd (fadd L R) root in
  div (fmul (fmul (lit 2) L) R) (fmax denominator tolerance).

(** [join_fcomp] *)
Definition join_fcomp (L R : float) : outcome float :=
  L2 ← pow2 L;
  root ← sqrt (fadd L2 (fmul (fmul (lit 8) L) R));
  let denominator := fadd (fadd L (fmul (lit 4) R)) root in
  div (fmul (fmul (lit 2) L) R) (fmax denominator tolerance).

(** [join_scomp_objects] *)
Definition join_scomp_objects (L R : SComp.t float) : outcome (SComp.t float) :=
  sigmaL ← div (fsub (lit 1) (SComp.rate L)) (SComp.rate L);
  sigmaR ← div (fsub (lit 1) (SComp.rate R)) (SComp.rate R);
  let prodL := SComp.rate L in
  let prodR := SComp.rate R in
  square ← pow2 (fadd (fadd (lit 2) sigmaL) sigmaR);
  quotient ← div (fadd (lit 4) (fmul (fmul prodL prodR) square))
               (fmul prodL prodR);
  root ← sqrt quotient;
  let mu := fmul (lit (1 # 2)) (fadd (fsub (fneg sigmaL) sigmaR) root) in
  let sequence := SComp.sequence L ++ [mu] ++ SComp.sequence R in
  rate ← div (lit 1) (fadd (fadd (fadd (lit 1) sigmaL) sigmaR) mu);
  Return (SComp.Build sequence rate).

(** [join_scomp_fcomp] *)
Definition join_scomp_fcomp (L : SComp.t float) (R : FComp.t float)
  : outcome (FComp.t float) :=
  ratio ← div (fmul (lit 8) (FComp.rate R)) (SComp.rate L);
  root ← sqrt (fadd (lit 1) ratio);
  step ← div (fsub root (lit 1)) (fmul (lit 4) (FComp.rate R));
  let mu := fadd (lit 1) step in
  let sequence := SComp.sequence L ++ [mu] ++ FComp.sequence R in
  invR ← div (lit 1) (FComp.rate R);
  invL ← div (lit 1) (SComp.rate L);
  rate ← div (lit 1)
           (fadd (fadd invR (fmul (lit 2) mu))
              (fmul (lit 2) (fsub invL (lit 1))));
  Return (FComp.Build sequence rate).

(** [compute_scomp_pivots]; the arrays have [N + 1] entries. *)
Definition compute_scomp_pivots (N : nat) : outcome (list Z * list float) :=
  let s_pivot := replicate (N + 1) 0%Z in
  let s_rate := replicate (N + 1) (lit 0) in
  for_range 1 N (λ '(s_pivot, s_rate) i,
      s_pivot ← setitem s_pivot i (i / 2)%Z;
      p ← getitem s_pivot i;
      L ← (if (p =? 0)%Z then Return (lit 1) else getitem s_rate p);
      R ← (if (i - 1 - p =? 0)%Z then Return (lit 1)
           else getitem s_rate (i - 1 - p)%Z);
      joined ← join_scomp L R;
      s_rate ← setitem s_rate i joined;
      Return (s_pivot, s_rate))
    (s_pivot, s_rate).

(** [compute_fcomp_pivots] *)
Definition compute_fcomp_pivots (N : nat) (s_pivot : list Z)
  (s_rate : list float) : outcome (list Z) :=
  let f_pivot := replicate (N + 1) 0%Z in
  let f_rate := replicate (N + 1) (lit 0) in
  f_pivot ← setitem f_pivot 1 0%Z;
  f_rate ← setitem f_rate 1 (lit (1 # 4));
  '(f_pivot, f_rate) ←
    for_range 2 (N - 1) (λ '(f_pivot, f_rate) i,
        m ← (if (1 <? i)%Z then getitem f_pivot (i - 1)%Z else Return 0%Z);
        L ← (if (m =? 0)%Z then Return (lit 1) else getitem s_rate m);
        R ← (if (i - 1 - m =? 0)%Z then Return (lit 1)
             else getitem f_rate (i - 1 - m)%Z);
        rate1 ← join_fcomp L R;
        let m := (m + 1)%Z in
        L ← (if (m =? 0)%Z then Return (lit 1) else getitem s_rate m);
        R ← (if (i - 1 - m <=? 0)%Z then Return (lit 1)
             else getitem f_rate (i - 1 - m)%Z);
        rate2 ← join_fcomp L R;
        if flt rate1 rate2 then
          f_pivot ← setitem f_pivot i (m - 1)%Z;
          f_rate ← setitem f_rate i rate1;
          Return (f_pivot, f_rate)
        else
          f_pivot ← setitem f_pivot i m;
          f_rate ← setitem f_rate i rate2;
          Return (f_pivot, f_rate))
      (f_pivot, f_rate);
  Return f_pivot.

(** [OBS_S_with_pivots]; [depth] is the depth of recursion allowed. *)
Fixpoint OBS_S_with_pivots (depth : nat) (N : Z) (s_pivot : list Z)
  : outcome (SComp.t float) :=
  match depth with
  | 0 => TooDeep
  | S depth' =>
      if (N =? 0)%Z then Return (SComp.Build [] (lit 1))
      else
        p ← getitem s_pivot N;
        left ← OBS_S_with_pivots depth' p s_pivot;
        right ← OBS_S_with_pivots depth' (N - 1 - p)%Z s_pivot;
        join_scomp_objects left right
  end.

(** [OBS_S] *)
Definition OBS_S (depth : nat) (N : nat) : outcome (SComp.t float) :=
  '(s_pivot, _) ← compute_scomp_pivots N;
  OBS_S_with_pivots depth (Z.of_nat N) s_pivot.

(** [OBS_F_with_pivots] *)
Fixpoint OBS_F_with_pivots (depth : nat) (N : Z) (s_pivot f_pivot : list Z)
  : outcome (FComp.t float) :=
  match depth with
  | 0 => TooDeep
  | S depth' =>
      if (N =? 0)%Z then Return (FComp.Build [] (lit 1))
      else
        p ← getitem f_pivot N;
        left ← OBS_S_with_pivots depth' p s_pivot;
        right ← OBS_F_with_pivots depth' (N - 1 - p)%Z s_pivot f_pivot;
        join_scomp_fcomp left right
  end.

(** [OBS_F] *)
Definition OBS_F (depth : nat) (N : nat) : outcome (FComp.t float) :=
  '(s_pivot, s_rate) ← compute_scomp_pivots N;
  f_pivot ← compute_fcomp_pivots N s_pivot s_rate;
  OBS_F_with_pivots depth (Z.of_nat N) s_pivot f_pivot.

End Schedule.

End OBS.

(** The arithmetic never raises. *)
Definition arithmetic_total {float : Type}
  (fdiv : float → float → option float) (fsqrt fpow2 : float → option float)
  : Prop :=
  (∀ x y, is_Some (fdiv x y)) ∧ (∀ x, is_Some (fsqrt x)) ∧
  (∀ x, is_Some (fpow2 x)).

(** What an exception of the schedule can be: one of the arithmetic, never
    an index out of range. *)
Definition arithmetic_error {float : Type}
  (fdiv : float → float → option float) (fsqrt fpow2 : float → option float)
  (e : OBS.error) : Prop :=
  e ≠ OBS.IndexError ∧ ¬ arithmetic_total fdiv fsqrt fpow2.

(** The outcome is a value that satisfies [good], or an exception of the
    arithmetic. *)
Definition returns_or_arithmetic {float A : Type}
  (fdiv : float → float → option float) (fsqrt fpow2 : float → option float)
  (good : A → Prop) (r : OBS.outcome A) : Prop :=
  match r with
  | OBS.Return a => good a
  | OBS.Raises e => arithmetic_error fdiv fsqrt fpow2 e
  | OBS.TooDeep => False
  end.

(** The pivots [floor(i / 2)] for [i] from 0 to [N]. *)
Definition halves (N : nat) : list Z :=
  map (λ i, (Z.of_nat i / 2)%Z) (seq 0 (N + 1)).

(** What the loop of [compute_scomp_pivots] has done before the step [i]:
    the pivots below [i] are set, the others are still zero. *)
Definition scomp_invariant {float : Type} (N i : nat)
  (s : list Z * list float) : Prop :=
  length s.1 = N + 1 ∧ length s.2 = N + 1 ∧
  (∀ j, j < i → s.1 !! j = Some (Z.of_nat j / 2)%Z) ∧
  (∀ j, i ≤ j → j ≤ N → s.1 !! j = Some 0%Z).

(** The pivots of [OBS_F] below [i]: the first two are zero and each of the
    others is the one before it, or the one before it plus one. *)
Definition fcomp_steps (f_pivot : list Z) (i : nat) : Prop :=
  f_pivot !! 0 = Some 0%Z ∧ f_pivot !! 1 = Some 0%Z ∧
  ∀ j, 2 ≤ j → j < i →
       ∃ a b, f_pivot !! (j - 1) = Some a ∧ f_pivot !! j = Some b ∧
              (b = a ∨ b = (a + 1)%Z).

Definition fcomp_invariant {float : Type} (N i : nat)
  (s : list Z * list float) : Prop :=
  length s.1 = N + 1 ∧ length s.2 = N + 1 ∧ fcomp_steps s.1 i.

(** Exact rationals in the place of the floats, for the examples: the
    division raises on zero and the square root on a negative number; the
    root of [n / d] is rounded down to a multiple of [1 / d]. *)
Module Rational.

Definition lit (q : Q) : Q := q.
Definition flt (x y : Q) : bool := negb (Qle_bool y x).
Definition fdiv (x y : Q) : option Q :=
  if Qeq_bool y 0 then None else Some (x / y)%Q.
Definition fsqrt (x : Q) : option Q :=
  if Qle_bool 0 x then Some (Qmake (Z.sqrt (Qnum x * Z.pos (Qden x))) (Qden x))
  else None.
Definition fpow2 (x : Q) : option Q := Some (x * x)%Q.

Definition OBS_S : nat → nat → OBS.outcome (SComp.t Q) :=
  OBS.OBS_S Q lit Qplus Qminus Qmult Qmax Qopp fdiv fsqrt fpow2.
Definition OBS_F : nat → nat → OBS.outcome (FComp.t Q) :=
  OBS.OBS_F Q lit Qplus Qminus Qmult Qmax Qopp flt fdiv fsqrt fpow2.
Definition compute_fcomp_pivots
  : nat → list Z → list Q → OBS.outcome (list Z) :=
  OBS.compute_fcomp_pivots Q lit Qplus Qmult Qmax flt fdiv fsqrt fpow2.

End Rational.
(** ** Facts on the arrays *)

Lemma iadd1_ok (a : list Q) (i : nat) (w : Q) :
  i < length a →
  ∃ a', iadd1 a i w = Ok a' ∧ length a' = length a ∧
        ∀ k, a' !! k =
             if decide (k = i) then (λ x, (x + w)%Q) <$> a !! k else a !! k.
Proof.
  intros Hi. unfold iadd1.
  destruct (lookup_lt_is_Some_2 a i Hi) as [x Hx]. rewrite Hx.
  eexists; split; [reflexivity|]. split; [apply length_insert|].
  intros k. destruct (decide (k = i)) as [->|Hne].
  - rewrite list_lookup_insert_eq by done. by rewrite Hx.
  - by rewrite list_lookup_insert_ne.
Qed.

Lemma iadd1_raise (a : list Q) (i : nat) (w : Q) :
  length a ≤ i → iadd1 a i w = Raise IndexError.
Proof. intros Hi. unfold iadd1. by rewrite lookup_ge_None_2. Qed.

Lemma cell_insert (m : list (list Q)) (i : nat) (row : list Q) (a b : nat) :
  i < length m →
  cell (<[i := row]> m) a b = if decide (a = i) then row !! b else cell m a b.
Proof.
  intros Hi. unfold cell. destruct (decide (a = i)) as [->|Hne].
  - by rewrite list_lookup_insert_eq.
  - by rewrite list_lookup_insert_ne.
Qed.

Lemma iadd2_ok (m : list (list Q)) (P i j : nat) (w : Q) :
  length m = P → Forall (λ row, length row = P) m → i < P → j < P →
  ∃ m', iadd2 m i j w = Ok m' ∧ length m' = P ∧
        Forall (λ row, length row = P) m' ∧
        ∀ a b, cell m' a b =
               if decide (a = i ∧ b = j) then (λ x, (x + w)%Q) <$> cell m a b
               else cell m a b.
Proof.
  intros Hlen Hrows Hi Hj. unfold iadd2.
  destruct (lookup_lt_is_Some_2 m i) as [row Hrow]; [lia|]. rewrite Hrow.
  assert (Hr : length row = P)
    by (eapply (proj1 (Forall_lookup _ _) Hrows); eassumption).
  destruct (lookup_lt_is_Some_2 row j) as [x Hx]; [lia|]. rewrite Hx.
  eexists; split; [reflexivity|]. split; [by rewrite length_insert|].
  split.
  - apply Forall_insert; [done|]. by rewrite length_insert.
  - intros a b. rewrite cell_insert by lia. unfold cell.
    destruct (decide (a = i)) as [->|Ha].
    + rewrite Hrow. simpl. destruct (decide (b = j)) as [->|Hb].
      * rewrite decide_True by done.
        rewrite list_lookup_insert_eq by lia. by rewrite Hx.
      * rewrite decide_False by (intros [_ ?]; done).
        by rewrite list_lookup_insert_ne.
    + by rewrite decide_False by (intros [? _]; done).
Qed.

Lemma np_zeros_lookup (n i : nat) : i < n → np_zeros n !! i = Some 0%Q.
Proof. intros Hi. unfold np_zeros. by apply lookup_replicate_2. Qed.

Lemma np_zeros2_cell (n m i j : nat) :
  i < n → j < m → cell (np_zeros2 n m) i j = Some 0%Q.
Proof.
  intros Hi Hj. unfold cell, np_zeros2.
  rewrite lookup_replicate_2 by done. simpl. by apply np_zeros_lookup.
Qed.

Lemma np_zeros2_shape (n m : nat) :
  length (np_zeros2 n m) = n ∧ Forall (λ row, length row = m) (np_zeros2 n m).
Proof.
  unfold np_zeros2, np_zeros. split; [apply length_replicate|].
  apply Forall_replicate, length_replicate.
Qed.

(** ** The loop of [expression_to_cvxpy] on well-formed items *)

Lemma fmap_accumulate_nil (o : option Q) :
  (λ x, accumulate x []) <$> o = o.
Proof. by destruct o. Qed.

Lemma fmap_accumulate_cons (o : option Q) (w : Q) (ws : list Q) :
  (λ x, accumulate x ws) <$> ((λ x, (x + w)%Q) <$> o)
  = (λ x, accumulate x (w :: ws)) <$> o.
Proof. by destruct o. Qed.

Lemma wf_key_tuple_inv (V P : nat) (items : list pyobj) :
  wf_key V P (KTuple items) = true →
  ∃ p1 p2, items = [PyPoint p1; PyPoint p2] ∧
           Point._is_leaf p1 = true ∧ Point._is_leaf p2 = true ∧
           Point.counter p1 < P ∧ Point.counter p2 < P.
Proof.
  destruct items as [|[p1| | | | |] [|[p2| | | | |] [|? ?]]]; simpl; try done.
  intros H. repeat (apply andb_prop in H as [H ?]).
  exists p1, p2. repeat split; try done; by apply Nat.ltb_lt.
Qed.

Lemma for_each_add_item (V P : nat) (items : list (key * Q)) :
  ∀ acc, wf_items V P items = true → shaped V P acc →
  ∃ lf, for_each add_item items acc = Ok lf ∧ shaped V P lf ∧
        const lf = accumulate (const acc) (const_terms items) ∧
        (∀ i, Fweights lf !! i
              = (λ x, accumulate x (F_terms items i)) <$> Fweights acc !! i) ∧
        (∀ i j, cell (Gweights lf) i j
                = (λ x, accumulate x (G_terms items i j))
                    <$> cell (Gweights acc) i j).
Proof.
  induction items as [|[k w] items IH]; intros acc Hwf Hsh.
  - exists acc. simpl. repeat split; try apply Hsh; try done;
      intros; by rewrite fmap_accumulate_nil.
  - simpl in Hwf. apply andb_prop in Hwf as [Hk Hwf].
    destruct Hsh as (HF & HG & Hrows).
    destruct k as [e|tup|a].
    + simpl in Hk. apply andb_prop in Hk as [Hfv Hc].
      apply Nat.ltb_lt in Hc.
      destruct (iadd1_ok (Fweights acc) (Expression.counter e) w)
        as (a' & Ha' & Hlen & Hlk); [lia|].
      destruct (IH (LinearForm (const acc) a' (Gweights acc)) Hwf)
        as (lf & Hrun & Hsh' & Hc' & HF' & HG').
      { repeat split; simpl; try done. lia. }
      exists lf. simpl. rewrite Hfv, Ha'. simpl.
      split; [exact Hrun|]. split; [exact Hsh'|]. split; [exact Hc'|].
      split; [|exact HG'].
      intros i. rewrite HF'. simpl. rewrite Hlk.
      destruct (decide (i = Expression.counter e)) as [->|Hne].
      * rewrite decide_True by done. apply fmap_accumulate_cons.
      * by rewrite decide_False by congruence.
    + destruct (wf_key_tuple_inv _ _ _ Hk)
        as (p1 & p2 & -> & Hl1 & Hl2 & Hc1 & Hc2).
      destruct (iadd2_ok (Gweights acc) P (Point.counter p1)
                  (Point.counter p2) w HG Hrows Hc1 Hc2)
        as (m' & Hm' & Hlen & Hrows' & Hcell).
      destruct (IH (LinearForm (const acc) (Fweights acc) m') Hwf)
        as (lf & Hrun & Hsh' & Hc' & HF' & HG').
      { repeat split; simpl; done. }
      exists lf. simpl. rewrite Hl1, Hl2, Hm'. simpl.
      split; [exact Hrun|]. split; [exact Hsh'|]. split; [exact Hc'|].
      split; [exact HF'|].
      intros i j. rewrite HG'. simpl. rewrite Hcell.
      destruct (decide (i = Point.counter p1 ∧ j = Point.counter p2))
        as [[-> ->]|Hne].
      * rewrite decide_True by done. apply fmap_accumulate_cons.
      * rewrite decide_False; [done|]. intros [<- <-]. by apply Hne.
    + simpl in Hk.
      destruct (IH (LinearForm (const acc + w)%Q (Fweights acc) (Gweights acc))
                  Hwf) as (lf & Hrun & Hsh' & Hc' & HF' & HG').
      { repeat split; simpl; done. }
      exists lf. simpl. rewrite Hk. simpl.
      split; [exact Hrun|]. split; [exact Hsh'|]. by split.
Qed.

(** C2.  For every well-formed expression, [expression_to_cvxpy] returns a
    flattened form made of a vector of [V] weights on [F], a [P] by [P]
    matrix of weights on [G] and a constant.  A leaf function value gets the
    weight one at its own index of [F] and zero everywhere else.  In a
    composite expression every item of the decomposition goes where the kind
    of its key says: the entry [i] of the vector is the sum of the weights of
    the function-value keys of index [i], the cell [(i, j)] of the matrix is
    the sum of the weights of the pair keys of indices [(i, j)], the constant
    is the sum of the weights of the constant keys; weights that meet at one
    index are added. *)
Theorem expression_to_cvxpy_well_formed (V P : nat) (e : Expression.t) :
  well_formed V P e = true →
  ∃ lf, expression_to_cvxpy V P e = Ok lf ∧
        length (Fweights lf) = V ∧ length (Gweights lf) = P ∧
        Forall (λ row, length row = P) (Gweights lf) ∧
        if Expression._is_function_value e then
          const lf = 0%Q ∧
          (∀ i, i < V → Fweights lf !! i
                = Some (if decide (i = Expression.counter e) then 1%Q
                        else 0%Q)) ∧
          (∀ i j, i < P → j < P → cell (Gweights lf) i j = Some 0%Q)
        else
          let items := Expression.decomposition_dict e in
          const lf = accumulate 0%Q (const_terms items) ∧
          (∀ i, i < V → Fweights lf !! i
                = Some (accumulate 0%Q (F_terms items i))) ∧
          (∀ i j, i < P → j < P → cell (Gweights lf) i j
                = Some (accumulate 0%Q (G_terms items i j))).
Proof.
  unfold well_formed, expression_to_cvxpy. intros Hwf.
  destruct (np_zeros2_shape P P) as [HG Hrows].
  destruct (Expression._is_function_value e).
  - apply Nat.ltb_lt in Hwf.
    destruct (iadd1_ok (np_zeros V) (Expression.counter e) 1%Q)
      as (a' & Ha' & Hlen & Hlk).
    { unfold np_zeros. by rewrite length_replicate. }
    rewrite Ha'. simpl. eexists; split; [reflexivity|]. simpl.
    unfold np_zeros in Hlen. rewrite length_replicate in Hlen.
    repeat split; try done.
    + intros i Hi. rewrite Hlk, np_zeros_lookup by done.
      by destruct (decide (i = Expression.counter e)).
    + intros i j Hi Hj. by apply np_zeros2_cell.
  - destruct (for_each_add_item V P (Expression.decomposition_dict e)
                (LinearForm 0%Q (np_zeros V) (np_zeros2 P P)) Hwf)
      as (lf & Hrun & (HF' & HG' & Hrows') & Hc & HFw & HGw).
    { repeat split; simpl; try done. unfold np_zeros. apply length_replicate. }
    exists lf. repeat split; try done.
    + intros i Hi. rewrite HFw. simpl. by rewrite np_zeros_lookup.
    + intros i j Hi Hj. rewrite HGw. simpl. by rewrite np_zeros2_cell.
Qed.

Example flatten_initial_condition :
  expression_to_cvxpy 3 4 Demo.initial_condition
  = Ok (LinearForm (-1)%Q [0; 0; 0]%Q
          [[1; -1; 0; 0]; [-1; 1; 0; 0]; [0; 0; 0; 0]; [0; 0; 0; 0]]%Q).
Proof. reflexivity. Qed.

Example flatten_metric :
  expression_to_cvxpy 3 4 Demo.metric
  = Ok (LinearForm 0%Q [-1; 0; 1]%Q (np_zeros2 4 4)).
Proof. reflexivity. Qed.

Lemma expression_to_cvxpy_well_formed_witness :
  well_formed 3 4 Demo.initial_condition = true ∧
  ∃ lf, expression_to_cvxpy 3 4 Demo.initial_condition = Ok lf ∧
        length (Fweights lf) = 3 ∧ length (Gweights lf) = 4.
Proof.
  split; [reflexivity|].
  destruct (expression_to_cvxpy_well_formed 3 4 Demo.initial_condition)
    as (lf & Hlf & HF & HG & _); [reflexivity|].
  exists lf. by repeat split.
Defined.

(** ** A pair key touches one cell *)

Lemma for_each_app_inv {A S : Type} (body : S → A → result S)
  (l1 l2 : list A) (s s' : S) :
  for_each body (l1 ++ l2) s = Ok s' →
  ∃ s1, for_each body l1 s = Ok s1 ∧ for_each body l2 s1 = Ok s'.
Proof.
  revert s. induction l1 as [|a l1 IH]; intros s H; simpl in *.
  - by exists s.
  - destruct (body s a) as [s0|err]; simpl in *; [|done]. by apply IH.
Qed.

Lemma iadd2_one_cell (m m' : list (list Q)) (i j : nat) (w : Q) :
  iadd2 m i j w = Ok m' →
  cell m' i j = (λ x, (x + w)%Q) <$> cell m i j ∧
  ∀ a b, ¬ (a = i ∧ b = j) → cell m' a b = cell m a b.
Proof.
  unfold iadd2. destruct (m !! i) as [row|] eqn:Hrow; [|done].
  destruct (row !! j) as [x|] eqn:Hx; [|done]. intros [= <-].
  assert (Hi : i < length m) by (eapply lookup_lt_Some; eassumption).
  assert (Hj : j < length row) by (eapply lookup_lt_Some; eassumption).
  split.
  - rewrite cell_insert by done. rewrite decide_True by done.
    rewrite list_lookup_insert_eq by done. unfold cell. rewrite Hrow. simpl.
    by rewrite Hx.
  - intros a b Hne. rewrite cell_insert by done.
    destruct (decide (a = i)) as [->|Ha]; [|done].
    unfold cell. rewrite Hrow. simpl.
    apply list_lookup_insert_ne. intros <-. by apply Hne.
Qed.

(** C10.  When the loop of the flattening meets a pair key [(p1, p2)] of
    weight [w] in the decomposition of a composite expression, it adds [w]
    to the cell of the weight matrix at row [p1.counter] and column
    [p2.counter] and to no other cell: the transposed cell, like the vector
    and the constant, is left as it was.  The matrix produced is not
    symmetric in general: for the inner product [x0 * g0] the cell [(0, 2)]
    is one and the cell [(2, 0)] is zero. *)
Theorem pair_key_adds_to_one_cell :
  (∀ (V P : nat) (e : Expression.t) (pre post : list (key * Q))
     (p1 p2 : Point.t) (w : Q) (lf : linear_form),
     Expression._is_function_value e = false →
     Expression.decomposition_dict e
       = pre ++ (KTuple [PyPoint p1; PyPoint p2], w) :: post →
     expression_to_cvxpy V P e = Ok lf →
     ∃ before after,
       for_each add_item pre (LinearForm 0%Q (np_zeros V) (np_zeros2 P P))
         = Ok before ∧
       add_item before (KTuple [PyPoint p1; PyPoint p2], w) = Ok after ∧
       for_each add_item post after = Ok lf ∧
       cell (Gweights after) (Point.counter p1) (Point.counter p2)
         = (λ x, (x + w)%Q)
             <$> cell (Gweights before) (Point.counter p1) (Point.counter p2) ∧
       (∀ i j, ¬ (i = Point.counter p1 ∧ j = Point.counter p2) →
               cell (Gweights after) i j = cell (Gweights before) i j) ∧
       Fweights after = Fweights before ∧ const after = const before) ∧
  (∃ lf, expression_to_cvxpy 3 4 Demo.inner_product = Ok lf ∧
         cell (Gweights lf) 0 2 = Some 1%Q ∧
         cell (Gweights lf) 2 0 = Some 0%Q).
Proof.
  split.
  - intros V P e pre post p1 p2 w lf Hfv Hdd Hrun.
    unfold expression_to_cvxpy in Hrun. rewrite Hfv, Hdd in Hrun.
    apply for_each_app_inv in Hrun as (before & Hpre & Hrest).
    cbn [for_each] in Hrest.
    destruct (add_item before (KTuple [PyPoint p1; PyPoint p2], w))
      as [after|err] eqn:Hstep; [|done].
    change (for_each add_item post after = Ok lf) in Hrest.
    exists before, after. split; [done|]. split; [done|]. split; [done|].
    simpl in Hstep.
    destruct (Point._is_leaf p1); [|done].
    destruct (Point._is_leaf p2); [|done].
    destruct (iadd2 (Gweights before) (Point.counter p1) (Point.counter p2) w)
      as [m'|err] eqn:Hm; simpl in Hstep; [|done].
    injection Hstep as <-. simpl.
    destruct (iadd2_one_cell _ _ _ _ _ Hm) as [Hc Hframe]. by repeat split.
  - eexists. split; [reflexivity|]. by split.
Qed.

Lemma pair_key_adds_to_one_cell_witness :
  ∃ before after,
    add_item before (Demo.pair Demo.x0 Demo.g0, 1%Q) = Ok after ∧
    cell (Gweights after) 2 0 = cell (Gweights before) 2 0.
Proof.
  destruct (proj1 pair_key_adds_to_one_cell 3 4 Demo.inner_product []
              [] Demo.x0 Demo.g0 1%Q
              (LinearForm 0%Q [0; 0; 0]%Q
                 [[0; 0; 1; 0]; [0; 0; 0; 0]; [0; 0; 0; 0]; [0; 0; 0; 0]]%Q)
              eq_refl eq_refl eq_refl)
    as (before & after & _ & Hstep & _ & _ & Hframe & _).
  exists before, after. split; [exact Hstep|].
  apply Hframe. simpl. lia.
Defined.

(** ** Malformed expressions *)

Lemma for_each_app {A S : Type} (body : S → A → result S)
  (l1 l2 : list A) (s : S) :
  for_each body (l1 ++ l2) s
  = (s1 ← for_each body l1 s; for_each body l2 s1).
Proof.
  revert s. induction l1 as [|a l1 IH]; intros s; simpl; [done|].
  destruct (body s a) as [s0|err]; simpl; [apply IH|done].
Qed.

Lemma iadd2_raise (m : list (list Q)) (P i j : nat) (w : Q) :
  length m = P → Forall (λ row, length row = P) m → ¬ (i < P ∧ j < P) →
  iadd2 m i j w = Raise IndexError.
Proof.
  intros Hlen Hrows Hout. unfold iadd2.
  destruct (m !! i) as [row|] eqn:Hrow; [|done].
  assert (Hr : length row = P)
    by (eapply (proj1 (Forall_lookup _ _) Hrows); eassumption).
  apply lookup_lt_Some in Hrow.
  destruct (row !! j) as [x|] eqn:Hx; [|done].
  apply lookup_lt_Some in Hx. lia.
Qed.

Lemma add_item_malformed (V P : nat) (acc : linear_form) (k : key) (w : Q) :
  shaped V P acc → wf_key V P k = false →
  ∃ err, add_item acc (k, w) = Raise err ∧
         (∀ a, k = KAtom a → err = TypeError) ∧
         (∀ e', k = KExpression e' →
                Expression._is_function_value e' = false →
                err = AssertionError) ∧
         (∀ p1 p2, k = KTuple [PyPoint p1; PyPoint p2] →
                   Point._is_leaf p1 && Point._is_leaf p2 = false →
                   err = AssertionError).
Proof.
  intros (HF & HG & Hrows) Hk. destruct k as [e|tup|a]; simpl in *.
  - destruct (Expression._is_function_value e) eqn:Hfv; simpl in Hk.
    + apply Nat.ltb_ge in Hk. rewrite iadd1_raise by lia.
      eexists; split; [reflexivity|].
      repeat split; intros; simplify_eq; congruence.
    + eexists; split; [reflexivity|]. repeat split; intros; by simplify_eq.
  - destruct tup as [|[p1| | | | |] [|[p2| | | | |] [|? ?]]];
      repeat match goal with
        | |- context [if Point._is_leaf ?p then _ else _] =>
            destruct (Point._is_leaf p) eqn:?
        end;
      simpl in Hk;
      try (eexists; split; [reflexivity|];
           repeat split; intros; simplify_eq; simpl in *; congruence).
    rewrite (iadd2_raise _ P); try done.
    + eexists; split; [reflexivity|].
      repeat split; intros; simplify_eq.
      rewrite Heqb, Heqb0 in *. done.
    + intros [H1 H2]. apply Nat.ltb_lt in H1, H2. by rewrite H1, H2 in Hk.
  - rewrite Hk. eexists; split; [reflexivity|].
    repeat split; intros; by simplify_eq.
Qed.

Lemma forallb_first_false {A : Type} (f : A → bool) (l : list A) :
  forallb f l = false →
  ∃ pre x post, l = pre ++ x :: post ∧ forallb f pre = true ∧ f x = false.
Proof.
  induction l as [|a l IH]; simpl; [done|].
  destruct (f a) eqn:Ha; simpl.
  - intros H. destruct (IH H) as (pre & x & post & -> & Hpre & Hx).
    exists (a :: pre), x, post. simpl. by rewrite Ha.
  - intros _. by exists [], a, l.
Qed.

Lemma shaped_zeros (V P : nat) :
  shaped V P (LinearForm 0%Q (np_zeros V) (np_zeros2 P P)).
Proof.
  destruct (np_zeros2_shape P P). repeat split; simpl; try done.
  unfold np_zeros. apply length_replicate.
Qed.

Lemma first_malformed_item (V P : nat) (e : Expression.t)
  (pre post : list (key * Q)) (k : key) (w : Q) :
  Expression._is_function_value e = false →
  Expression.decomposition_dict e = pre ++ (k, w) :: post →
  wf_items V P pre = true → wf_key V P k = false →
  ∃ err, expression_to_cvxpy V P e = Raise err ∧
         (∀ a, k = KAtom a → err = TypeError) ∧
         (∀ e', k = KExpression e' →
                Expression._is_function_value e' = false →
                err = AssertionError) ∧
         (∀ p1 p2, k = KTuple [PyPoint p1; PyPoint p2] →
                   Point._is_leaf p1 && Point._is_leaf p2 = false →
                   err = AssertionError).
Proof.
  intros Hfv Hdd Hpre Hk. unfold expression_to_cvxpy. rewrite Hfv, Hdd.
  rewrite for_each_app.
  destruct (for_each_add_item V P pre _ Hpre (shaped_zeros V P))
    as (before & -> & Hsh & _).
  destruct (add_item_malformed V P before k w Hsh Hk) as (err & Herr & Hc).
  exists err. split; [|exact Hc].
  change (for_each add_item ((k, w) :: post) before = Raise err).
  cbn [for_each]. by rewrite Herr.
Qed.

(** The flattening succeeds on the well-formed expressions and on no
    other. *)
Lemma expression_to_cvxpy_ok_iff (V P : nat) (e : Expression.t) :
  is_ok (expression_to_cvxpy V P e) = true ↔ well_formed V P e = true.
Proof.
  split.
  - intros Hok. destruct (well_formed V P e) eqn:Hwf; [done|].
    unfold well_formed in Hwf.
    destruct (Expression._is_function_value e) eqn:Hfv.
    + apply Nat.ltb_ge in Hwf. unfold expression_to_cvxpy in Hok.
      rewrite Hfv, iadd1_raise in Hok; [done|].
      unfold np_zeros. by rewrite length_replicate.
    + apply forallb_first_false in Hwf
        as (pre & [k w] & post & Hdd & Hpre & Hk).
      destruct (first_malformed_item V P e pre post k w Hfv Hdd Hpre Hk)
        as (err & Herr & _).
      by rewrite Herr in Hok.
  - unfold well_formed, expression_to_cvxpy. intros Hwf.
    destruct (Expression._is_function_value e).
    + apply Nat.ltb_lt in Hwf.
      destruct (iadd1_ok (np_zeros V) (Expression.counter e) 1%Q)
        as (a' & -> & _); [|done].
      unfold np_zeros. by rewrite length_replicate.
    + destruct (for_each_add_item V P _ _ Hwf (shaped_zeros V P))
        as (lf & -> & _).
      done.
Qed.

(** ** The constraints of the compiled problem *)

Lemma flatten_all_app (V P : nat) (es1 es2 : list Expression.t) :
  flatten_all V P (es1 ++ es2)
  = (l1 ← flatten_all V P es1; l2 ← flatten_all V P es2; Ok (l1 ++ l2)).
Proof.
  unfold flatten_all. induction es1 as [|e es1 IH]; simpl.
  - by destruct (mapM (expression_to_cvxpy V P) es2).
  - destruct (expression_to_cvxpy V P e) as [lf|err]; simpl; [|done].
    rewrite IH.
    destruct (mapM (expression_to_cvxpy V P) es1) as [l1|err]; simpl; [|done].
    by destruct (mapM (expression_to_cvxpy V P) es2).
Qed.

Lemma flatten_all_ok (V P : nat) (es : list Expression.t)
  (lfs : list linear_form) :
  flatten_all V P es = Ok lfs →
  ∀ e, e ∈ es → is_ok (expression_to_cvxpy V P e) = true.
Proof.
  unfold flatten_all. revert lfs.
  induction es as [|e0 es IH]; intros lfs H e He.
  - by apply elem_of_nil in He.
  - simpl in H.
    destruct (expression_to_cvxpy V P e0) as [lf|err] eqn:H0; [|done].
    simpl in H.
    destruct (mapM (expression_to_cvxpy V P) es) as [l|err] eqn:H1; [|done].
    apply elem_of_cons in He as [->|He]; [by rewrite H0|].
    by eapply IH.
Qed.

(** A list of expressions is flattened when all of them are well-formed,
    and only then. *)
Lemma flatten_all_cases (V P : nat) (es : list Expression.t) :
  (∃ lfs, flatten_all V P es = Ok lfs ∧
          ∀ e, e ∈ es → well_formed V P e = true) ∨
  (∃ err, flatten_all V P es = Raise err ∧
          ∃ e, e ∈ es ∧ well_formed V P e = false).
Proof.
  unfold flatten_all. induction es as [|e0 es IH].
  - left. exists []. split; [done|]. intros e He.
    by apply elem_of_nil in He.
  - pose proof (expression_to_cvxpy_ok_iff V P e0) as Hiff. simpl.
    destruct (expression_to_cvxpy V P e0) as [lf|err]; simpl in *.
    + assert (H0 : well_formed V P e0 = true) by by apply Hiff.
      destruct IH as [(lfs & -> & Hall)|(err & -> & e & He & Hwf)]; simpl.
      * left. eexists. split; [done|]. intros e He.
        apply elem_of_cons in He as [->|He]; [done|by apply Hall].
      * right. eexists. split; [done|]. exists e. split; [|done].
        apply elem_of_cons. by right.
    + right. eexists. split; [done|]. exists e0. split.
      * apply elem_of_cons. by left.
      * destruct (well_formed V P e0); [|done].
        by specialize (proj2 Hiff eq_refl).
Qed.

(** A loop that flattens expressions and appends a constraint for each. *)
Lemma for_each_flatten (V P : nat) (mk : linear_form → constraint)
  (es : list Expression.t) (cl : list constraint) :
  for_each (λ cl e, lf ← expression_to_cvxpy V P e; Ok (cl ++ [mk lf])) es cl
  = (lfs ← flatten_all V P es; Ok (cl ++ map mk lfs)).
Proof.
  unfold flatten_all. revert cl. induction es as [|e es IH]; intros cl; simpl.
  - by rewrite app_nil_r.
  - destruct (expression_to_cvxpy V P e) as [lf|err]; simpl; [|done].
    rewrite IH.
    destruct (mapM (expression_to_cvxpy V P) es) as [l|err]; simpl; [|done].
    by rewrite <- app_assoc.
Qed.


(** ** Statements that change the state *)

Lemma M_bind_unfold {A B : Type} (m : M A) (k : A → M B) (w : world) :
  (m ≫= k) w
  = match m w with
    | (Ok a, w') => k a w'
    | (Raise e, w') => (Raise e, w')
    end.
Proof. reflexivity. Qed.

Lemma M_bind_ext {A B : Type} (m m' : M A) (k k' : A → M B) :
  (∀ w, m w = m' w) → (∀ a w, k a w = k' a w) →
  ∀ w, (m ≫= k) w = (m' ≫= k') w.
Proof.
  intros Hm Hk w. rewrite !M_bind_unfold, Hm.
  destruct (m' w) as [[a|e] w']; [apply Hk|done].
Qed.

Lemma for__ext {A : Type} (l : list A) (f g : A → M unit) :
  (∀ a w, f a w = g a w) → ∀ w, for_ l f w = for_ l g w.
Proof.
  intros Hfg. induction l as [|a l IH]; intros w; simpl; [done|].
  apply M_bind_ext; [apply Hfg|]. intros _. apply IH.
Qed.

Lemma for__app {A : Type} (l1 l2 : list A) (body : A → M unit) (w : world) :
  for_ (l1 ++ l2) body w = (_ ← for_ l1 body; for_ l2 body) w.
Proof.
  revert w. induction l1 as [|a l1 IH]; intros w; simpl; [done|].
  rewrite !M_bind_unfold. destruct (body a w) as [[[]|e] w']; [|done].
  rewrite IH. by rewrite M_bind_unfold.
Qed.

Lemma for__concat_map {A B : Type} (g : A → list B) (body : B → M unit)
  (l : list A) (w : world) :
  for_ l (λ a, for_ (g a) body) w = for_ (concat (map g l)) body w.
Proof.
  revert w. induction l as [|a l IH]; intros w; simpl; [done|].
  rewrite for__app. apply M_bind_ext; [done|]. intros _. apply IH.
Qed.

Lemma when_point_target (pv : list (list Q)) (F : option (list Q))
  (p : Point.t) (w : world) :
  when (Point._is_leaf p) (assign_point pv p) w
  = for_ (point_target p) (assign_target F pv) w.
Proof.
  unfold point_target. destruct (Point._is_leaf p); simpl; [|done].
  rewrite M_bind_unfold. by destruct (assign_point pv p w) as [[[]|e] w'].
Qed.

Lemma when_value_target (pv : list (list Q)) (F : option (list Q))
  (e : Expression.t) (w : world) :
  when (Expression._is_function_value e) (assign_function_value F e) w
  = for_ (value_target e) (assign_target F pv) w.
Proof.
  unfold value_target. destruct (Expression._is_function_value e); simpl;
    [|done].
  rewrite M_bind_unfold.
  by destruct (assign_function_value F e w) as [[[]|err] w'].
Qed.

(** The two loops of the reconstruction visit the targets in order. *)
Lemma assign_values_targets (self : PEP.t) (F : option (list Q))
  (pv : list (list Q)) (w : world) :
  assign_values self F pv w = for_ (targets self) (assign_target F pv) w.
Proof.
  unfold assign_values, targets. rewrite for__app.
  apply M_bind_ext.
  - intros w0. rewrite <- for__concat_map. apply for__ext.
    intros p w1. apply when_point_target.
  - intros _ w0. rewrite <- for__concat_map. apply for__ext.
    intros f w1. unfold function_targets.
    destruct (Function._is_leaf f); simpl; [|done].
    rewrite <- for__concat_map. apply for__ext.
    intros [[p g] v] w2. unfold triplet_targets. rewrite for__app.
    apply M_bind_ext; [intros; apply when_point_target|].
    intros _ w3. rewrite for__app.
    apply M_bind_ext; [intros; apply when_point_target|].
    intros _ w4. apply when_value_target.
Qed.

(** ** The assignments, one target at a time *)

Lemma assign_target_in_range (F : option (list Q)) (pv : list (list Q))
  (t : target) (w : world) :
  in_range F pv t = true →
  assign_target F pv t w = (Ok tt, assigned F pv w t).
Proof.
  destruct t as [p|e]; simpl; intros Hr.
  - unfold assign_point, column, lift, modify. rewrite M_bind_unfold.
    by rewrite Hr.
  - unfold assign_function_value, getitem, lift, modify, item_at.
    rewrite M_bind_unfold. destruct F as [F|]; [|done].
    apply Nat.ltb_lt in Hr.
    destruct (lookup_lt_is_Some_2 F (Expression.counter e) Hr) as [x Hx].
    rewrite Hx. by rewrite (nth_lookup_Some _ _ _ _ Hx).
Qed.

Lemma assign_target_out_of_range (F : option (list Q)) (pv : list (list Q))
  (t : target) (w : world) :
  in_range F pv t = false →
  ∃ err, assign_target F pv t w = (Raise err, w) ∧
         (err = IndexError ∨ err = TypeError).
Proof.
  destruct t as [p|e]; simpl; intros Hr.
  - unfold assign_point, column, lift. rewrite M_bind_unfold, Hr. eauto.
  - unfold assign_function_value, getitem, lift. rewrite M_bind_unfold.
    destruct F as [F|]; [|eauto].
    apply Nat.ltb_ge in Hr. rewrite lookup_ge_None_2 by done. eauto.
Qed.

(** A run of the assignments over targets that are all in range succeeds
    and makes every assignment. *)
Lemma for_targets_in_range (F : option (list Q)) (pv : list (list Q))
  (ts : list target) :
  ∀ w, forallb (in_range F pv) ts = true →
       for_ ts (assign_target F pv) w = (Ok tt, foldl (assigned F pv) w ts).
Proof.
  induction ts as [|t ts IH]; intros w Hr; simpl in *; [done|].
  apply andb_prop in Hr as [Ht Hr].
  rewrite M_bind_unfold, assign_target_in_range by done. by apply IH.
Qed.

(** A run stops at the first target out of range, with the assignments made
    so far. *)
Lemma for_targets_first_out (F : option (list Q)) (pv : list (list Q))
  (pre post : list target) (t : target) (w : world) :
  forallb (in_range F pv) pre = true → in_range F pv t = false →
  ∃ err, for_ (pre ++ t :: post) (assign_target F pv) w
         = (Raise err, foldl (assigned F pv) w pre) ∧
         (err = IndexError ∨ err = TypeError).
Proof.
  intros Hpre Ht. rewrite for__app, M_bind_unfold.
  rewrite for_targets_in_range by done. simpl. rewrite M_bind_unfold.
  destruct (assign_target_out_of_range F pv t (foldl (assigned F pv) w pre) Ht)
    as (err & -> & Herr).
  eauto.
Qed.

Lemma for_targets_ok_inv (F : option (list Q)) (pv : list (list Q))
  (ts : list target) (w w' : world) (u : unit) :
  for_ ts (assign_target F pv) w = (Ok u, w') →
  forallb (in_range F pv) ts = true ∧ w' = foldl (assigned F pv) w ts.
Proof.
  intros Hrun. destruct (forallb (in_range F pv) ts) eqn:Hr.
  - rewrite for_targets_in_range in Hrun by done. by simplify_eq.
  - apply forallb_first_false in Hr as (pre & t & post & -> & Hpre & Ht).
    destruct (for_targets_first_out F pv pre post t w Hpre Ht)
      as (err & Herr & _).
    rewrite Herr in Hrun. done.
Qed.

Lemma for_targets_raise_inv (F : option (list Q)) (pv : list (list Q))
  (ts : list target) (w w' : world) (err : exn) :
  for_ ts (assign_target F pv) w = (Raise err, w') →
  forallb (in_range F pv) ts = false ∧ (err = IndexError ∨ err = TypeError).
Proof.
  intros Hrun. destruct (forallb (in_range F pv) ts) eqn:Hr.
  - rewrite for_targets_in_range in Hrun by done. done.
  - split; [done|].
    apply forallb_first_false in Hr as (pre & t & post & -> & Hpre & Ht).
    destruct (for_targets_first_out F pv pre post t w Hpre Ht)
      as (err' & Herr & Hkind).
    rewrite Herr in Hrun. by simplify_eq.
Qed.

(** ** The store after the assignments *)

Lemma assigned_frame (F : option (list Q)) (pv : list (list Q))
  (ts : list target) (w : world) :
  let w' := foldl (assigned F pv) w ts in
  Point_counter w' = Point_counter w ∧
  Expression_counter w' = Expression_counter w ∧
  Function_counter w' = Function_counter w ∧
  PEP_counter w' = PEP_counter w ∧
  next_id w' = next_id w ∧
  solver_log w' = solver_log w.
Proof.
  revert w. induction ts as [|t ts IH]; intros w; simpl; [done|].
  destruct (IH (assigned F pv w t)) as (H1 & H2 & H3 & H4 & H5 & H6).
  rewrite H1, H2, H3, H4, H5, H6. by destruct t.
Qed.

Lemma assigned_point_other (F : option (list Q)) (pv : list (list Q))
  (ts : list target) (i : nat) :
  ∀ w, (∀ p, TPoint p ∈ ts → Point.id p ≠ i) →
       point_value (foldl (assigned F pv) w ts) !! i = point_value w !! i.
Proof.
  induction ts as [|t ts IH]; intros w Hi; simpl; [done|].
  rewrite IH by (intros p Hp; apply Hi; by right).
  destruct t as [p|e]; simpl; [|done].
  apply lookup_insert_ne, Hi. by left.
Qed.

Lemma assigned_value_other (F : option (list Q)) (pv : list (list Q))
  (ts : list target) (i : nat) :
  ∀ w, (∀ e, TValue e ∈ ts → Expression.id e ≠ i) →
       expression_value (foldl (assigned F pv) w ts) !! i
       = expression_value w !! i.
Proof.
  induction ts as [|t ts IH]; intros w Hi; simpl; [done|].
  rewrite IH by (intros p Hp; apply Hi; by right).
  destruct t as [p|e]; simpl; [done|].
  apply lookup_insert_ne, Hi. by left.
Qed.

Lemma elem_of_point_ids (ts : list target) (i : nat) :
  i ∈ point_ids ts ↔ ∃ p, TPoint p ∈ ts ∧ Point.id p = i.
Proof.
  unfold point_ids. rewrite list_elem_of_omap. split.
  - intros ([p|e] & Hin & Heq); [|done]. exists p. by simplify_eq.
  - intros (p & Hin & <-). by exists (TPoint p).
Qed.

Lemma elem_of_value_ids (ts : list target) (i : nat) :
  i ∈ value_ids ts ↔ ∃ e, TValue e ∈ ts ∧ Expression.id e = i.
Proof.
  unfold value_ids. rewrite list_elem_of_omap. split.
  - intros ([p|e] & Hin & Heq); [done|]. exists e. by simplify_eq.
  - intros (e & Hin & <-). by exists (TValue e).
Qed.

Lemma assigned_point_at (F : option (list Q)) (pv : list (list Q))
  (ts : list target) (p : Point.t) :
  ∀ w, TPoint p ∈ ts →
       (∀ q, TPoint q ∈ ts → Point.id q = Point.id p → q = p) →
       point_value (foldl (assigned F pv) w ts) !! Point.id p
       = Some (column_at pv (Point.counter p)).
Proof.
  induction ts as [|t ts IH]; intros w Hp Huniq; [by apply elem_of_nil in Hp|].
  simpl. destruct (decide (Point.id p ∈ point_ids ts)) as [Hin|Hnot].
  - apply elem_of_point_ids in Hin as (q & Hq & Hid).
    apply IH.
    + rewrite <- (Huniq q); [done| by right | done].
    + intros q' Hq'. apply Huniq. by right.
  - assert (Hother : ∀ q, TPoint q ∈ ts → Point.id q ≠ Point.id p).
    { intros q Hq Hid. apply Hnot, elem_of_point_ids. eauto. }
    rewrite assigned_point_other by done.
    apply elem_of_cons in Hp as [<-|Hp].
    + simpl. apply lookup_insert_eq.
    + by destruct (Hother p Hp).
Qed.

Lemma assigned_value_at (F : option (list Q)) (pv : list (list Q))
  (ts : list target) (e : Expression.t) :
  ∀ w, TValue e ∈ ts →
       (∀ e', TValue e' ∈ ts → Expression.id e' = Expression.id e → e' = e) →
       expression_value (foldl (assigned F pv) w ts) !! Expression.id e
       = Some (item_at F (Expression.counter e)).
Proof.
  induction ts as [|t ts IH]; intros w He Huniq; [by apply elem_of_nil in He|].
  simpl. destruct (decide (Expression.id e ∈ value_ids ts)) as [Hin|Hnot].
  - apply elem_of_value_ids in Hin as (q & Hq & Hid).
    apply IH.
    + rewrite <- (Huniq q); [done| by right | done].
    + intros q' Hq'. apply Huniq. by right.
  - assert (Hother : ∀ q, TValue q ∈ ts → Expression.id q ≠ Expression.id e).
    { intros q Hq Hid. apply Hnot, elem_of_value_ids. eauto. }
    rewrite assigned_value_other by done.
    apply elem_of_cons in He as [<-|He].
    + simpl. apply lookup_insert_eq.
    + by destruct (Hother e He).
Qed.

(** ** The targets, in the terms of the problem *)

Lemma elem_of_concat {A : Type} (x : A) (ls : list (list A)) :
  x ∈ concat ls ↔ ∃ l, l ∈ ls ∧ x ∈ l.
Proof.
  induction ls as [|l ls IH]; simpl.
  - split; [intros H; by apply elem_of_nil in H|].
    intros (l & H & _). by apply elem_of_nil in H.
  - rewrite elem_of_app, IH. split.
    + intros [H|(l' & H1 & H2)]; [exists l; split; [by left|done]|].
      exists l'. split; [by right|done].
    + intros (l' & [->|H1]%elem_of_cons & H2); [by left|]. right. eauto.
Qed.

Lemma elem_of_point_target (t : target) (p : Point.t) :
  t ∈ point_target p ↔ t = TPoint p ∧ Point._is_leaf p = true.
Proof.
  unfold point_target. destruct (Point._is_leaf p).
  - rewrite list_elem_of_singleton. split; [by intros ->|by intros [-> _]].
  - split; [intros H; by apply elem_of_nil in H|]. by intros [_ ?].
Qed.

Lemma elem_of_value_target (t : target) (e : Expression.t) :
  t ∈ value_target e ↔ t = TValue e ∧ Expression._is_function_value e = true.
Proof.
  unfold value_target. destruct (Expression._is_function_value e).
  - rewrite list_elem_of_singleton. split; [by intros ->|by intros [-> _]].
  - split; [intros H; by apply elem_of_nil in H|]. by intros [_ ?].
Qed.

Lemma elem_of_targets_point (self : PEP.t) (p : Point.t) :
  TPoint p ∈ targets self
  ↔ registered_point self p ∧ Point._is_leaf p = true.
Proof.
  unfold targets, registered_point.
  rewrite elem_of_app, !elem_of_concat. split.
  - intros [(l & Hl & Hp)|(l & Hl & Hp)].
    + apply list_elem_of_fmap in Hl as (q & -> & Hq).
      apply elem_of_point_target in Hp as [[= ->] Hleaf]. by split; [left|].
    + apply list_elem_of_fmap in Hl as (f & -> & Hf).
      unfold function_targets in Hp.
      destruct (Function._is_leaf f) eqn:Hfl; [|by apply elem_of_nil in Hp].
      apply elem_of_concat in Hp as (l & Hl & Hp).
      apply list_elem_of_fmap in Hl as ([[x g] v] & -> & Htr).
      unfold triplet_targets in Hp. rewrite !elem_of_app in Hp.
      destruct Hp as [Hp|[Hp|Hp]].
      * apply elem_of_point_target in Hp as [[= ->] Hleaf].
        split; [|done]. right. exists f, x, g, v. eauto.
      * apply elem_of_point_target in Hp as [[= ->] Hleaf].
        split; [|done]. right. exists f, x, g, v. eauto.
      * by apply elem_of_value_target in Hp as [? _].
  - intros [[Hp|(f & x & g & v & Hf & Hfl & Htr & Hp)] Hleaf].
    + left. exists (point_target p). split.
      * apply list_elem_of_fmap. eauto.
      * by apply elem_of_point_target.
    + right. exists (function_targets f). split.
      * apply list_elem_of_fmap. eauto.
      * unfold function_targets. rewrite Hfl. apply elem_of_concat.
        exists (triplet_targets (x, g, v)). split.
        { apply list_elem_of_fmap. eauto. }
        unfold triplet_targets. rewrite !elem_of_app.
        destruct Hp as [->| ->]; [left|right; left];
          by apply elem_of_point_target.
Qed.

Lemma elem_of_targets_value (self : PEP.t) (e : Expression.t) :
  TValue e ∈ targets self
  ↔ registered_value self e ∧ Expression._is_function_value e = true.
Proof.
  unfold targets, registered_value.
  rewrite elem_of_app, !elem_of_concat. split.
  - intros [(l & Hl & He)|(l & Hl & He)].
    + apply list_elem_of_fmap in Hl as (q & -> & Hq).
      by apply elem_of_point_target in He as [? _].
    + apply list_elem_of_fmap in Hl as (f & -> & Hf).
      unfold function_targets in He.
      destruct (Function._is_leaf f) eqn:Hfl; [|by apply elem_of_nil in He].
      apply elem_of_concat in He as (l & Hl & He).
      apply list_elem_of_fmap in Hl as ([[x g] v] & -> & Htr).
      unfold triplet_targets in He. rewrite !elem_of_app in He.
      destruct He as [He|[He|He]].
      * by apply elem_of_point_target in He as [? _].
      * by apply elem_of_point_target in He as [? _].
      * apply elem_of_value_target in He as [[= ->] Hfv].
        split; [|done]. exists f, x, g. eauto.
  - intros [(f & x & g & Hf & Hfl & Htr) Hfv].
    right. exists (function_targets f). split.
    + apply list_elem_of_fmap. eauto.
    + unfold function_targets. rewrite Hfl. apply elem_of_concat.
      exists (triplet_targets (x, g, e)). split.
      { apply list_elem_of_fmap. eauto. }
      unfold triplet_targets. rewrite !elem_of_app. right; right.
      by apply elem_of_value_target.
Qed.

(** ** The smallest eigenvalue and the clipping *)

Lemma fold_left_Qmin_spec (l : list Q) :
  ∀ x, let m := fold_left Qmin l x in
       (m = x ∨ m ∈ l) ∧ (m <= x)%Q ∧ ∀ y, y ∈ l → (m <= y)%Q.
Proof.
  induction l as [|a l IH]; intros x; simpl.
  - split; [by left|]. split; [apply Qle_refl|]. intros y Hy. by apply elem_of_nil in Hy.
  - destruct (IH (Qmin x a)) as (Hin & Hle & Hall).
    split; [|split].
    + destruct Hin as [Heq|Hin]; [|right; by right].
      rewrite Heq. unfold Qmin, GenericMinMax.gmin.
      destruct (x ?= a)%Q; [by left|by left|right; by left].
    + eapply Qle_trans; [exact Hle|]. apply Q.le_min_l.
    + intros y [->|Hy]%elem_of_cons; [|by apply Hall].
      eapply Qle_trans; [exact Hle|]. apply Q.le_min_r.
Qed.

Lemma np_min_spec (l : list Q) (m : Q) :
  np_min l = Ok m → m ∈ l ∧ ∀ y, y ∈ l → (m <= y)%Q.
Proof.
  destruct l as [|x l]; simpl; [done|]. intros [= <-].
  destruct (fold_left_Qmin_spec l x) as (Hin & Hle & Hall).
  split.
  - destruct Hin as [->|Hin]; [by left|by right].
  - intros y [->|Hy]%elem_of_cons; [done|by apply Hall].
Qed.

Lemma Qmax_zero (x : Q) :
  Qmax x 0 = if Qlt_le_dec x 0 then 0%Q else x.
Proof.
  unfold Qmax, GenericMinMax.gmax.
  destruct (Qlt_le_dec x 0) as [Hlt|Hge]; destruct (x ?= 0)%Q eqn:Hc;
    try done.
  - apply Qeq_alt in Hc. rewrite Hc in Hlt. by apply Qlt_irrefl in Hlt.
  - apply Qgt_alt in Hc. destruct (Qlt_irrefl x). by eapply Qlt_trans.
  - apply Qlt_alt in Hc. by apply Qlt_not_le in Hc.
Qed.

Lemma np_maximum_zero (l : list Q) (i : nat) (x : Q) :
  l !! i = Some x →
  np_maximum l 0 !! i = Some (if Qlt_le_dec x 0 then 0%Q else x).
Proof.
  intros Hx. unfold np_maximum.
  change (map (λ x0, Qmax x0 0) l) with ((λ x0, Qmax x0 0) <$> l).
  by rewrite list_lookup_fmap, Hx, <- Qmax_zero.
Qed.

Lemma Qle_bool_false (x y : Q) : Qle_bool x y = false ↔ (y < x)%Q.
Proof.
  split.
  - intros H. apply Qnot_le_lt. intros Hle.
    apply Qle_bool_iff in Hle. congruence.
  - intros Hlt. destruct (Qle_bool x y) eqn:H; [|done].
    apply Qle_bool_iff in H. by apply Qlt_not_le in Hlt.
Qed.

(** ** The shapes of the arrays of the reconstruction *)

Lemma ncols_square (n : nat) (m : list (list Q)) : square n m → ncols m = n.
Proof.
  intros [Hlen Hrows]. destruct m as [|row m]; simpl in *; [done|].
  by apply Forall_cons in Hrows as [? _].
Qed.

Lemma square_broadcast_mul (n : nat) (v : list Q) (m : list (list Q)) :
  length v = n → square n m → square n (broadcast_mul v m).
Proof.
  intros Hv [Hlen Hrows]. unfold broadcast_mul. split.
  - by rewrite length_map.
  - apply Forall_forall. intros row' Hrow'.
    apply list_elem_of_In, in_map_iff in Hrow' as (row & <- & Hrow).
    apply list_elem_of_In in Hrow.
    rewrite length_zip_with.
    rewrite (proj1 (Forall_forall _ _) Hrows row Hrow). lia.
Qed.

Lemma square_transpose (n : nat) (m : list (list Q)) :
  square n m → square n (transpose m).
Proof.
  intros Hsq. unfold transpose. rewrite (ncols_square n m Hsq).
  destruct Hsq as [Hlen _]. split.
  - by rewrite length_map, length_seq.
  - apply Forall_forall. intros row' Hrow'.
    apply list_elem_of_In, in_map_iff in Hrow' as (c & <- & _).
    by rewrite length_map.
Qed.

Lemma assigned_keeps_point (F : option (list Q)) (pv : list (list Q))
  (ts : list target) (i : nat) :
  ∀ w, is_Some (point_value w !! i) →
       is_Some (point_value (foldl (assigned F pv) w ts) !! i).
Proof.
  induction ts as [|t ts IH]; intros w Hw; simpl; [done|].
  apply IH. destruct t as [p|e]; simpl; [|done].
  destruct (decide (Point.id p = i)) as [->|Hne].
  - rewrite lookup_insert_eq. eauto.
  - by rewrite lookup_insert_ne.
Qed.

Lemma assigned_keeps_value (F : option (list Q)) (pv : list (list Q))
  (ts : list target) (i : nat) :
  ∀ w, is_Some (expression_value w !! i) →
       is_Some (expression_value (foldl (assigned F pv) w ts) !! i).
Proof.
  induction ts as [|t ts IH]; intros w Hw; simpl; [done|].
  apply IH. destruct t as [p|e]; simpl; [done|].
  destruct (decide (Expression.id e = i)) as [->|Hne].
  - rewrite lookup_insert_eq. eauto.
  - by rewrite lookup_insert_ne.
Qed.

Lemma assigned_point_is_Some (F : option (list Q)) (pv : list (list Q))
  (ts : list target) (p : Point.t) :
  ∀ w, TPoint p ∈ ts →
       is_Some (point_value (foldl (assigned F pv) w ts) !! Point.id p).
Proof.
  induction ts as [|t ts IH]; intros w Hp; [by apply elem_of_nil in Hp|].
  apply elem_of_cons in Hp as [<-|Hp]; simpl; [|by apply IH].
  apply assigned_keeps_point. simpl. rewrite lookup_insert_eq. eauto.
Qed.

Lemma assigned_value_is_Some (F : option (list Q)) (pv : list (list Q))
  (ts : list target) (e : Expression.t) :
  ∀ w, TValue e ∈ ts →
       is_Some (expression_value (foldl (assigned F pv) w ts)
                  !! Expression.id e).
Proof.
  induction ts as [|t ts IH]; intros w He; [by apply elem_of_nil in He|].
  apply elem_of_cons in He as [<-|He]; simpl; [|by apply IH].
  apply assigned_keeps_value. simpl. rewrite lookup_insert_eq. eauto.
Qed.

(** ** The matrix that is factored *)

Lemma nth_zip_with_Qmult (v row : list Q) (j : nat) (x y : Q) :
  v !! j = Some x → row !! j = Some y →
  nth j (zip_with Qmult v row) 0%Q = (x * y)%Q.
Proof.
  intros Hx Hy. apply nth_lookup_Some with (d := 0%Q).
  rewrite lookup_zip_with, Hx. simpl. by rewrite Hy.
Qed.

(** For arrays of the sizes of a decomposition, the matrix handed to
    [np.linalg.qr] is the one of the specification. *)
Lemma transpose_scaled (np_sqrt : Q → Q) (n : nat) (eig_val : list Q)
  (eig_vec : list (list Q)) :
  length eig_val = n → square n eig_vec →
  transpose (broadcast_mul (map np_sqrt (np_maximum eig_val 0)) eig_vec)
  = scaled_eigenvectors np_sqrt eig_val eig_vec.
Proof.
  intros Hval Hvec. unfold transpose.
  assert (Hroots : length (map np_sqrt (np_maximum eig_val 0)) = n)
    by (unfold np_maximum; by rewrite !length_map).
  rewrite (ncols_square n _ (square_broadcast_mul n _ _ Hroots Hvec)).
  apply list_eq. intros j. unfold scaled_eigenvectors.
  rewrite list_lookup_imap.
  change (map ?f ?l) with (f <$> l) at 1. rewrite list_lookup_fmap.
  destruct (decide (j < n)) as [Hj|Hj].
  - rewrite lookup_seq_lt by done.
    destruct (lookup_lt_is_Some_2 eig_val j ltac:(lia)) as [v Hv].
    rewrite Hv. simpl. f_equal. unfold broadcast_mul. rewrite map_map.
    apply map_ext_in. intros row Hrow.
    destruct Hvec as [_ Hrows].
    assert (Hlen : length row = n)
      by (by apply (proj1 (Forall_forall _ _) Hrows), list_elem_of_In).
    destruct (lookup_lt_is_Some_2 row j ltac:(lia)) as [y Hy].
    rewrite (nth_zip_with_Qmult _ row j (np_sqrt (Qmax v 0)) y); [|  |done].
    + by rewrite (nth_lookup_Some _ _ 0%Q _ Hy).
    + change (map ?f ?l) with (f <$> l). unfold np_maximum.
      change (map ?f ?l) with (f <$> l).
      by rewrite !list_lookup_fmap, Hv.
  - rewrite lookup_seq_ge by lia.
    by rewrite (lookup_ge_None_2 eig_val j) by lia.
Qed.

Section OrchestratorFacts.

Variable add_class_constraints : Function.t → Function.t.
Variable cp_solve : string → Problem → solver_outcome.
Variable np_linalg_eig : list (list Q) → list Q * list (list Q).
Variable np_sqrt : Q → Q.
Variable np_linalg_qr_r : list (list Q) → list (list Q).

Lemma class_constraints_loop (V P : nat) (fs : list Function.t) :
  ∀ cl done,
  for_each (λ '(cl, fs) function,
      let function := add_class_constraints function in
      cl ←
        for_each (λ cl constraint,
            e ← expression_to_cvxpy V P constraint;
            Ok (cl ++ [LeZero e]))
          (Function.list_of_constraints function) cl;
      Ok (cl, fs ++ [function]))
    fs (cl, done)
  = (ks ← flatten_all V P
            (concat (map (λ f, Function.list_of_constraints
                                 (add_class_constraints f)) fs));
     Ok (cl ++ map LeZero ks, done ++ map add_class_constraints fs)).
Proof.
  induction fs as [|f fs IH]; intros cl done; simpl.
  - by rewrite !app_nil_r.
  - rewrite for_each_flatten, flatten_all_app.
    destruct (flatten_all V P
                (Function.list_of_constraints (add_class_constraints f)))
      as [k1|err]; simpl; [|done].
    rewrite IH.
    destruct (flatten_all V P _) as [k2|err]; simpl; [|done].
    by rewrite map_app, <- !app_assoc.
Qed.

Lemma constraints_of_problem_spec (V P : nat) (self : PEP.t) :
  constraints_of_problem add_class_constraints V P self
  = sdp_constraints add_class_constraints V P self.
Proof.
  unfold constraints_of_problem, sdp_constraints.
  rewrite for_each_flatten.
  destruct (flatten_all V P (PEP.list_of_performance_metrics self))
    as [ms|err]; simpl; [|done].
  rewrite for_each_flatten.
  destruct (flatten_all V P (PEP.list_of_conditions self))
    as [cs|err]; simpl; [|done].
  rewrite class_constraints_loop. unfold class_constraints.
  destruct (flatten_all V P _) as [ks|err]; simpl; [|done].
  by rewrite <- app_assoc.
Qed.

Abbreviation eval_points_and_function_values' :=
  (eval_points_and_function_values np_linalg_eig np_sqrt np_linalg_qr_r).
Abbreviation points_values_of' :=
  (points_values_of np_linalg_eig np_sqrt np_linalg_qr_r).
Abbreviation solve' :=
  (solve add_class_constraints cp_solve np_linalg_eig np_sqrt
     np_linalg_qr_r).

(** The reconstruction once the eigenvalues are known. *)
Lemma eval_after_eig (self : PEP.t) (F : option (list Q))
  (G : list (list Q)) (w : world) (vals : list Q) (vecs : list (list Q))
  (m : Q) :
  np_linalg_eig G = (vals, vecs) → np_min vals = Ok m →
  eval_points_and_function_values' self F (Some G) w
  = if Qle_bool tolerance m
    then assign_values self F (points_values_of' G) w
    else (Raise AssertionError, w).
Proof.
  intros Heig Hmin.
  unfold eval_points_and_function_values, points_values_of, linalg_eig, lift.
  rewrite M_bind_unfold, Heig. rewrite M_bind_unfold, Hmin.
  by destruct (Qle_bool tolerance m).
Qed.

(** C3.  With [m] the smallest eigenvalue of the Gram matrix that the
    solver returned, the reconstruction fails on its assertion exactly
    when [m] is below [-1e-4], and then nothing is assigned.  From
    [-1e-4] on, the eigenvalues below zero are replaced by zero, the
    others are kept, and the reconstruction goes on with the assignments
    as if nothing had happened. *)
Theorem eigenvalue_check (self : PEP.t) (F : option (list Q))
  (G : list (list Q)) (w : world) (vals : list Q) (vecs : list (list Q))
  (m : Q) :
  np_linalg_eig G = (vals, vecs) → np_min vals = Ok m →
  tolerance = (- (1 # 10000))%Q ∧
  (m ∈ vals ∧ ∀ x, x ∈ vals → (m <= x)%Q) ∧
  ((eval_points_and_function_values' self F (Some G) w).1
     = Raise AssertionError ↔ (m < tolerance)%Q) ∧
  ((m < tolerance)%Q →
   eval_points_and_function_values' self F (Some G) w
   = (Raise AssertionError, w)) ∧
  ((tolerance <= m)%Q →
   eval_points_and_function_values' self F (Some G) w
   = assign_values self F
       (factor np_sqrt np_linalg_qr_r (np_maximum vals 0) vecs) w ∧
   ∀ i x, vals !! i = Some x →
          np_maximum vals 0 !! i
          = Some (if Qlt_le_dec x 0 then 0%Q else x)).
Proof.
  intros Heig Hmin. split; [reflexivity|].
  split; [by apply np_min_spec|].
  rewrite (eval_after_eig self F G w vals vecs m Heig Hmin).
  unfold points_values_of. rewrite Heig.
  split; [|split].
  - destruct (Qle_bool tolerance m) eqn:Hle.
    + split.
      * intros Hraise. rewrite assign_values_targets in Hraise.
        destruct (for_ _ _ w) as [[u|err] w'] eqn:Hrun; [done|].
        apply for_targets_raise_inv in Hrun as [_ [-> | ->]]; done.
      * intros Hlt. apply Qle_bool_iff in Hle. by apply Qlt_not_le in Hlt.
    + split; [|done]. intros _. by apply Qle_bool_false.
  - intros Hlt. apply Qle_bool_false in Hlt. by rewrite Hlt.
  - intros Hle. apply Qle_bool_iff in Hle. rewrite Hle.
    split; [done|]. intros i x. apply np_maximum_zero.
Qed.

(** Whatever its result, the reconstruction leaves the state that some of
    the assignments, made in order, produce. *)
Lemma for_targets_run (F : option (list Q)) (pv : list (list Q))
  (ts : list target) (w : world) :
  ∃ pre, (for_ ts (assign_target F pv) w).2 = foldl (assigned F pv) w pre.
Proof.
  destruct (forallb (in_range F pv) ts) eqn:Hr.
  - exists ts. by rewrite for_targets_in_range.
  - apply forallb_first_false in Hr as (pre & t & post & -> & Hpre & Ht).
    destruct (for_targets_first_out F pv pre post t w Hpre Ht)
      as (err & -> & _).
    by exists pre.
Qed.

Lemma eval_run (self : PEP.t) (F : option (list Q))
  (G_value : option (list (list Q))) (w : world) :
  ∃ pv pre,
    (eval_points_and_function_values' self F G_value w).2
    = foldl (assigned F pv) w pre.
Proof.
  unfold eval_points_and_function_values, linalg_eig, lift.
  rewrite M_bind_unfold. destruct G_value as [G|]; [|by exists [], []].
  destruct (np_linalg_eig G) as [vals vecs]. rewrite M_bind_unfold.
  destruct (np_min vals) as [m|err]; [|by exists [], []].
  destruct (Qle_bool tolerance m); [|by exists [], []].
  rewrite assign_values_targets.
  destruct (for_targets_run F
              (factor np_sqrt np_linalg_qr_r (np_maximum vals 0) vecs)
              (targets self) w) as [pre Hpre].
  eauto.
Qed.

(** A successful reconstruction had a Gram matrix to work on and made
    every assignment. *)
Lemma eval_ok_inv (self : PEP.t) (F : option (list Q))
  (G_value : option (list (list Q))) (w w' : world) (u : unit) :
  eval_points_and_function_values' self F G_value w = (Ok u, w') →
  ∃ G, G_value = Some G ∧
       forallb (in_range F (points_values_of' G)) (targets self) = true ∧
       w' = foldl (assigned F (points_values_of' G)) w (targets self).
Proof.
  unfold eval_points_and_function_values, linalg_eig, lift.
  rewrite M_bind_unfold. destruct G_value as [G|]; [|done].
  destruct (np_linalg_eig G) as [vals vecs] eqn:Heig.
  rewrite M_bind_unfold.
  destruct (np_min vals) as [m|err]; [|done].
  destruct (Qle_bool tolerance m); [|done].
  rewrite assign_values_targets. intros Hrun.
  apply for_targets_ok_inv in Hrun as [Hr ->]. exists G.
  unfold points_values_of. rewrite Heig. by repeat split.
Qed.

(** C9.  After a successful reconstruction every registered leaf point
    and every registered leaf gradient has for value its coordinate vector,
    the column of its index in the matrix [R] of the coordinates, which is
    the entry of that index of every row of [R]; for a decomposition of the
    sizes of the Gram matrix, [R] is the factor that [np.linalg.qr] returns
    for the matrix [X = (√Λ)Qᵗ] of the specification.  Every registered
    leaf function value has for value the entry of its index in [F], and
    nothing else has changed: an object whose identity is not the one of a
    registered leaf, a composite point or expression for instance, has the
    value, or the absence of value, that it had before, and the counters
    are as they were. *)
Theorem reconstruction_assigns_leaves (self : PEP.t)
  (F_value : option (list Q)) (G_value : option (list (list Q)))
  (w w' : world) (u : unit) :
  distinct_identities self →
  eval_points_and_function_values' self F_value G_value w = (Ok u, w') →
  ∃ G eig_val eig_vec R,
    G_value = Some G ∧ np_linalg_eig G = (eig_val, eig_vec) ∧
    R = points_values_of' G ∧
    (∀ n, length eig_val = n → square n eig_vec →
          R = np_linalg_qr_r (scaled_eigenvectors np_sqrt eig_val eig_vec)) ∧
    (∀ p, registered_point self p → Point._is_leaf p = true →
          point_value w' !! Point.id p
          = Some (map (λ row, nth (Point.counter p) row 0%Q) R)) ∧
    (∀ e, registered_value self e →
          Expression._is_function_value e = true →
          ∃ F x, F_value = Some F ∧ F !! Expression.counter e = Some x ∧
                 expression_value w' !! Expression.id e = Some x) ∧
    (∀ i, (∀ p, registered_point self p → Point._is_leaf p = true →
                Point.id p ≠ i) →
          point_value w' !! i = point_value w !! i) ∧
    (∀ i, (∀ e, registered_value self e →
                Expression._is_function_value e = true →
                Expression.id e ≠ i) →
          expression_value w' !! i = expression_value w !! i) ∧
    Point_counter w' = Point_counter w ∧
    Expression_counter w' = Expression_counter w ∧
    Function_counter w' = Function_counter w.
Proof.
  intros [Hpid Heid] Hrun.
  apply eval_ok_inv in Hrun as (G & -> & Hr & ->).
  destruct (np_linalg_eig G) as [eig_val eig_vec] eqn:Heig.
  exists G, eig_val, eig_vec, (points_values_of' G).
  split; [done|]. split; [done|]. split; [done|].
  assert (Hrange : ∀ t, t ∈ targets self →
                        in_range F_value (points_values_of' G) t = true).
  { intros t Ht. apply list_elem_of_In in Ht.
    by apply (proj1 (forallb_forall _ _) Hr). }
  split; [|split; [|split; [|split; [|split]]]].
  - intros n Hval Hvec. unfold points_values_of. rewrite Heig.
    unfold factor. f_equal. by apply (transpose_scaled np_sqrt n).
  - intros p Hp Hleaf.
    assert (Hin : TPoint p ∈ targets self)
      by by apply elem_of_targets_point.
    change (map (λ row, nth (Point.counter p) row 0%Q) (points_values_of' G))
      with (column_at (points_values_of' G) (Point.counter p)).
    apply assigned_point_at; [done|].
    intros q Hq%elem_of_targets_point Hid. destruct Hq.
    by apply Hpid.
  - intros e He Hfv.
    assert (Hin : TValue e ∈ targets self)
      by by apply elem_of_targets_value.
    pose proof (Hrange _ Hin) as Hc. simpl in Hc.
    destruct F_value as [F|]; [|done]. apply Nat.ltb_lt in Hc.
    destruct (lookup_lt_is_Some_2 F _ Hc) as [x Hx].
    exists F, x. split; [done|]. split; [done|].
    rewrite (assigned_value_at (Some F) (points_values_of' G)
               (targets self) e w Hin).
    + unfold item_at. by rewrite (nth_lookup_Some _ _ _ _ Hx).
    + intros e' He'%elem_of_targets_value Hid. destruct He'.
      by apply Heid.
  - intros i Hi. apply assigned_point_other.
    intros p Hp%elem_of_targets_point. destruct Hp. by apply Hi.
  - intros i Hi. apply assigned_value_other.
    intros e He%elem_of_targets_value. destruct He. by apply Hi.
  - destruct (assigned_frame F_value (points_values_of' G) (targets self) w)
      as (H1 & H2 & H3 & _).
    done.
Qed.

(** The matrix of the coordinates has a column for every index of the
    Gram matrix. *)
Lemma ncols_points_values (n : nat) (G : list (list Q)) :
  eig_respects_sizes np_linalg_eig → qr_respects_sizes np_linalg_qr_r →
  square n G → ncols (points_values_of' G) = n.
Proof.
  intros Heig Hqr HG. unfold points_values_of, factor.
  destruct (Heig n G HG) as [Hvals Hvecs].
  destruct (np_linalg_eig G) as [vals vecs]. simpl in *.
  apply Hqr, square_transpose, square_broadcast_mul; [|done].
  unfold np_maximum. by rewrite !length_map.
Qed.

(** The problem that [solve] hands to the solver. *)
Lemma solve_unfold (self : PEP.t) (solver : string) (w : world) :
  solve' self solver w
  = match sdp_constraints add_class_constraints
            (Expression_counter w) (Point_counter w) self with
    | Raise e => (Raise e, w)
    | Ok (cl, fs) =>
        let self' := with_functions self fs in
        let prob :=
          BuildProblem Maximize (Expression_counter w) (Point_counter w) cl
        in
        let w1 := log_solver_call solver prob w in
        match cp_solve solver prob with
        | SolverRaises => (Raise SolverError, w1)
        | outcome =>
            match eval_points_and_function_values' self'
                    (F_value_of outcome) (G_value_of outcome) w1 with
            | (Raise e, w2) => (Raise e, w2)
            | (Ok _, w2) => (Ok (value_of outcome, self'), w2)
            end
        end
    end.
Proof.
  unfold solve. rewrite constraints_of_problem_spec.
  destruct (sdp_constraints _ _ _ _) as [[cl fs]|e]; [|done].
  by destruct (cp_solve _ _).
Qed.

Lemma sdp_constraints_functions (V P : nat) (self : PEP.t)
  (cl : list constraint) (fs : list Function.t) :
  sdp_constraints add_class_constraints V P self = Ok (cl, fs) →
  fs = map add_class_constraints (PEP.list_of_functions self).
Proof.
  unfold sdp_constraints.
  destruct (flatten_all V P (PEP.list_of_performance_metrics self));
    simpl; [|done].
  destruct (flatten_all V P (PEP.list_of_conditions self)); simpl; [|done].
  destruct (flatten_all V P (class_constraints _ self)); simpl; [|done].
  by intros [= _ <-].
Qed.


(** C7.  When the solver raises, or returns with a status of failure,
    [solve] fails: the caller gets an exception.  The solver has been
    called once, with the solver that the caller chose, and no value has
    been assigned. *)
Theorem failed_solver_is_surfaced (self : PEP.t) (solver : string)
  (w : world) (cl : list constraint) (fs : list Function.t) :
  let V := Expression_counter w in
  let P := Point_counter w in
  let prob := BuildProblem Maximize V P cl in
  constraints_of_problem add_class_constraints V P self = Ok (cl, fs) →
  (cp_solve solver prob = SolverRaises ∨
   ∃ st, cp_solve solver prob = NoSolution st) →
  ∃ err w',
    solve' self solver w = (Raise err, w') ∧
    (err = SolverError ∨ err = LinAlgError) ∧
    solver_log w' = solver_log w ++ [(solver, prob)] ∧
    point_value w' = point_value w ∧
    expression_value w' = expression_value w.
Proof.
  intros V P prob Hc Hfail. rewrite constraints_of_problem_spec in Hc.
  rewrite solve_unfold. fold V P. rewrite Hc. cbv zeta. fold prob.
  destruct Hfail as [-> | [st ->]].
  - exists SolverError, (log_solver_call solver prob w). by eauto 10.
  - exists LinAlgError, (log_solver_call solver prob w). by eauto 10.
Qed.

(** Under the counters they were minted with, the registered leaves are
    all in range of the arrays of a solution. *)
Lemma targets_in_range (self : PEP.t) (w : world) (F : list Q)
  (G : list (list Q)) :
  eig_respects_sizes np_linalg_eig → qr_respects_sizes np_linalg_qr_r →
  minted_in_epoch w self →
  length F = Expression_counter w → square (Point_counter w) G →
  forallb (in_range (Some F) (points_values_of' G)) (targets self) = true.
Proof.
  intros Heig Hqr [Hpts Hvals] HF HG. apply forallb_forall.
  intros t Ht%list_elem_of_In. destruct t as [p|e]; simpl.
  - apply elem_of_targets_point in Ht as [Hp Hleaf].
    rewrite (ncols_points_values _ G Heig Hqr HG).
    apply Nat.ltb_lt. by apply Hpts.
  - apply elem_of_targets_value in Ht as [He Hfv].
    rewrite HF. apply Nat.ltb_lt. by apply Hvals.
Qed.

(** With all its targets in range, the reconstruction either stops before
    the first assignment or makes them all. *)
Lemma eval_all_or_none (self : PEP.t) (F : option (list Q))
  (G_value : option (list (list Q))) (w : world) :
  (∀ G, G_value = Some G →
        forallb (in_range F (points_values_of' G)) (targets self) = true) →
  (∃ err, eval_points_and_function_values' self F G_value w
          = (Raise err, w)) ∨
  (∃ G, G_value = Some G ∧
        eval_points_and_function_values' self F G_value w
        = (Ok tt, foldl (assigned F (points_values_of' G)) w
                    (targets self))).
Proof.
  intros Hr.
  unfold eval_points_and_function_values, linalg_eig, lift.
  rewrite M_bind_unfold. destruct G_value as [G|]; [|left; eauto].
  specialize (Hr G eq_refl). unfold points_values_of in *.
  destruct (np_linalg_eig G) as [vals vecs] eqn:Heig.
  rewrite M_bind_unfold.
  destruct (np_min vals) as [m|err]; [|left; eauto].
  destruct (Qle_bool tolerance m); [|left; eauto].
  right. exists G. split; [done|]. rewrite Heig.
  rewrite assign_values_targets. by apply for_targets_in_range.
Qed.

(** C8, as the program has it.  For a problem whose registered leaves were
    minted under the counters in force, and collaborators that return
    arrays of the sizes asked for, [solve] is all or nothing: when it fails,
    at the compilation, in the solver or at the check of the eigenvalues,
    the values of the points and of the function values are what they were;
    when it succeeds, every registered leaf point, leaf gradient and leaf
    function value has a value. *)
Theorem solve_all_or_none (self : PEP.t) (solver : string) (w : world) :
  let self' :=
    with_functions self
      (map add_class_constraints (PEP.list_of_functions self)) in
  solver_respects_sizes cp_solve →
  eig_respects_sizes np_linalg_eig →
  qr_respects_sizes np_linalg_qr_r →
  minted_in_epoch w self' →
  match solve' self solver w with
  | (Raise _, w') =>
      point_value w' = point_value w ∧
      expression_value w' = expression_value w
  | (Ok (_, self''), w') =>
      self'' = self' ∧
      (∀ p, registered_point self' p → Point._is_leaf p = true →
            is_Some (point_value w' !! Point.id p)) ∧
      (∀ e, registered_value self' e →
            Expression._is_function_value e = true →
            is_Some (expression_value w' !! Expression.id e))
  end.
Proof.
  intros self' Hsolver Heig Hqr Hepoch. rewrite solve_unfold.
  destruct (sdp_constraints _ _ _ self) as [[cl fs]|e] eqn:Hc; [|done].
  apply sdp_constraints_functions in Hc as ->. fold self'. cbv zeta.
  set (prob := BuildProblem Maximize _ _ cl).
  set (w1 := log_solver_call solver prob w).
  destruct (cp_solve solver prob) as [|st|inacc v F G] eqn:Hout; [done|done|].
  destruct (Hsolver _ _ _ _ _ _ Hout) as [HF HG]. simpl in HF, HG.
  cbn [F_value_of G_value_of value_of].
  destruct (eval_all_or_none self' (Some F) (Some G) w1)
    as [[err ->]|(G' & [= <-] & ->)].
  - intros G' [= <-]. by apply (targets_in_range self' w1).
  - done.
  - split; [done|]. split.
    + intros p Hp Hleaf. apply assigned_point_is_Some.
      by apply elem_of_targets_point.
    + intros e He Hfv. apply assigned_value_is_Some.
      by apply elem_of_targets_value.
Qed.

(** ** The object after a call of [solve] *)

Abbreviation solve_in_place' :=
  (solve_in_place add_class_constraints cp_solve np_linalg_eig np_sqrt
     np_linalg_qr_r).

Lemma with_functions_same (self : PEP.t) :
  with_functions self (PEP.list_of_functions self) = self.
Proof. by destruct self. Qed.

(** The third loop ends when every constraint is well-formed, with every
    function changed; otherwise it stops in the first function with a
    constraint that is not, and the functions after it are untouched. *)
Lemma class_constraints_in_place_cases (V P : nat) (fs : list Function.t) :
  ∀ cl,
  (∃ cl', class_constraints_in_place add_class_constraints V P fs cl
          = (Ok cl', map add_class_constraints fs) ∧
          ∀ g c, g ∈ fs →
                 c ∈ Function.list_of_constraints (add_class_constraints g) →
                 well_formed V P c = true) ∨
  (∃ err done f rest,
     fs = done ++ f :: rest ∧
     class_constraints_in_place add_class_constraints V P fs cl
     = (Raise err,
        map add_class_constraints done ++ add_class_constraints f :: rest) ∧
     (∀ g c, g ∈ done →
             c ∈ Function.list_of_constraints (add_class_constraints g) →
             well_formed V P c = true) ∧
     ∃ c, c ∈ Function.list_of_constraints (add_class_constraints f) ∧
          well_formed V P c = false).
Proof.
  induction fs as [|f fs IH]; intros cl.
  - left. exists cl. split; [done|]. intros g c Hg.
    by apply elem_of_nil in Hg.
  - cbn [class_constraints_in_place]. cbv zeta. rewrite for_each_flatten.
    destruct (flatten_all_cases V P
                (Function.list_of_constraints (add_class_constraints f)))
      as [(lfs & -> & Hall)|(err & -> & c & Hc & Hwf)]; simpl.
    + destruct (IH (cl ++ map LeZero lfs))
        as [(cl' & -> & Hrest)
           |(err & done & f' & rest & -> & -> & Hdone & Hbad)].
      * left. exists cl'. split; [done|]. intros g c Hg Hc.
        apply elem_of_cons in Hg as [->|Hg]; [by apply Hall|].
        by apply (Hrest g).
      * right. exists err, (f :: done), f', rest.
        split; [done|]. split; [done|]. split; [|done].
        intros g c Hg Hc.
        apply elem_of_cons in Hg as [->|Hg]; [by apply Hall|].
        by apply (Hdone g).
    + right. exists err, [], f, fs. split; [done|]. split; [done|].
      split; [|by exists c]. intros g c' Hg. by apply elem_of_nil in Hg.
Qed.

(** The loop that returns the functions is the loop in place, with what
    an exception leaves forgotten. *)
Lemma class_constraints_in_place_loop (V P : nat) (fs : list Function.t) :
  ∀ cl done,
  for_each (λ '(cl, fs) function,
      let function := add_class_constraints function in
      cl ←
        for_each (λ cl constraint,
            e ← expression_to_cvxpy V P constraint;
            Ok (cl ++ [LeZero e]))
          (Function.list_of_constraints function) cl;
      Ok (cl, fs ++ [function]))
    fs (cl, done)
  = match class_constraints_in_place add_class_constraints V P fs cl with
    | (Ok cl', fs') => Ok (cl', done ++ fs')
    | (Raise e, _) => Raise e
    end.
Proof.
  induction fs as [|f fs IH]; intros cl done.
  - simpl. by rewrite app_nil_r.
  - cbn [for_each class_constraints_in_place]. cbv zeta.
    destruct (for_each _ (Function.list_of_constraints _) cl)
      as [cl1|err]; simpl; [|done].
    rewrite IH.
    destruct (class_constraints_in_place _ V P fs cl1) as [[cl2|err] fs'];
      [|done].
    by rewrite <- app_assoc.
Qed.

Lemma constraints_of_problem_in_place (V P : nat) (self : PEP.t) :
  constraints_of_problem add_class_constraints V P self
  = match compile_in_place add_class_constraints V P self with
    | (Ok cl, self') => Ok (cl, PEP.list_of_functions self')
    | (Raise e, _) => Raise e
    end.
Proof.
  unfold constraints_of_problem, compile_in_place.
  destruct (for_each _ (PEP.list_of_performance_metrics self) [])
    as [cl1|err]; simpl; [|done].
  destruct (for_each _ (PEP.list_of_conditions self) cl1)
    as [cl2|err]; simpl; [|done].
  rewrite class_constraints_in_place_loop.
  by destruct (class_constraints_in_place _ V P _ cl2) as [[cl3|err] fs'].
Qed.

(** [solve] is [solve_in_place] with what an exception leaves of [self]
    forgotten. *)
Lemma solve_in_place_solve (self : PEP.t) (solver : string) (w : world) :
  solve' self solver w
  = match solve_in_place' self solver w with
    | (Ok v, self', w') => (Ok (v, self'), w')
    | (Raise e, _, w') => (Raise e, w')
    end.
Proof.
  unfold solve, solve_in_place. rewrite constraints_of_problem_in_place.
  unfold compile_in_place.
  destruct (for_each _ (PEP.list_of_performance_metrics self) [])
    as [cl1|err]; [|done].
  destruct (for_each _ (PEP.list_of_conditions self) cl1)
    as [cl2|err]; [|done].
  destruct (class_constraints_in_place _ _ _ _ cl2) as [[cl3|err] fs'];
    [|done].
  cbn [PEP.list_of_functions with_functions].
  destruct (cp_solve solver _); [done| |].
  - by destruct (eval_points_and_function_values _ _ _ _ _ _ _)
      as [[u|err] w'].
  - by destruct (eval_points_and_function_values _ _ _ _ _ _ _)
      as [[u|err] w'].
Qed.

(** What a compilation that fails leaves of the problem. *)
Lemma compile_in_place_malformed (V P : nat) (self : PEP.t)
  (e : Expression.t) :
  e ∈ problem_expressions add_class_constraints self →
  well_formed V P e = false →
  ∃ err reached rest,
    PEP.list_of_functions self = reached ++ rest ∧
    compile_in_place add_class_constraints V P self
    = (Raise err,
       with_functions self (map add_class_constraints reached ++ rest)) ∧
    ((∃ e', e' ∈ PEP.list_of_performance_metrics self
                 ++ PEP.list_of_conditions self ∧
            well_formed V P e' = false) → reached = []) ∧
    ((∀ e', e' ∈ PEP.list_of_performance_metrics self
                 ++ PEP.list_of_conditions self →
            well_formed V P e' = true) →
     ∃ done f,
       reached = done ++ [f] ∧
       (∀ g c, g ∈ done →
               c ∈ Function.list_of_constraints (add_class_constraints g) →
               well_formed V P c = true) ∧
       ∃ c, c ∈ Function.list_of_constraints (add_class_constraints f) ∧
            well_formed V P c = false).
Proof.
  intros He Hwf. unfold compile_in_place. rewrite for_each_flatten.
  destruct (flatten_all_cases V P (PEP.list_of_performance_metrics self))
    as [(ms & -> & Hms)|(err & -> & m & Hm & Hmwf)]; simpl.
  2:{ exists err, [], (PEP.list_of_functions self). split; [done|].
      simpl. rewrite with_functions_same. split; [done|]. split; [done|].
      intros Hall. rewrite Hall in Hmwf; [done|].
      apply elem_of_app. by left. }
  rewrite for_each_flatten.
  destruct (flatten_all_cases V P (PEP.list_of_conditions self))
    as [(cs & -> & Hcs)|(err & -> & c & Hc & Hcwf)]; simpl.
  2:{ exists err, [], (PEP.list_of_functions self). split; [done|].
      simpl. rewrite with_functions_same. split; [done|]. split; [done|].
      intros Hall. rewrite Hall in Hcwf; [done|].
      apply elem_of_app. by right. }
  destruct (class_constraints_in_place_cases V P (PEP.list_of_functions self)
              (map ObjectiveLe ms ++ map LeZero cs))
    as [(cl' & _ & Hall)
       |(err & done & f & rest & Hfs & -> & Hdone & Hbad)].
  - exfalso. unfold problem_expressions in He. rewrite !elem_of_app in He.
    destruct He as [He|[He|He]].
    + rewrite (Hms e He) in Hwf. done.
    + rewrite (Hcs e He) in Hwf. done.
    + unfold class_constraints in He.
      apply elem_of_concat in He as (l & Hl & He).
      apply list_elem_of_In, in_map_iff in Hl as (g & <- & Hg).
      apply list_elem_of_In in Hg. rewrite (Hall g e Hg He) in Hwf. done.
  - exists err, (done ++ [f]), rest.
    split; [by rewrite Hfs, <- app_assoc|].
    split; [by rewrite map_app, <- app_assoc|]. split.
    + intros (e' & He' & Hwf'). exfalso.
      apply elem_of_app in He' as [He'|He'].
      * rewrite (Hms e' He') in Hwf'. done.
      * rewrite (Hcs e' He') in Hwf'. done.
    + intros _. by exists done, f.
Qed.

(** C5, as the program has it.  In a composite expression, the first item
    of the decomposition that the loop does not accept makes the flattening
    raise: [TypeError] when the key is neither an expression nor a tuple
    and is not equal to one, [AssertionError] when the key is an
    expression that is not a function value or a pair with a point that is
    not a leaf.  An expression of the problem that is not well-formed makes
    [solve] fail before the solver is called: the counters, the values and
    the log of the solver are as they were.  The problem itself is as it
    was when a performance metric or an initial condition is not
    well-formed; otherwise [add_class_constraints] has acted on the
    functions up to the first one that holds a constraint that is not
    well-formed, this one included, and on no function after it. *)
Theorem malformed_key_fails_compilation :
  (∀ (V P : nat) (e : Expression.t) (pre post : list (key * Q))
     (k : key) (weight : Q),
     Expression._is_function_value e = false →
     Expression.decomposition_dict e = pre ++ (k, weight) :: post →
     wf_items V P pre = true → wf_key V P k = false →
     ∃ err, expression_to_cvxpy V P e = Raise err ∧
            (∀ a, k = KAtom a → err = TypeError) ∧
            (∀ e', k = KExpression e' →
                   Expression._is_function_value e' = false →
                   err = AssertionError) ∧
            (∀ p1 p2, k = KTuple [PyPoint p1; PyPoint p2] →
                      Point._is_leaf p1 && Point._is_leaf p2 = false →
                      err = AssertionError)) ∧
  (∀ (self : PEP.t) (solver : string) (w : world) (e : Expression.t),
     e ∈ problem_expressions add_class_constraints self →
     well_formed (Expression_counter w) (Point_counter w) e = false →
     ∃ err reached rest,
       solve' self solver w = (Raise err, w) ∧
       PEP.list_of_functions self = reached ++ rest ∧
       solve_in_place' self solver w
       = (Raise err,
          with_functions self (map add_class_constraints reached ++ rest),
          w) ∧
       ((∃ e', e' ∈ PEP.list_of_performance_metrics self
                    ++ PEP.list_of_conditions self ∧
               well_formed (Expression_counter w) (Point_counter w) e'
               = false) →
        reached = []) ∧
       ((∀ e', e' ∈ PEP.list_of_performance_metrics self
                    ++ PEP.list_of_conditions self →
               well_formed (Expression_counter w) (Point_counter w) e'
               = true) →
        ∃ done f,
          reached = done ++ [f] ∧
          (∀ g c, g ∈ done →
                  c ∈ Function.list_of_constraints
                        (add_class_constraints g) →
                  well_formed (Expression_counter w) (Point_counter w) c
                  = true) ∧
          ∃ c, c ∈ Function.list_of_constraints (add_class_constraints f) ∧
               well_formed (Expression_counter w) (Point_counter w) c
               = false)).
Proof.
  split; [apply first_malformed_item|].
  intros self solver w e He Hwf.
  destruct (compile_in_place_malformed (Expression_counter w)
              (Point_counter w) self e He Hwf)
    as (err & reached & rest & Hfs & Hcompile & Hnone & Hsome).
  exists err, reached, rest.
  assert (Hrun : solve_in_place' self solver w
                 = (Raise err,
                    with_functions self
                      (map add_class_constraints reached ++ rest), w))
    by (unfold solve_in_place; by rewrite Hcompile).
  split; [by rewrite solve_in_place_solve, Hrun|].
  done.
Qed.

End OrchestratorFacts.

(** ** A new problem restarts the indices *)

Lemma set_initial_points_spec (n : nat) :
  ∀ self w,
  ∃ self' w',
    set_initial_points n self w = (Ok self', w') ∧
    PEP.list_of_points self'
    = PEP.list_of_points self
      ++ map (λ k, Point.Build (next_id w + k) true (Point_counter w + k))
           (seq 0 n) ∧
    Point_counter w' = Point_counter w + n.
Proof.
  induction n as [|n IH]; intros self w.
  - exists self, w. simpl. by rewrite app_nil_r, Nat.add_0_r.
  - cbn [set_initial_points]. rewrite M_bind_unfold.
    unfold set_initial_point at 1. rewrite M_bind_unfold.
    cbn [Point_new_leaf mret M_ret].
    match goal with
    | |- ∃ self' w', set_initial_points n ?s ?w0 = _ ∧ _ =>
        destruct (IH s w0) as (self' & w' & Hrun & Hpts & Hcnt)
    end.
    exists self', w'. split; [exact Hrun|]. simpl in Hpts, Hcnt. split.
    + rewrite Hpts, <- app_assoc. f_equal. simpl. rewrite !Nat.add_0_r.
      f_equal. rewrite <- seq_shift, map_map. apply map_ext.
      intros k. f_equal; lia.
    + lia.
Qed.

Lemma omap_minted (n : nat) :
  ∀ a b,
  omap (λ p, if Point._is_leaf p then Some (Point.counter p) else None)
    (map (λ k, Point.Build (a + k) true (b + k)) (seq 0 n))
  = seq b n.
Proof.
  induction n as [|n IH]; intros a b; [done|].
  cbn [seq map]. rewrite <- seq_shift, map_map. cbn [omap list_omap].
  cbn [Point._is_leaf Point.counter]. rewrite Nat.add_0_r. f_equal.
  rewrite <- (IH (S a) (S b)). f_equal. apply map_ext.
  intros k. f_equal; lia.
Qed.

(** C6.  Making a problem sets the counters of the points, of the
    expressions and of the functions to zero, whatever they were; the
    initial points made afterwards are leaves of indices 0, 1, 2 and so
    on, whatever the number of leaves made for an earlier problem: every
    problem made in sequence has its own indices, which start from
    zero. *)
Theorem init_restarts_indices (w : world) (n : nat) :
  ∃ self w0,
    __init__ w = (Ok self, w0) ∧
    Point_counter w0 = 0 ∧ Expression_counter w0 = 0 ∧
    Function_counter w0 = 0 ∧
    ∃ self' w',
      set_initial_points n self w0 = (Ok self', w') ∧
      leaf_indices self' = seq 0 n ∧
      Point_counter w' = n.
Proof.
  eexists _, _. split; [reflexivity|]. repeat split.
  match goal with
  | |- ∃ self' w', set_initial_points n ?s ?w0 = _ ∧ _ =>
      destruct (set_initial_points_spec n s w0)
        as (self' & w' & Hrun & Hpts & Hcnt)
  end.
  exists self', w'. split; [exact Hrun|]. simpl in Hpts, Hcnt.
  split; [|exact Hcnt].
  unfold leaf_indices. rewrite Hpts. apply (omap_minted n (next_id w) 0).
Qed.

(** Of two problems made one after the other, each with one initial point,
    both have a leaf of index 0: the indices of a problem start from zero,
    and it is the problem, not the number, that tells the leaves of two
    problems apart. *)
Lemma two_instances_share_index_zero :
  ∃ p1 p2 w,
    two_instances initial_world = (Ok (p1, p2), w) ∧
    leaf_indices p1 = [0] ∧ leaf_indices p2 = [0] ∧
    ¬ (∀ i, i ∈ leaf_indices p1 → i ∉ leaf_indices p2).
Proof.
  eexists _, _, _. split; [reflexivity|]. split; [reflexivity|].
  split; [reflexivity|].
  intros H. apply (H 0); apply list_elem_of_singleton; reflexivity.
Qed.

(** Two problems that are alive together draw their indices from the same
    counters: the point of the second continues the numbering of the
    first. *)
Example interleaved_instances_share_counter :
  ∃ p1 p2 w,
    interleaved_instances initial_world = (Ok (p1, p2), w) ∧
    leaf_indices p1 = [0] ∧ leaf_indices p2 = [1].
Proof. eexists _, _, _. by repeat split. Qed.

(** ** The small problem instance, solved *)

Abbreviation demo_eval :=
  (eval_points_and_function_values Demo.np_linalg_eig Demo.np_sqrt
     Demo.np_linalg_qr_r).
Abbreviation demo_solve :=
  (solve Demo.add_class_constraints Demo.cp_solve Demo.np_linalg_eig
     Demo.np_sqrt Demo.np_linalg_qr_r).
Abbreviation demo_solve_infeasible :=
  (solve Demo.add_class_constraints Demo.cp_solve_infeasible
     Demo.np_linalg_eig Demo.np_sqrt Demo.np_linalg_qr_r).

Lemma demo_targets :
  targets Demo.compiled_problem
  = [TPoint Demo.x0; TPoint Demo.xs; TValue Demo.fs; TPoint Demo.x0;
     TPoint Demo.g0; TValue Demo.f0; TPoint Demo.g1; TValue Demo.f1].
Proof. reflexivity. Qed.

Ltac demo_target H :=
  rewrite demo_targets in H;
  repeat (apply elem_of_cons in H as [H|H]; [try discriminate H|]);
  [..|by apply elem_of_nil in H].

Lemma demo_minted_in_epoch : minted_in_epoch Demo.state Demo.compiled_problem.
Proof.
  split.
  - intros p Hp Hleaf.
    assert (H : TPoint p ∈ targets Demo.compiled_problem)
      by by apply elem_of_targets_point.
    demo_target H; injection H as ->; simpl; lia.
  - intros e He Hfv.
    assert (H : TValue e ∈ targets Demo.compiled_problem)
      by by apply elem_of_targets_value.
    demo_target H; injection H as ->; simpl; lia.
Qed.

Lemma demo_distinct_identities : distinct_identities Demo.compiled_problem.
Proof.
  split.
  - intros p q Hp Hq Hlp Hlq Hid.
    assert (H : TPoint p ∈ targets Demo.compiled_problem)
      by by apply elem_of_targets_point.
    assert (H' : TPoint q ∈ targets Demo.compiled_problem)
      by by apply elem_of_targets_point.
    demo_target H; injection H as ->;
      demo_target H'; injection H' as ->; done.
  - intros e e' He He' Hfe Hfe' Hid.
    assert (H : TValue e ∈ targets Demo.compiled_problem)
      by by apply elem_of_targets_value.
    assert (H' : TValue e' ∈ targets Demo.compiled_problem)
      by by apply elem_of_targets_value.
    demo_target H; injection H as ->;
      demo_target H'; injection H' as ->; done.
Qed.

Lemma square_identity (n : nat) : square n (Demo.identity n).
Proof.
  unfold Demo.identity. split.
  - by rewrite length_map, length_seq.
  - apply Forall_forall. intros row Hrow.
    apply list_elem_of_In, in_map_iff in Hrow as (i & <- & _).
    by rewrite length_map, length_seq.
Qed.

Lemma demo_solver_respects_sizes : solver_respects_sizes Demo.cp_solve.
Proof.
  intros solver prob inaccurate v F G [= _ _ <- <-]. split.
  - unfold np_zeros. apply length_replicate.
  - apply square_identity.
Qed.

Lemma demo_eig_respects_sizes : eig_respects_sizes Demo.np_linalg_eig.
Proof.
  intros n G [Hlen _]. simpl. split.
  - by rewrite length_imap.
  - rewrite Hlen. apply square_identity.
Qed.

Lemma demo_qr_respects_sizes : qr_respects_sizes Demo.np_linalg_qr_r.
Proof. intros n X HX. by apply ncols_square. Qed.

Example demo_solve_succeeds :
  ∃ self' w',
    demo_solve Demo.problem "SCS" Demo.state
    = (Ok (Finite (1 # 4), self'), w') ∧
    point_value w' !! Point.id Demo.g0 = Some [0; 0; 1; 0]%Q ∧
    point_value w' !! Point.id Demo.x1 = None ∧
    expression_value w' !! Expression.id Demo.f1 = Some 0%Q ∧
    length (solver_log w') = 1.
Proof. eexists _, _. split; [vm_compute; reflexivity|]. by vm_compute. Qed.

(** An eigenvalue of [-1/1000] stops the reconstruction; one of
    [-1/100000] is replaced by zero and the reconstruction goes on. *)
Example eigenvalue_below_tolerance :
  demo_eval Demo.compiled_problem (Some [0; 0; 0]%Q)
    (Some [[1; 0; 0; 0]; [0; - (1 # 1000); 0; 0]; [0; 0; 1; 0];
           [0; 0; 0; 1]]%Q) Demo.state
  = (Raise AssertionError, Demo.state).
Proof. reflexivity. Qed.

Example eigenvalue_within_tolerance :
  ∃ w',
    demo_eval Demo.compiled_problem (Some [0; 0; 0]%Q)
      (Some [[1; 0; 0; 0]; [0; - (1 # 100000); 0; 0]; [0; 0; 1; 0];
             [0; 0; 0; 1]]%Q) Demo.state
    = (Ok tt, w') ∧
    point_value w' !! Point.id Demo.xs = Some [0; 0; 0; 0]%Q.
Proof. eexists. split; [vm_compute; reflexivity|]. by vm_compute. Qed.

(** Without a Gram matrix there is nothing to decompose. *)
Example infeasible_problem_fails :
  (demo_solve_infeasible Demo.problem "SCS" Demo.state).1
  = Raise LinAlgError.
Proof. reflexivity. Qed.

(** The claim C8 fails as it is worded: with a leaf whose index is beyond
    the Gram matrix among the initial points, [solve] fails in the loop of
    the assignments, on [IndexError], after [x0] has received its value. *)
Lemma stale_leaf_leaves_partial_values :
  ∃ w',
    demo_solve Demo.stale_problem "SCS" Demo.state = (Raise IndexError, w') ∧
    point_value Demo.state !! Point.id Demo.x0 = None ∧
    point_value w' !! Point.id Demo.x0 = Some [1; 0; 0; 0]%Q.
Proof. eexists. split; [vm_compute; reflexivity|]. by vm_compute. Qed.

Lemma eigenvalue_check_witness :
  Demo.np_linalg_eig (Demo.identity 4) = ([1; 1; 1; 1]%Q, Demo.identity 4) ∧
  np_min [1; 1; 1; 1]%Q = Ok 1%Q ∧
  ((demo_eval Demo.compiled_problem (Some [0; 0; 0]%Q)
      (Some (Demo.identity 4)) Demo.state).1 = Raise AssertionError
   ↔ (1 < tolerance)%Q).
Proof.
  split; [reflexivity|]. split; [reflexivity|].
  exact (proj1 (proj2 (proj2
    (eigenvalue_check Demo.np_linalg_eig Demo.np_sqrt Demo.np_linalg_qr_r
       Demo.compiled_problem (Some [0; 0; 0]%Q) (Demo.identity 4) Demo.state
       [1; 1; 1; 1]%Q (Demo.identity 4) 1%Q eq_refl eq_refl)))).
Defined.

Lemma reconstruction_assigns_leaves_witness :
  ∃ w',
    demo_eval Demo.compiled_problem (Some [0; 0; 0]%Q)
      (Some (Demo.identity 4)) Demo.state = (Ok tt, w') ∧
    point_value w' !! Point.id Demo.g1
    = Some (map (λ row, nth (Point.counter Demo.g1) row 0%Q)
              (Demo.np_linalg_qr_r
                 (scaled_eigenvectors Demo.np_sqrt [1; 1; 1; 1]%Q
                    (Demo.identity 4)))) ∧
    expression_value w' !! Expression.id Demo.f1 = Some 0%Q.
Proof.
  eexists. split; [vm_compute; reflexivity|].
  destruct (reconstruction_assigns_leaves Demo.np_linalg_eig Demo.np_sqrt
              Demo.np_linalg_qr_r Demo.compiled_problem (Some [0; 0; 0]%Q)
              (Some (Demo.identity 4)) Demo.state _ tt
              demo_distinct_identities ltac:(vm_compute; reflexivity))
    as (G & eig_val & eig_vec & R & HG & Heig & _ & HR & Hpoints & Hvalues
        & _).
  injection HG as <-. injection Heig as <- <-.
  assert (Hreg : (Demo.x1, Demo.g1, Demo.f1)
                 ∈ Function.list_of_points
                     (Demo.add_class_constraints Demo.f))
    by (apply list_elem_of_In; simpl; tauto).
  split.
  - rewrite <- (HR 4 eq_refl);
      [|split; [reflexivity|by repeat constructor]].
    apply (Hpoints Demo.g1); [|reflexivity].
    right.
    exists (Demo.add_class_constraints Demo.f), Demo.x1, Demo.g1, Demo.f1.
    split; [apply list_elem_of_singleton; reflexivity|].
    split; [reflexivity|]. split; [done|by right].
  - destruct (Hvalues Demo.f1) as (F & x & [= <-] & Hx & ->);
      [|reflexivity|by injection Hx as <-].
    exists (Demo.add_class_constraints Demo.f), Demo.x1, Demo.g1.
    split; [apply list_elem_of_singleton; reflexivity|].
    split; [reflexivity|done].
Defined.

Lemma failed_solver_is_surfaced_witness :
  constraints_of_problem Demo.add_class_constraints 3 4 Demo.problem
  = Ok (Demo.constraints_list, [Demo.add_class_constraints Demo.f]) ∧
  ∃ err w',
    demo_solve_infeasible Demo.problem "SCS" Demo.state = (Raise err, w') ∧
    (err = SolverError ∨ err = LinAlgError) ∧
    solver_log w'
    = [("SCS"%string, BuildProblem Maximize 3 4 Demo.constraints_list)] ∧
    point_value w' = point_value Demo.state ∧
    expression_value w' = expression_value Demo.state.
Proof.
  split; [reflexivity|].
  apply (failed_solver_is_surfaced Demo.add_class_constraints
           Demo.cp_solve_infeasible Demo.np_linalg_eig Demo.np_sqrt
           Demo.np_linalg_qr_r Demo.problem "SCS" Demo.state
           Demo.constraints_list [Demo.add_class_constraints Demo.f]).
  - reflexivity.
  - right. by exists infeasible.
Defined.

Lemma solve_all_or_none_witness :
  minted_in_epoch Demo.state Demo.compiled_problem ∧
  match demo_solve Demo.problem "SCS" Demo.state with
  | (Raise _, w') =>
      point_value w' = point_value Demo.state ∧
      expression_value w' = expression_value Demo.state
  | (Ok (_, self''), w') =>
      self'' = Demo.compiled_problem ∧
      (∀ p, registered_point Demo.compiled_problem p →
            Point._is_leaf p = true →
            is_Some (point_value w' !! Point.id p)) ∧
      (∀ e, registered_value Demo.compiled_problem e →
            Expression._is_function_value e = true →
            is_Some (expression_value w' !! Expression.id e))
  end.
Proof.
  split; [exact demo_minted_in_epoch|].
  exact (solve_all_or_none Demo.add_class_constraints Demo.cp_solve
           Demo.np_linalg_eig Demo.np_sqrt Demo.np_linalg_qr_r
           Demo.problem "SCS" Demo.state demo_solver_respects_sizes
           demo_eig_respects_sizes demo_qr_respects_sizes
           demo_minted_in_epoch).
Defined.

(** The claim C5 fails as it is worded: the key of [Demo.composite_key] is
    an expression that is not a function value, hence none of the three
    kinds of keys, and the flattening raises [AssertionError], not
    [TypeError]. *)
Lemma composite_key_raises_assertion_error :
  (∃ item, item ∈ Expression.decomposition_dict Demo.composite_key ∧
           recognized_key item.1 = false) ∧
  expression_to_cvxpy 3 4 Demo.composite_key = Raise AssertionError ∧
  expression_to_cvxpy 3 4 Demo.composite_key ≠ Raise TypeError.
Proof.
  split; [|split; [reflexivity|discriminate]].
  exists (KExpression Demo.metric, 1%Q). split; [|reflexivity].
  apply list_elem_of_singleton. reflexivity.
Qed.

(** A class whose constraint is not well-formed: [solve] raises, and the
    function it has reached is no longer the one that was declared. *)
Example malformed_class_constraint_changes_the_function :
  solve_in_place Malformed.add_class_constraints Demo.cp_solve
    Demo.np_linalg_eig Demo.np_sqrt Demo.np_linalg_qr_r Demo.problem "SCS"
    Demo.state
  = (Raise TypeError,
     with_functions Demo.problem [Malformed.add_class_constraints Demo.f],
     Demo.state) ∧
  Function.list_of_constraints Demo.f = [] ∧
  Function.list_of_constraints (Malformed.add_class_constraints Demo.f)
  = [Demo.string_key].
Proof. by repeat split. Qed.

Lemma malformed_key_fails_compilation_witness :
  expression_to_cvxpy 3 4 Demo.string_key = Raise TypeError ∧
  ∃ err reached rest,
    solve Malformed.add_class_constraints Demo.cp_solve Demo.np_linalg_eig
      Demo.np_sqrt Demo.np_linalg_qr_r Demo.problem "SCS" Demo.state
    = (Raise err, Demo.state) ∧
    PEP.list_of_functions Demo.problem = reached ++ rest ∧
    solve_in_place Malformed.add_class_constraints Demo.cp_solve
      Demo.np_linalg_eig Demo.np_sqrt Demo.np_linalg_qr_r Demo.problem "SCS"
      Demo.state
    = (Raise err,
       with_functions Demo.problem
         (map Malformed.add_class_constraints reached ++ rest),
       Demo.state) ∧
    reached ≠ [].
Proof.
  pose proof (malformed_key_fails_compilation Malformed.add_class_constraints
                Demo.cp_solve Demo.np_linalg_eig Demo.np_sqrt
                Demo.np_linalg_qr_r) as [Hkey Hsolve].
  split.
  - destruct (Hkey 3 4 Demo.string_key [(KExpression Demo.f0, 1%Q)] []
                (KAtom (PyStr "f")) 1%Q eq_refl eq_refl eq_refl eq_refl)
      as (err & Herr & Hatom & _).
    rewrite Herr. f_equal. by apply (Hatom (PyStr "f")).
  - destruct (Hsolve Demo.problem "SCS"%string Demo.state Demo.string_key)
      as (err & reached & rest & Hrun & Hfs & Hplace & _ & Hsome).
    + unfold problem_expressions. rewrite !elem_of_app. right. right.
      simpl. apply list_elem_of_singleton. reflexivity.
    + reflexivity.
    + exists err, reached, rest. split; [done|]. split; [done|].
      split; [done|].
      destruct Hsome as (done & f & -> & _); [|by destruct done].
      intros e' He'. simpl in He'.
      apply elem_of_cons in He' as [->|He']; [reflexivity|].
      apply list_elem_of_singleton in He' as ->. reflexivity.
Defined.

(** ** The value of a flattened form *)

Lemma dot_nil_l (b : list Q) : dot [] b = 0%Q.
Proof. reflexivity. Qed.

Lemma dot_cons (a0 b0 : Q) (a b : list Q) :
  dot (a0 :: a) (b0 :: b) = (a0 * b0 + dot a b)%Q.
Proof. reflexivity. Qed.

Lemma sum_multiply_nil_l (W : list (list Q)) : sum_multiply [] W = 0%Q.
Proof. reflexivity. Qed.

Lemma sum_multiply_cons (g r : list Q) (G W : list (list Q)) :
  sum_multiply (g :: G) (r :: W) = (dot g r + sum_multiply G W)%Q.
Proof. reflexivity. Qed.

Lemma nth_nil_Q (i : nat) : nth i (@nil Q) 0%Q = 0%Q.
Proof. by destruct i. Qed.

Lemma nth_nil_row (i : nat) : nth i (@nil (list Q)) [] = [].
Proof. by destruct i. Qed.

Lemma dot_insert (a : list Q) :
  ∀ (b : list Q) (i : nat) (x w : Q),
  b !! i = Some x →
  (dot a (<[i := (x + w)%Q]> b) == dot a b + nth i a 0 * w)%Q.
Proof.
  induction a as [|a0 a IH]; intros b i x w Hx.
  - rewrite !dot_nil_l, nth_nil_Q. ring.
  - destruct b as [|b0 b]; [done|]. destruct i as [|i].
    + injection Hx as ->. cbn [insert list_insert nth]. rewrite !dot_cons.
      ring.
    + cbn [insert list_insert nth]. rewrite !dot_cons.
      rewrite (IH b i x w Hx). ring.
Qed.

Lemma sum_multiply_insert (G : list (list Q)) :
  ∀ (W : list (list Q)) (i : nat) (row row' : list Q),
  W !! i = Some row →
  (sum_multiply G (<[i := row']> W)
   == sum_multiply G W + (dot (nth i G []) row' - dot (nth i G []) row))%Q.
Proof.
  induction G as [|g G IH]; intros W i row row' Hrow.
  - rewrite !sum_multiply_nil_l, nth_nil_row, !dot_nil_l. ring.
  - destruct W as [|r W]; [done|]. destruct i as [|i].
    + injection Hrow as ->. cbn [insert list_insert nth].
      rewrite !sum_multiply_cons. ring.
    + cbn [insert list_insert nth]. rewrite !sum_multiply_cons.
      rewrite (IH W i row row' Hrow). ring.
Qed.

Lemma dot_zeros (a : list Q) (n : nat) : (dot a (np_zeros n) == 0)%Q.
Proof.
  revert n. induction a as [|a0 a IH]; intros n; [done|].
  destruct n as [|n]; [done|].
  change (np_zeros (S n)) with (0%Q :: np_zeros n).
  rewrite dot_cons, (IH n). ring.
Qed.

Lemma sum_multiply_zeros (G : list (list Q)) (n m : nat) :
  (sum_multiply G (np_zeros2 n m) == 0)%Q.
Proof.
  revert n. induction G as [|g G IH]; intros n; [done|].
  destruct n as [|n]; [done|].
  change (np_zeros2 (S n) m) with (np_zeros m :: np_zeros2 n m).
  rewrite sum_multiply_cons, (IH n), dot_zeros. ring.
Qed.

Lemma iadd1_value (F a a' : list Q) (i : nat) (w : Q) :
  iadd1 a i w = Ok a' → (dot F a' == dot F a + w * nth i F 0)%Q.
Proof.
  unfold iadd1. destruct (a !! i) as [x|] eqn:Hx; [|done]. intros [= <-].
  rewrite (dot_insert F a i x w Hx). ring.
Qed.

Lemma iadd2_value (G m m' : list (list Q)) (i j : nat) (w : Q) :
  iadd2 m i j w = Ok m' →
  (sum_multiply G m' == sum_multiply G m + w * nth j (nth i G []) 0)%Q.
Proof.
  unfold iadd2. destruct (m !! i) as [row|] eqn:Hrow; [|done].
  destruct (row !! j) as [x|] eqn:Hx; [|done]. intros [= <-].
  rewrite (sum_multiply_insert G m i row _ Hrow).
  rewrite (dot_insert (nth i G []) row j x w Hx). ring.
Qed.

Lemma add_item_value (F : list Q) (G : list (list Q))
  (acc acc' : linear_form) (k : key) (w : Q) :
  add_item acc (k, w) = Ok acc' →
  (form_value acc' F G == form_value acc F G + w * key_value F G k)%Q.
Proof.
  unfold form_value, add_item. destruct k as [e|items|a].
  - destruct (Expression._is_function_value e); [|done].
    destruct (iadd1 _ _ _) as [Fw|] eqn:HFw; [|done]. intros [= <-].
    cbn [const Fweights Gweights key_value].
    rewrite (iadd1_value F _ _ _ _ HFw). ring.
  - destruct items as [|[p1| | | | |] [|[p2| | | | |] [|? ?]]];
      repeat match goal with
        | |- context [if Point._is_leaf ?p then _ else _] =>
            destruct (Point._is_leaf p)
        end;
      try done.
    destruct (iadd2 _ _ _ _) as [Gw|] eqn:HGw; [|done]. intros [= <-].
    cbn [const Fweights Gweights key_value].
    rewrite (iadd2_value G _ _ _ _ _ HGw). ring.
  - destruct (py_eq_one a); [|done]. intros [= <-].
    cbn [const Fweights Gweights key_value]. ring.
Qed.

Lemma items_value_cons (F : list Q) (G : list (list Q)) (k : key) (w : Q)
  (items : list (key * Q)) :
  items_value F G ((k, w) :: items)
  = (w * key_value F G k + items_value F G items)%Q.
Proof. reflexivity. Qed.

Lemma for_each_add_item_value (F : list Q) (G : list (list Q))
  (items : list (key * Q)) :
  ∀ acc lf,
  for_each add_item items acc = Ok lf →
  (form_value lf F G == form_value acc F G + items_value F G items)%Q.
Proof.
  induction items as [|[k w] items IH]; intros acc lf Hrun;
    cbn [for_each] in Hrun.
  - injection Hrun as ->. change (items_value F G []) with 0%Q. ring.
  - destruct (add_item acc (k, w)) as [acc'|err] eqn:Hstep; [|done].
    change (for_each add_item items acc' = Ok lf) in Hrun.
    rewrite (IH acc' lf Hrun), (add_item_value F G acc acc' k w Hstep).
    rewrite items_value_cons. ring.
Qed.

(** X1.  Whenever [expression_to_cvxpy] returns, the form it returns has,
    for all values of [F] and [G], the value of the expression: [F] at its
    index for a leaf function value, and for a composite expression the sum
    over the decomposition of the weight times what the key stands for (the
    entry of [F] for a function value, the cell of [G] for a pair of
    points, one for the constant). *)
Theorem flattened_form_has_the_value_of_the_expression (V P : nat)
  (e : Expression.t) (lf : linear_form) (F : list Q) (G : list (list Q)) :
  expression_to_cvxpy V P e = Ok lf →
  (form_value lf F G ==
   if Expression._is_function_value e
   then nth (Expression.counter e) F 0
   else items_value F G (Expression.decomposition_dict e))%Q.
Proof.
  unfold expression_to_cvxpy.
  destruct (Expression._is_function_value e).
  - destruct (iadd1 _ _ _) as [Fw|] eqn:HFw; [|done]. intros [= <-].
    unfold form_value. cbn [const Fweights Gweights].
    rewrite (iadd1_value F _ _ _ _ HFw), dot_zeros, sum_multiply_zeros. ring.
  - intros Hrun. rewrite (for_each_add_item_value F G _ _ _ Hrun).
    unfold form_value. cbn [const Fweights Gweights].
    rewrite dot_zeros, sum_multiply_zeros. ring.
Qed.

Lemma flattened_form_has_the_value_of_the_expression_witness :
  expression_to_cvxpy 3 4 Demo.initial_condition
  = Ok (LinearForm (-1)%Q [0; 0; 0]%Q
          [[1; -1; 0; 0]; [-1; 1; 0; 0]; [0; 0; 0; 0]; [0; 0; 0; 0]]%Q) ∧
  (form_value
     (LinearForm (-1)%Q [0; 0; 0]%Q
        [[1; -1; 0; 0]; [-1; 1; 0; 0]; [0; 0; 0; 0]; [0; 0; 0; 0]]%Q)
     [5; 6; 7]%Q (Demo.identity 4)
   == items_value [5; 6; 7]%Q (Demo.identity 4)
        (Expression.decomposition_dict Demo.initial_condition))%Q.
Proof.
  split; [reflexivity|].
  exact (flattened_form_has_the_value_of_the_expression 3 4
           Demo.initial_condition _ [5; 6; 7]%Q (Demo.identity 4) eq_refl).
Defined.

(** ** The item at which the flattening stops *)

(** After a prefix of items that the loop accepts, the flattening of a
    composite expression goes on from a form of the right shape. *)
Lemma flatten_reaches_item (V P : nat) (e : Expression.t)
  (pre post : list (key * Q)) (k : key) (w : Q) :
  Expression._is_function_value e = false →
  Expression.decomposition_dict e = pre ++ (k, w) :: post →
  wf_items V P pre = true →
  ∃ before, shaped V P before ∧
            expression_to_cvxpy V P e
            = (acc ← add_item before (k, w); for_each add_item post acc).
Proof.
  intros Hfv Hdd Hpre. unfold expression_to_cvxpy. rewrite Hfv, Hdd.
  rewrite for_each_app.
  destruct (for_each_add_item V P pre _ Hpre (shaped_zeros V P))
    as (before & -> & Hsh & _).
  by exists before.
Qed.

(** X2.  An index beyond the arrays raises [IndexError]: the index of a leaf
    function value that is flattened, or met as a key, when it is not below
    the length [V] of [F]; the index of either point of a pair key of leaves
    when it is not below the size [P] of [G]. *)
Theorem index_beyond_the_basis_raises_index_error (V P : nat)
  (e : Expression.t) :
  (Expression._is_function_value e = true → V ≤ Expression.counter e →
   expression_to_cvxpy V P e = Raise IndexError) ∧
  (∀ (pre post : list (key * Q)) (k : key) (w : Q),
     Expression._is_function_value e = false →
     Expression.decomposition_dict e = pre ++ (k, w) :: post →
     wf_items V P pre = true →
     (∀ e', k = KExpression e' →
            Expression._is_function_value e' = true →
            V ≤ Expression.counter e' →
            expression_to_cvxpy V P e = Raise IndexError) ∧
     (∀ p1 p2, k = KTuple [PyPoint p1; PyPoint p2] →
               Point._is_leaf p1 = true → Point._is_leaf p2 = true →
               P ≤ Point.counter p1 ∨ P ≤ Point.counter p2 →
               expression_to_cvxpy V P e = Raise IndexError)).
Proof.
  split.
  - intros Hfv Hc. unfold expression_to_cvxpy. rewrite Hfv.
    rewrite iadd1_raise; [done|]. unfold np_zeros. by rewrite length_replicate.
  - intros pre post k w Hfv Hdd Hpre.
    destruct (flatten_reaches_item V P e pre post k w Hfv Hdd Hpre)
      as (before & (HF & HG & Hrows) & ->).
    split.
    + intros e' -> Hfv' Hc. unfold add_item. rewrite Hfv'.
      rewrite iadd1_raise by lia. done.
    + intros p1 p2 -> Hl1 Hl2 Hc. unfold add_item. rewrite Hl1, Hl2.
      rewrite (iadd2_raise _ P) by (try done; lia). done.
Qed.

Lemma index_beyond_the_basis_raises_index_error_witness :
  expression_to_cvxpy 2 4 Demo.f1 = Raise IndexError ∧
  expression_to_cvxpy 3 2 Demo.interpolation = Raise IndexError.
Proof.
  split.
  - by apply (proj1 (index_beyond_the_basis_raises_index_error 2 4 Demo.f1)).
  - apply (proj2 (proj2 (index_beyond_the_basis_raises_index_error 3 2
                           Demo.interpolation)
                    [(KExpression Demo.f0, 1%Q); (KExpression Demo.fs, (-1)%Q)]
                    [(Demo.pair Demo.g0 Demo.x0, (-1)%Q)]
                    (Demo.pair Demo.g0 Demo.xs) 1%Q
                    eq_refl eq_refl eq_refl)
             Demo.g0 Demo.xs eq_refl eq_refl eq_refl).
    left. simpl. lia.
Defined.

(** X3.  A tuple key that is not a pair stops the flattening with
    [ValueError], from the unpacking; a pair whose first item is a value of
    a built-in type (a number, a boolean, a string or [None]), or whose
    first item is a leaf point and whose second is such a value, stops it
    with [AttributeError], since these values have no attribute
    [_is_leaf]. *)
Theorem malformed_tuple_key_raises (V P : nat) (e : Expression.t)
  (pre post : list (key * Q)) (items : list pyobj) (w : Q) :
  Expression._is_function_value e = false →
  Expression.decomposition_dict e = pre ++ (KTuple items, w) :: post →
  wf_items V P pre = true →
  (length items ≠ 2 → expression_to_cvxpy V P e = Raise ValueError) ∧
  (∀ a b, items = [a; b] → is_builtin a = true →
          expression_to_cvxpy V P e = Raise AttributeError) ∧
  (∀ p1 b, items = [PyPoint p1; b] → Point._is_leaf p1 = true →
           is_builtin b = true →
           expression_to_cvxpy V P e = Raise AttributeError).
Proof.
  intros Hfv Hdd Hpre.
  destruct (flatten_reaches_item V P e pre post (KTuple items) w Hfv Hdd Hpre)
    as (before & _ & ->).
  unfold add_item. split; [|split].
  - intros Hlen. by destruct items as [|? [|? [|? ?]]].
  - intros a b -> Ha. by destruct a.
  - intros p1 b -> Hl1 Hb. rewrite Hl1. by destruct b.
Qed.

Lemma malformed_tuple_key_raises_witness :
  expression_to_cvxpy 3 4 Samples.triple_key = Raise ValueError ∧
  expression_to_cvxpy 3 4 Samples.number_key = Raise AttributeError.
Proof.
  split.
  - apply (proj1 (malformed_tuple_key_raises 3 4 Samples.triple_key
                    [(KAtom (PyInt 1), 1%Q)] []
                    [PyPoint Demo.x0; PyPoint Demo.xs; PyPoint Demo.g0] 1%Q
                    eq_refl eq_refl eq_refl)).
    simpl. lia.
  - by apply (proj2 (proj2 (malformed_tuple_key_raises 3 4 Samples.number_key
                              [] [] [PyPoint Demo.x0; PyFloat (1 # 2)] 1%Q
                              eq_refl eq_refl eq_refl))
                Demo.x0 (PyFloat (1 # 2))).
Defined.

(** ** The order of the items *)

Lemma accumulate_proper (ws : list Q) :
  ∀ x y, (x == y)%Q → (accumulate x ws == accumulate y ws)%Q.
Proof.
  induction ws as [|a ws IH]; intros x y Hxy; [done|].
  apply IH. by rewrite Hxy.
Qed.

Lemma accumulate_Permutation (ws ws' : list Q) :
  ws ≡ₚ ws' → ∀ x, (accumulate x ws == accumulate x ws')%Q.
Proof.
  induction 1 as [|a ws ws' _ IH|a b ws|ws1 ws2 ws3 _ IH1 _ IH2]; intros x.
  - reflexivity.
  - apply IH.
  - change (accumulate (x + b + a) ws == accumulate (x + a + b) ws)%Q.
    apply accumulate_proper. ring.
  - by rewrite IH1.
Qed.

Lemma F_terms_cons (item : key * Q) (items : list (key * Q)) (i : nat) :
  F_terms (item :: items) i = F_terms [item] i ++ F_terms items i.
Proof.
  destruct item as [[e|tup|a] w]; simpl; [|done|done].
  by destruct (decide (Expression.counter e = i)).
Qed.

Lemma G_terms_cons (item : key * Q) (items : list (key * Q)) (i j : nat) :
  G_terms (item :: items) i j = G_terms [item] i j ++ G_terms items i j.
Proof.
  destruct item as [[e|tup|a] w]; simpl; [done| |done].
  destruct tup as [|[p1| | | | |] [|[p2| | | | |] [|? ?]]]; try done.
  by destruct (decide (Point.counter p1 = i ∧ Point.counter p2 = j)).
Qed.

Lemma const_terms_cons (item : key * Q) (items : list (key * Q)) :
  const_terms (item :: items) = const_terms [item] ++ const_terms items.
Proof. by destruct item as [[e|tup|a] w]. Qed.

Lemma F_terms_Permutation (items items' : list (key * Q)) (i : nat) :
  items ≡ₚ items' → F_terms items i ≡ₚ F_terms items' i.
Proof.
  induction 1 as [|a l l' _ IH|a b l|l1 l2 l3 _ IH1 _ IH2].
  - done.
  - rewrite (F_terms_cons a l), (F_terms_cons a l'). by rewrite IH.
  - rewrite (F_terms_cons b (a :: l)), (F_terms_cons a l),
      (F_terms_cons a (b :: l)), (F_terms_cons b l).
    rewrite !app_assoc. apply Permutation_app_tail, Permutation_app_comm.
  - by rewrite IH1.
Qed.

Lemma G_terms_Permutation (items items' : list (key * Q)) (i j : nat) :
  items ≡ₚ items' → G_terms items i j ≡ₚ G_terms items' i j.
Proof.
  induction 1 as [|a l l' _ IH|a b l|l1 l2 l3 _ IH1 _ IH2].
  - done.
  - rewrite (G_terms_cons a l), (G_terms_cons a l'). by rewrite IH.
  - rewrite (G_terms_cons b (a :: l)), (G_terms_cons a l),
      (G_terms_cons a (b :: l)), (G_terms_cons b l).
    rewrite !app_assoc. apply Permutation_app_tail, Permutation_app_comm.
  - by rewrite IH1.
Qed.

Lemma const_terms_Permutation (items items' : list (key * Q)) :
  items ≡ₚ items' → const_terms items ≡ₚ const_terms items'.
Proof.
  induction 1 as [|a l l' _ IH|a b l|l1 l2 l3 _ IH1 _ IH2].
  - done.
  - rewrite (const_terms_cons a l), (const_terms_cons a l'). by rewrite IH.
  - rewrite (const_terms_cons b (a :: l)), (const_terms_cons a l),
      (const_terms_cons a (b :: l)), (const_terms_cons b l).
    rewrite !app_assoc. apply Permutation_app_tail, Permutation_app_comm.
  - by rewrite IH1.
Qed.

Lemma wf_items_Permutation (V P : nat) (items items' : list (key * Q)) :
  items ≡ₚ items' → wf_items V P items = true → wf_items V P items' = true.
Proof.
  intros Hperm Hwf. unfold wf_items in *. apply forallb_forall.
  intros item Hin. apply (proj1 (forallb_forall _ _) Hwf).
  apply list_elem_of_In. rewrite Hperm. by apply list_elem_of_In.
Qed.

(** X4.  The order in which the dictionary of a well-formed composite
    expression yields its items does not matter: two expressions whose
    decompositions hold the same items flatten to forms with equal
    constants, equal weights on [F] and equal weights on [G]. *)
Theorem flattening_ignores_the_order_of_the_items (V P : nat)
  (e e' : Expression.t) :
  Expression._is_function_value e = false →
  Expression._is_function_value e' = false →
  Expression.decomposition_dict e ≡ₚ Expression.decomposition_dict e' →
  well_formed V P e = true →
  ∃ lf lf',
    expression_to_cvxpy V P e = Ok lf ∧
    expression_to_cvxpy V P e' = Ok lf' ∧
    (const lf == const lf')%Q ∧
    (∀ i, i < V →
          ∃ x x', Fweights lf !! i = Some x ∧ Fweights lf' !! i = Some x' ∧
                  (x == x')%Q) ∧
    (∀ i j, i < P → j < P →
            ∃ x x', cell (Gweights lf) i j = Some x ∧
                    cell (Gweights lf') i j = Some x' ∧ (x == x')%Q).
Proof.
  intros Hfv Hfv' Hperm Hwf. unfold well_formed in Hwf. rewrite Hfv in Hwf.
  pose proof (wf_items_Permutation V P _ _ Hperm Hwf) as Hwf'.
  unfold expression_to_cvxpy. rewrite Hfv, Hfv'.
  destruct (for_each_add_item V P _ _ Hwf (shaped_zeros V P))
    as (lf & -> & _ & Hc & HF & HG).
  destruct (for_each_add_item V P _ _ Hwf' (shaped_zeros V P))
    as (lf' & -> & _ & Hc' & HF' & HG').
  exists lf, lf'. split; [done|]. split; [done|]. split; [|split].
  - rewrite Hc, Hc'. apply accumulate_Permutation.
    by apply const_terms_Permutation.
  - intros i Hi. eexists _, _. rewrite HF, HF'. simpl.
    rewrite np_zeros_lookup by done. simpl.
    split; [done|]. split; [done|].
    apply accumulate_Permutation. by apply F_terms_Permutation.
  - intros i j Hi Hj. eexists _, _. rewrite HG, HG'. simpl.
    rewrite np_zeros2_cell by done. simpl.
    split; [done|]. split; [done|].
    apply accumulate_Permutation. by apply G_terms_Permutation.
Qed.

Lemma flattening_ignores_the_order_of_the_items_witness :
  ∃ lf lf',
    expression_to_cvxpy 3 4 Demo.metric = Ok lf ∧
    expression_to_cvxpy 3 4 Reordered.metric = Ok lf' ∧
    (const lf == const lf')%Q.
Proof.
  destruct (flattening_ignores_the_order_of_the_items 3 4 Demo.metric
              Reordered.metric eq_refl eq_refl
              (Permutation_swap _ _ []) eq_refl)
    as (lf & lf' & H1 & H2 & H3 & _).
  by exists lf, lf'.
Defined.

(** ** The store depends on the last assignment only *)

Lemma assigned_point_lookup_cases (F : option (list Q)) (pv : list (list Q))
  (ts : list target) (i : nat) :
  (∃ v, ∀ w, point_value (foldl (assigned F pv) w ts) !! i = Some v) ∨
  (∀ w, point_value (foldl (assigned F pv) w ts) !! i = point_value w !! i).
Proof.
  induction ts as [|t ts IH]; [by right|].
  destruct IH as [[v Hv]|Hid]; [left; exists v; intros w; apply Hv|].
  destruct t as [p|e].
  - destruct (decide (Point.id p = i)) as [<-|Hne].
    + left. eexists. intros w. simpl. rewrite Hid. simpl.
      apply lookup_insert_eq.
    + right. intros w. simpl. rewrite Hid. simpl.
      by apply lookup_insert_ne.
  - right. intros w. simpl. by rewrite Hid.
Qed.

Lemma assigned_value_lookup_cases (F : option (list Q)) (pv : list (list Q))
  (ts : list target) (i : nat) :
  (∃ v, ∀ w, expression_value (foldl (assigned F pv) w ts) !! i = Some v) ∨
  (∀ w, expression_value (foldl (assigned F pv) w ts) !! i
        = expression_value w !! i).
Proof.
  induction ts as [|t ts IH]; [by right|].
  destruct IH as [[v Hv]|Hid]; [left; exists v; intros w; apply Hv|].
  destruct t as [p|e].
  - right. intros w. simpl. by rewrite Hid.
  - destruct (decide (Expression.id e = i)) as [<-|Hne].
    + left. eexists. intros w. simpl. rewrite Hid. simpl.
      apply lookup_insert_eq.
    + right. intros w. simpl. rewrite Hid. simpl.
      by apply lookup_insert_ne.
Qed.

Lemma world_eq (w1 w2 : world) :
  Point_counter w1 = Point_counter w2 →
  Expression_counter w1 = Expression_counter w2 →
  Function_counter w1 = Function_counter w2 →
  PEP_counter w1 = PEP_counter w2 →
  next_id w1 = next_id w2 →
  point_value w1 = point_value w2 →
  expression_value w1 = expression_value w2 →
  solver_log w1 = solver_log w2 →
  w1 = w2.
Proof. destruct w1, w2. simpl. by intros -> -> -> -> -> -> -> ->. Qed.

(** Making the assignments a second time changes nothing. *)
Lemma assigned_twice (F : option (list Q)) (pv : list (list Q))
  (ts : list target) (w : world) :
  foldl (assigned F pv) (foldl (assigned F pv) w ts) ts
  = foldl (assigned F pv) w ts.
Proof.
  destruct (assigned_frame F pv ts (foldl (assigned F pv) w ts))
    as (H1 & H2 & H3 & H4 & H5 & H6).
  apply world_eq; try done.
  - apply map_eq. intros i.
    destruct (assigned_point_lookup_cases F pv ts i) as [[v Hv]|Hid].
    + by rewrite !Hv.
    + by rewrite Hid.
  - apply map_eq. intros i.
    destruct (assigned_value_lookup_cases F pv ts i) as [[v Hv]|Hid].
    + by rewrite !Hv.
    + by rewrite Hid.
Qed.

Lemma assign_target_error_kind (F : option (list Q)) (pv : list (list Q))
  (t : target) (w : world) :
  in_range F pv t = false →
  assign_target F pv t w
  = (Raise (match t, F with
            | TValue _, None => TypeError
            | _, _ => IndexError
            end), w).
Proof.
  destruct t as [p|e]; simpl; intros Hr.
  - unfold assign_point, column, lift. by rewrite M_bind_unfold, Hr.
  - unfold assign_function_value, getitem, lift. rewrite M_bind_unfold.
    destruct F as [F|]; [|done].
    apply Nat.ltb_ge in Hr. by rewrite lookup_ge_None_2.
Qed.

Section OrchestratorMore.

Variable add_class_constraints : Function.t → Function.t.
Variable cp_solve : string → Problem → solver_outcome.
Variable np_linalg_eig : list (list Q) → list Q * list (list Q).
Variable np_sqrt : Q → Q.
Variable np_linalg_qr_r : list (list Q) → list (list Q).

Abbreviation eval_points_and_function_values'' :=
  (eval_points_and_function_values np_linalg_eig np_sqrt np_linalg_qr_r).
Abbreviation points_values_of'' :=
  (points_values_of np_linalg_eig np_sqrt np_linalg_qr_r).
Abbreviation solve'' :=
  (solve add_class_constraints cp_solve np_linalg_eig np_sqrt
     np_linalg_qr_r).

(** X5.  Without a Gram matrix to decompose ([G_value] is [None]) the
    reconstruction raises [LinAlgError], and when the decomposition returns
    no eigenvalue at all, as for a matrix without rows, it raises
    [ValueError] where the smallest eigenvalue is asked for; in both cases
    the call ends there and the state is as it was. *)
Theorem reconstruction_without_eigenvalues (self : PEP.t)
  (F_value : option (list Q)) (G_value : option (list (list Q)))
  (w : world) :
  (G_value = None →
   eval_points_and_function_values'' self F_value G_value w
   = (Raise LinAlgError, w)) ∧
  (∀ G, G_value = Some G → (np_linalg_eig G).1 = [] →
        eval_points_and_function_values'' self F_value G_value w
        = (Raise ValueError, w)).
Proof.
  split.
  - by intros ->.
  - intros G -> Hempty. unfold eval_points_and_function_values.
    rewrite M_bind_unfold. simpl.
    destruct (np_linalg_eig G) as [eig_val eig_vec]. simpl in Hempty.
    by subst eig_val.
Qed.

(** X6.  When the check of the eigenvalues has passed, the assignments are
    made in the order of the visit up to the first leaf whose index is
    outside the arrays; there the reconstruction raises [IndexError]
    ([TypeError] for a function value when [F_value] is [None]) and the
    state is the one the assignments before it have produced. *)
Theorem assignments_stop_at_the_first_index_out_of_range (self : PEP.t)
  (F_value : option (list Q)) (G : list (list Q)) (w : world)
  (vals : list Q) (vecs : list (list Q)) (m : Q)
  (pre post : list target) (t : target) :
  let pv := points_values_of'' G in
  np_linalg_eig G = (vals, vecs) → np_min vals = Ok m →
  (tolerance <= m)%Q →
  targets self = pre ++ t :: post →
  forallb (in_range F_value pv) pre = true →
  in_range F_value pv t = false →
  eval_points_and_function_values'' self F_value (Some G) w
  = (Raise (match t, F_value with
            | TValue _, None => TypeError
            | _, _ => IndexError
            end),
     foldl (assigned F_value pv) w pre).
Proof.
  intros pv Heig Hmin Hle Htargets Hpre Ht.
  unfold pv, points_values_of in *. rewrite Heig in *.
  unfold eval_points_and_function_values, linalg_eig, lift.
  rewrite M_bind_unfold, Heig. rewrite M_bind_unfold, Hmin.
  apply Qle_bool_iff in Hle. rewrite Hle.
  rewrite assign_values_targets, Htargets, for__app, M_bind_unfold.
  rewrite for_targets_in_range by done.
  cbn [for_]. rewrite M_bind_unfold.
  by rewrite assign_target_error_kind.
Qed.

(** X7.  A reconstruction that has succeeded can be run again on the state
    it has produced: it succeeds again and changes nothing. *)
Theorem reconstruction_is_idempotent (self : PEP.t)
  (F_value : option (list Q)) (G_value : option (list (list Q)))
  (w w' : world) (u : unit) :
  eval_points_and_function_values'' self F_value G_value w = (Ok u, w') →
  eval_points_and_function_values'' self F_value G_value w' = (Ok tt, w').
Proof.
  unfold eval_points_and_function_values, linalg_eig, lift.
  rewrite !M_bind_unfold. destruct G_value as [G|]; [|done].
  destruct (np_linalg_eig G) as [vals vecs]. rewrite !M_bind_unfold.
  destruct (np_min vals) as [m|err]; [|done].
  destruct (Qle_bool tolerance m); [|done].
  rewrite !assign_values_targets. intros Hrun.
  apply for_targets_ok_inv in Hrun as [Hr ->].
  rewrite for_targets_in_range by done. by rewrite assigned_twice.
Qed.

(** X8.  When [solve] returns, the value it returns is the value of the
    compiled problem as the solver reported it, whether the solver calls
    its solution accurate or not; the problem returned is the one given with
    the class constraints added to its functions, and the smallest
    eigenvalue of the Gram matrix is not below the tolerance. *)
Theorem solve_returns_the_value_of_the_solver (self self' : PEP.t)
  (solver : string) (w w' : world) (v : prob_value) :
  let V := Expression_counter w in
  let P := Point_counter w in
  solve'' self solver w = (Ok (v, self'), w') →
  ∃ cl inaccurate q F G m,
    constraints_of_problem add_class_constraints V P self
    = Ok (cl, map add_class_constraints (PEP.list_of_functions self)) ∧
    cp_solve solver (BuildProblem Maximize V P cl)
    = Solution inaccurate q F G ∧
    v = Finite q ∧
    self' = with_functions self
              (map add_class_constraints (PEP.list_of_functions self)) ∧
    np_min (np_linalg_eig G).1 = Ok m ∧ (tolerance <= m)%Q.
Proof.
  intros V P. rewrite solve_unfold, <- constraints_of_problem_spec.
  fold V P.
  destruct (constraints_of_problem _ V P self) as [[cl fs]|e] eqn:Hc; [|done].
  pose proof Hc as Hfs. rewrite constraints_of_problem_spec in Hfs.
  apply sdp_constraints_functions in Hfs as ->. cbv zeta.
  destruct (cp_solve solver _) as [|st|inacc q F G] eqn:Hout; [done|done|].
  cbn [F_value_of G_value_of value_of].
  destruct (eval_points_and_function_values'' _ _ _ _) as [[u|err] w2]
    eqn:Hrun; [|done].
  intros [= <- <- <-].
  unfold eval_points_and_function_values, linalg_eig, lift in Hrun.
  rewrite M_bind_unfold in Hrun.
  destruct (np_linalg_eig G) as [vals vecs] eqn:Heig.
  rewrite M_bind_unfold in Hrun.
  destruct (np_min vals) as [m|err] eqn:Hmin; [|done].
  destruct (Qle_bool tolerance m) eqn:Hle; [|done].
  exists cl, inacc, q, F, G, m. rewrite Heig.
  split; [done|]. split; [done|]. split; [done|]. split; [done|].
  split; [done|]. by apply Qle_bool_iff.
Qed.

(** X9.  Whatever its outcome, [solve] leaves the class counters as they
    were: the sizes of [F] and [G] of a later call are the same. *)
Theorem solve_keeps_the_counters (self : PEP.t) (solver : string)
  (w : world) :
  let w' := (solve'' self solver w).2 in
  Point_counter w' = Point_counter w ∧
  Expression_counter w' = Expression_counter w ∧
  Function_counter w' = Function_counter w ∧
  PEP_counter w' = PEP_counter w.
Proof.
  cbv zeta. rewrite solve_unfold.
  destruct (sdp_constraints _ _ _ self) as [[cl fs]|e]; [|done]. cbv zeta.
  set (prob := BuildProblem Maximize _ _ cl).
  set (w1 := log_solver_call solver prob w).
  assert (Hframe : ∀ F G,
    let w2 := (eval_points_and_function_values'' (with_functions self fs)
                 F G w1).2 in
    Point_counter w2 = Point_counter w ∧
    Expression_counter w2 = Expression_counter w ∧
    Function_counter w2 = Function_counter w ∧
    PEP_counter w2 = PEP_counter w).
  { intros F G. cbv zeta.
    destruct (eval_run np_linalg_eig np_sqrt np_linalg_qr_r
                (with_functions self fs) F G w1) as (pv & pre & ->).
    destruct (assigned_frame F pv pre w1) as (-> & -> & -> & -> & _).
    done. }
  destruct (cp_solve solver prob) as [|st|inacc q F G]; [done| |].
  - specialize (Hframe (F_value_of (NoSolution st))
                  (G_value_of (NoSolution st))).
    by destruct (eval_points_and_function_values'' _ _ _ _) as [[?|?] ?].
  - specialize (Hframe (F_value_of (Solution inacc q F G))
                  (G_value_of (Solution inacc q F G))).
    by destruct (eval_points_and_function_values'' _ _ _ _) as [[?|?] ?].
Qed.

End OrchestratorMore.

Lemma reconstruction_without_eigenvalues_witness :
  demo_eval Demo.compiled_problem None None Demo.state
  = (Raise LinAlgError, Demo.state) ∧
  demo_eval Demo.compiled_problem None (Some []) Demo.state
  = (Raise ValueError, Demo.state).
Proof.
  split.
  - by apply (proj1 (reconstruction_without_eigenvalues Demo.np_linalg_eig
                       Demo.np_sqrt Demo.np_linalg_qr_r Demo.compiled_problem
                       None None Demo.state)).
  - by apply (proj2 (reconstruction_without_eigenvalues
                       Demo.np_linalg_eig Demo.np_sqrt
                       Demo.np_linalg_qr_r Demo.compiled_problem
                       None (Some []) Demo.state) []).
Defined.

Lemma assignments_stop_at_the_first_index_out_of_range_witness :
  demo_eval Demo.stale_problem (Some [0; 0; 0]%Q) (Some (Demo.identity 4))
    Demo.state
  = (Raise IndexError,
     set_point_value 0 [1; 0; 0; 0]%Q Demo.state).
Proof.
  exact (assignments_stop_at_the_first_index_out_of_range
           Demo.np_linalg_eig Demo.np_sqrt Demo.np_linalg_qr_r
           Demo.stale_problem (Some [0; 0; 0]%Q) (Demo.identity 4) Demo.state
           [1; 1; 1; 1]%Q (Demo.identity 4) 1%Q
           [TPoint Demo.x0]
           [TPoint Demo.xs; TValue Demo.fs; TPoint Demo.x0; TPoint Demo.g0;
            TValue Demo.f0; TPoint Demo.g1; TValue Demo.f1]
           (TPoint Demo.stale)
           eq_refl eq_refl ltac:(vm_compute; discriminate) eq_refl eq_refl
           eq_refl).
Defined.

Lemma reconstruction_is_idempotent_witness :
  let w' := (demo_eval Demo.compiled_problem (Some [0; 0; 0]%Q)
               (Some (Demo.identity 4)) Demo.state).2 in
  demo_eval Demo.compiled_problem (Some [0; 0; 0]%Q)
    (Some (Demo.identity 4)) w' = (Ok tt, w').
Proof.
  cbv zeta.
  apply (reconstruction_is_idempotent Demo.np_linalg_eig Demo.np_sqrt
           Demo.np_linalg_qr_r Demo.compiled_problem (Some [0; 0; 0]%Q)
           (Some (Demo.identity 4)) Demo.state _ tt).
  vm_compute. reflexivity.
Defined.

Lemma solve_returns_the_value_of_the_solver_witness :
  ∃ cl inaccurate q F G m,
    constraints_of_problem Demo.add_class_constraints 3 4 Demo.problem
    = Ok (cl, map Demo.add_class_constraints [Demo.f]) ∧
    Demo.cp_solve "SCS" (BuildProblem Maximize 3 4 cl)
    = Solution inaccurate q F G ∧
    Finite (1 # 4) = Finite q ∧
    Demo.compiled_problem
    = with_functions Demo.problem (map Demo.add_class_constraints [Demo.f]) ∧
    np_min (Demo.np_linalg_eig G).1 = Ok m ∧ (tolerance <= m)%Q.
Proof.
  apply (solve_returns_the_value_of_the_solver Demo.add_class_constraints
           Demo.cp_solve Demo.np_linalg_eig Demo.np_sqrt Demo.np_linalg_qr_r
           Demo.problem Demo.compiled_problem "SCS" Demo.state
           (demo_solve Demo.problem "SCS" Demo.state).2 (Finite (1 # 4))).
  vm_compute. reflexivity.
Defined.

(** ** Sequences of registrations *)


(** * The stepsizes of the example *)

(** ** Arrays and loops *)

Lemma position_in_range (len : nat) (j : nat) :
  j < len → OBS.position len (Z.of_nat j) = Some j.
Proof.
  intros Hj. unfold OBS.position.
  rewrite (proj2 (Z.leb_le 0 (Z.of_nat j))) by lia.
  rewrite (proj2 (Z.ltb_lt (Z.of_nat j) (Z.of_nat len))) by lia.
  simpl. by rewrite Nat2Z.id.
Qed.

Lemma position_too_large (len : nat) (k : Z) :
  (Z.of_nat len <= k)%Z → OBS.position len k = None.
Proof.
  intros Hk. unfold OBS.position.
  rewrite (proj2 (Z.ltb_ge k (Z.of_nat len))) by lia.
  rewrite andb_false_r.
  rewrite (proj2 (Z.ltb_ge k 0)) by lia. by rewrite andb_false_r.
Qed.

Lemma getitem_in_range {A : Type} (a : list A) (j : nat) (x : A) :
  a !! j = Some x → OBS.getitem a (Z.of_nat j) = OBS.Return x.
Proof.
  intros Hx. unfold OBS.getitem.
  rewrite position_in_range by (by eapply lookup_lt_Some). by rewrite Hx.
Qed.

Lemma setitem_in_range {A : Type} (a : list A) (j : nat) (x : A) :
  j < length a → OBS.setitem a (Z.of_nat j) x = OBS.Return (<[j := x]> a).
Proof.
  intros Hj. unfold OBS.setitem. by rewrite position_in_range.
Qed.

Lemma outcome_bind_unfold {A B : Type} (r : OBS.outcome A)
  (k : A → OBS.outcome B) :
  r ≫= k
  = match r with
    | OBS.Return a => k a
    | OBS.Raises e => OBS.Raises e
    | OBS.TooDeep => OBS.TooDeep
    end.
Proof. reflexivity. Qed.

(** A loop keeps an invariant that its body keeps. *)
Lemma for_range_invariant {St : Type} (Inv : nat → St → Prop)
  (Bad : OBS.error → Prop) (body : St → Z → OBS.outcome St) (n : nat) :
  ∀ (first : nat) (s : St),
  Inv first s →
  (∀ i s, first ≤ i < first + n → Inv i s →
          match body s (Z.of_nat i) with
          | OBS.Return s' => Inv (i + 1) s'
          | OBS.Raises e => Bad e
          | OBS.TooDeep => False
          end) →
  match OBS.for_range (Z.of_nat first) n body s with
  | OBS.Return s' => Inv (first + n) s'
  | OBS.Raises e => Bad e
  | OBS.TooDeep => False
  end.
Proof.
  induction n as [|n IH]; intros first s Hinv Hbody; simpl.
  - by rewrite Nat.add_0_r.
  - pose proof (Hbody first s ltac:(lia) Hinv) as Hstep.
    rewrite outcome_bind_unfold.
    destruct (body s (Z.of_nat first)) as [s'|e|]; [|done|done].
    replace (Z.of_nat first + 1)%Z with (Z.of_nat (first + 1)) by lia.
    replace (first + S n) with (first + 1 + n) by lia.
    apply IH; [done|]. intros i s0 Hi. apply Hbody. lia.
Qed.

Section ScheduleFacts.

Variable float : Type.
Variable lit : Q → float.
Variable fadd fsub fmul fmax : float → float → float.
Variable fneg : float → float.
Variable flt : float → float → bool.
Variable fdiv : float → float → option float.
Variable fsqrt : float → option float.
Variable fpow2 : float → option float.

Abbreviation roa := (returns_or_arithmetic fdiv fsqrt fpow2).
Abbreviation join_scomp' :=
  (OBS.join_scomp float lit fadd fmul fmax fdiv fsqrt fpow2).
Abbreviation join_fcomp' :=
  (OBS.join_fcomp float lit fadd fmul fmax fdiv fsqrt fpow2).
Abbreviation join_scomp_objects' :=
  (OBS.join_scomp_objects float lit fadd fsub fmul fneg fdiv fsqrt fpow2).
Abbreviation join_scomp_fcomp' :=
  (OBS.join_scomp_fcomp float lit fadd fsub fmul fdiv fsqrt).
Abbreviation compute_scomp_pivots' :=
  (OBS.compute_scomp_pivots float lit fadd fmul fmax fdiv fsqrt fpow2).
Abbreviation compute_fcomp_pivots' :=
  (OBS.compute_fcomp_pivots float lit fadd fmul fmax flt fdiv fsqrt fpow2).
Abbreviation OBS_S_with_pivots' :=
  (OBS.OBS_S_with_pivots float lit fadd fsub fmul fneg fdiv fsqrt fpow2).
Abbreviation OBS_S' :=
  (OBS.OBS_S float lit fadd fsub fmul fmax fneg fdiv fsqrt fpow2).
Abbreviation OBS_F_with_pivots' :=
  (OBS.OBS_F_with_pivots float lit fadd fsub fmul fneg fdiv fsqrt fpow2).
Abbreviation OBS_F' :=
  (OBS.OBS_F float lit fadd fsub fmul fmax fneg flt fdiv fsqrt fpow2).

Lemma roa_bind {A B : Type} (good : A → Prop) (good' : B → Prop)
  (r : OBS.outcome A) (k : A → OBS.outcome B) :
  roa good r → (∀ a, good a → roa good' (k a)) → roa good' (r ≫= k).
Proof. destruct r as [a|e|]; simpl; auto. Qed.

Lemma roa_weaken {A : Type} (good good' : A → Prop) (r : OBS.outcome A) :
  roa good r → (∀ a, good a → good' a) → roa good' r.
Proof. destruct r as [a|e|]; simpl; auto. Qed.

Lemma div_roa (x y : float) : roa (λ _, True) (OBS.div float fdiv x y).
Proof.
  unfold OBS.div. destruct (fdiv x y) as [z|] eqn:Hz; simpl; [done|].
  split; [done|]. intros (Hdiv & _ & _).
  destruct (Hdiv x y) as [z Hz']. congruence.
Qed.

Lemma sqrt_roa (x : float) : roa (λ _, True) (OBS.sqrt float fsqrt x).
Proof.
  unfold OBS.sqrt. destruct (fsqrt x) as [z|] eqn:Hz; simpl; [done|].
  split; [done|]. intros (_ & Hsqrt & _).
  destruct (Hsqrt x) as [z Hz']. congruence.
Qed.

Lemma pow2_roa (x : float) : roa (λ _, True) (OBS.pow2 float fpow2 x).
Proof.
  unfold OBS.pow2. destruct (fpow2 x) as [z|] eqn:Hz; simpl; [done|].
  split; [done|]. intros (_ & _ & Hpow).
  destruct (Hpow x) as [z Hz']. congruence.
Qed.

Lemma join_scomp_roa (L R : float) :
  roa (λ _, True) (join_scomp' L R).
Proof.
  unfold OBS.join_scomp.
  eapply roa_bind; [apply pow2_roa|]. intros L2 _.
  eapply roa_bind; [apply pow2_roa|]. intros R2 _.
  eapply roa_bind; [apply sqrt_roa|]. intros root _.
  apply div_roa.
Qed.

Lemma join_fcomp_roa (L R : float) :
  roa (λ _, True) (join_fcomp' L R).
Proof.
  unfold OBS.join_fcomp.
  eapply roa_bind; [apply pow2_roa|]. intros L2 _.
  eapply roa_bind; [apply sqrt_roa|]. intros root _.
  apply div_roa.
Qed.

Lemma join_scomp_objects_roa (L R : SComp.t float) :
  roa (λ s, length (SComp.sequence s)
            = length (SComp.sequence L) + 1 + length (SComp.sequence R))
    (join_scomp_objects' L R).
Proof.
  unfold OBS.join_scomp_objects.
  eapply roa_bind; [apply div_roa|]. intros sigmaL _.
  eapply roa_bind; [apply div_roa|]. intros sigmaR _.
  eapply roa_bind; [apply pow2_roa|]. intros square _.
  eapply roa_bind; [apply div_roa|]. intros quotient _.
  eapply roa_bind; [apply sqrt_roa|]. intros root _.
  eapply roa_bind; [apply div_roa|]. intros rate _.
  simpl. rewrite length_app. simpl. lia.
Qed.

Lemma join_scomp_fcomp_roa (L : SComp.t float) (R : FComp.t float) :
  roa (λ s, length (FComp.sequence s)
            = length (SComp.sequence L) + 1 + length (FComp.sequence R))
    (join_scomp_fcomp' L R).
Proof.
  unfold OBS.join_scomp_fcomp.
  eapply roa_bind; [apply div_roa|]. intros ratio _.
  eapply roa_bind; [apply sqrt_roa|]. intros root _.
  eapply roa_bind; [apply div_roa|]. intros step _.
  eapply roa_bind; [apply div_roa|]. intros invR _.
  eapply roa_bind; [apply div_roa|]. intros invL _.
  eapply roa_bind; [apply div_roa|]. intros rate _.
  simpl. rewrite length_app. simpl. lia.
Qed.

(** ** The pivots of [OBS_S] *)

Lemma get_rate_roa (rates : list float) (one : float) (j : nat) :
  j < length rates →
  roa (λ _, True)
    (if (Z.of_nat j =? 0)%Z then OBS.Return one
     else OBS.getitem rates (Z.of_nat j)).
Proof.
  intros Hj. destruct (Z.of_nat j =? 0)%Z; [done|].
  destruct (lookup_lt_is_Some_2 rates j Hj) as [x Hx].
  by rewrite (getitem_in_range rates j x Hx).
Qed.

Lemma scomp_body (N i : nat) (s : list Z * list float) :
  1 ≤ i → i ≤ N → scomp_invariant N i s →
  roa (scomp_invariant N (i + 1))
    ((λ '(s_pivot, s_rate) i,
        s_pivot ← OBS.setitem s_pivot i (i / 2)%Z;
        p ← OBS.getitem s_pivot i;
        L ← (if (p =? 0)%Z then OBS.Return (lit 1)
             else OBS.getitem s_rate p);
        R ← (if (i - 1 - p =? 0)%Z then OBS.Return (lit 1)
             else OBS.getitem s_rate (i - 1 - p)%Z);
        joined ← join_scomp' L R;
        s_rate ← OBS.setitem s_rate i joined;
        OBS.Return (s_pivot, s_rate)) s (Z.of_nat i)).
Proof.
  destruct s as [sp sr]. intros Hi1 HiN (Hlp & Hlr & Hlow & Hhigh).
  simpl in Hlp, Hlr, Hlow, Hhigh.
  rewrite setitem_in_range by lia. rewrite outcome_bind_unfold.
  rewrite (getitem_in_range _ i (Z.of_nat i / 2)%Z)
    by (apply list_lookup_insert_eq; lia).
  rewrite outcome_bind_unfold.
  assert (Hhalf : (Z.of_nat i / 2)%Z = Z.of_nat (i / 2))
    by (by rewrite Nat2Z.inj_div).
  assert (Hrest : (Z.of_nat i - 1 - Z.of_nat i / 2)%Z
                  = Z.of_nat (i - 1 - i / 2)).
  { rewrite Hhalf. pose proof (Nat.div_lt i 2). lia. }
  assert (Hlt : i / 2 < i) by (apply Nat.div_lt; lia).
  rewrite Hrest, Hhalf.
  eapply roa_bind; [apply (get_rate_roa sr (lit 1) (i / 2)); lia|].
  intros L _.
  eapply roa_bind; [apply (get_rate_roa sr (lit 1) (i - 1 - i / 2)); lia|].
  intros R _.
  eapply roa_bind; [apply join_scomp_roa|]. intros joined _.
  rewrite setitem_in_range by lia. simpl.
  repeat split; simpl.
  - by rewrite length_insert.
  - by rewrite length_insert.
  - intros j Hj. destruct (decide (j = i)) as [->|Hne].
    + rewrite list_lookup_insert_eq by lia. by rewrite Hhalf.
    + rewrite list_lookup_insert_ne by done. apply Hlow. lia.
  - intros j Hj HjN. rewrite list_lookup_insert_ne by lia. apply Hhigh; lia.
Qed.

Lemma compute_scomp_pivots_roa (N : nat) :
  roa (λ s, s.1 = halves N ∧ length s.2 = N + 1) (compute_scomp_pivots' N).
Proof.
  unfold OBS.compute_scomp_pivots.
  pose proof (for_range_invariant (scomp_invariant N)
                (arithmetic_error fdiv fsqrt fpow2)
                (λ '(s_pivot, s_rate) i,
                   s_pivot ← OBS.setitem s_pivot i (i / 2)%Z;
                   p ← OBS.getitem s_pivot i;
                   L ← (if (p =? 0)%Z then OBS.Return (lit 1)
                        else OBS.getitem s_rate p);
                   R ← (if (i - 1 - p =? 0)%Z then OBS.Return (lit 1)
                        else OBS.getitem s_rate (i - 1 - p)%Z);
                   joined ← join_scomp' L R;
                   s_rate ← OBS.setitem s_rate i joined;
                   OBS.Return (s_pivot, s_rate))
                N 1 (replicate (N + 1) 0%Z, replicate (N + 1) (lit 0)))
    as Hloop.
  change (Z.of_nat 1) with 1%Z in Hloop.
  eapply roa_weaken.
  - unfold returns_or_arithmetic. apply Hloop.
    + repeat split; simpl; try apply length_replicate.
      * intros j Hj. assert (j = 0) as -> by lia.
        by rewrite lookup_replicate_2 by lia.
      * intros j _ Hj. by rewrite lookup_replicate_2 by lia.
    + intros i s Hi Hinv.
      exact (scomp_body N i s ltac:(lia) ltac:(lia) Hinv).
  - intros [sp sr] (Hlp & Hlr & Hlow & _). simpl in *. split; [|done].
    apply list_eq. intros j. unfold halves.
    destruct (decide (j < N + 1)) as [Hj|Hj].
    + rewrite Hlow by lia.
      change (map ?f ?l) with (f <$> l).
      rewrite list_lookup_fmap, lookup_seq_lt by done. done.
    + rewrite !lookup_ge_None_2; [done| |lia].
      rewrite length_map, length_seq. lia.
Qed.

(** ** The pivots of [OBS_F] *)

Lemma fcomp_steps_bound (f_pivot : list Z) (i : nat) :
  fcomp_steps f_pivot i →
  ∀ j, 1 ≤ j → j < i → 2 ≤ i →
       ∃ b, f_pivot !! j = Some b ∧ (0 <= b)%Z ∧ (b <= Z.of_nat j - 1)%Z.
Proof.
  intros (H0 & H1 & Hstep) j. induction j as [|j IH]; intros Hj1 Hji Hi;
    [lia|].
  destruct (decide (j = 0)) as [->|Hj0].
  - exists 0%Z. split; [done|]. lia.
  - destruct IH as (a & Ha & Ha0 & Ha1); [lia..|].
    destruct (Hstep (S j)) as (a' & b & Ha' & Hb & Hab); [lia..|].
    replace (S j - 1) with j in Ha' by lia. rewrite Ha in Ha'.
    injection Ha' as <-. exists b. split; [done|]. lia.
Qed.

Lemma get_rate_le_roa (rates : list float) (one : float) (j : nat) :
  j < length rates →
  roa (λ _, True)
    (if (Z.of_nat j <=? 0)%Z then OBS.Return one
     else OBS.getitem rates (Z.of_nat j)).
Proof.
  intros Hj. destruct (Z.of_nat j <=? 0)%Z; [done|].
  destruct (lookup_lt_is_Some_2 rates j Hj) as [x Hx].
  by rewrite (getitem_in_range rates j x Hx).
Qed.

Lemma fcomp_body (N i : nat) (s_rate : list float)
  (s : list Z * list float) :
  2 ≤ i → i ≤ N → length s_rate = N + 1 → fcomp_invariant N i s →
  roa (fcomp_invariant N (i + 1))
    ((λ '(f_pivot, f_rate) i,
        m ← (if (1 <? i)%Z then OBS.getitem f_pivot (i - 1)%Z
             else OBS.Return 0%Z);
        L ← (if (m =? 0)%Z then OBS.Return (lit 1)
             else OBS.getitem s_rate m);
        R ← (if (i - 1 - m =? 0)%Z then OBS.Return (lit 1)
             else OBS.getitem f_rate (i - 1 - m)%Z);
        rate1 ← join_fcomp' L R;
        let m := (m + 1)%Z in
        L ← (if (m =? 0)%Z then OBS.Return (lit 1)
             else OBS.getitem s_rate m);
        R ← (if (i - 1 - m <=? 0)%Z then OBS.Return (lit 1)
             else OBS.getitem f_rate (i - 1 - m)%Z);
        rate2 ← join_fcomp' L R;
        if flt rate1 rate2 then
          f_pivot ← OBS.setitem f_pivot i (m - 1)%Z;
          f_rate ← OBS.setitem f_rate i rate1;
          OBS.Return (f_pivot, f_rate)
        else
          f_pivot ← OBS.setitem f_pivot i m;
          f_rate ← OBS.setitem f_rate i rate2;
          OBS.Return (f_pivot, f_rate)) s (Z.of_nat i)).
Proof.
  destruct s as [fp fr]. intros Hi2 HiN Hsr (Hlp & Hlr & Hsteps).
  simpl in Hlp, Hlr, Hsteps.
  destruct (fcomp_steps_bound fp i Hsteps (i - 1)) as (m & Hm & Hm0 & Hm1);
    [lia..|].
  rewrite (proj2 (Z.ltb_lt 1 (Z.of_nat i))) by lia.
  replace (Z.of_nat i - 1)%Z with (Z.of_nat (i - 1)) by lia.
  rewrite (getitem_in_range fp (i - 1) m Hm). rewrite outcome_bind_unfold.
  set (mn := Z.to_nat m).
  assert (Hmn : m = Z.of_nat mn) by (unfold mn; lia).
  assert (Hmn_lt : mn ≤ i - 2) by lia.
  rewrite Hmn.
  eapply roa_bind; [apply (get_rate_roa s_rate (lit 1) mn); lia|].
  intros L _.
  replace (Z.of_nat (i - 1) - Z.of_nat mn)%Z with (Z.of_nat (i - 1 - mn))
    by lia.
  eapply roa_bind; [apply (get_rate_roa fr (lit 1) (i - 1 - mn)); lia|].
  intros R _.
  eapply roa_bind; [apply join_fcomp_roa|]. intros rate1 _. cbv zeta.
  replace (Z.of_nat mn + 1)%Z with (Z.of_nat (mn + 1)) by lia.
  eapply roa_bind; [apply (get_rate_roa s_rate (lit 1) (mn + 1)); lia|].
  intros L' _.
  replace (Z.of_nat (i - 1) - Z.of_nat (mn + 1))%Z
    with (Z.of_nat (i - 1 - (mn + 1))) by lia.
  eapply roa_bind;
    [apply (get_rate_le_roa fr (lit 1) (i - 1 - (mn + 1))); lia|].
  intros R' _.
  eapply roa_bind; [apply join_fcomp_roa|]. intros rate2 _.
  destruct Hsteps as (H0 & H1 & Hstep).
  assert (Hnew : ∀ b x, b = m ∨ b = (m + 1)%Z →
            fcomp_invariant N (i + 1) (<[i := b]> fp, <[i := x]> fr)).
  { intros b x Hb. repeat split; simpl.
    - by rewrite length_insert.
    - by rewrite length_insert.
    - by rewrite list_lookup_insert_ne by lia.
    - by rewrite list_lookup_insert_ne by lia.
    - intros j Hj2 Hji. destruct (decide (j = i)) as [->|Hne].
      + exists m, b. rewrite list_lookup_insert_ne by lia.
        rewrite list_lookup_insert_eq by lia. done.
      + destruct (Hstep j) as (a & c & Ha & Hc & Hac); [lia..|].
        exists a, c. by rewrite !list_lookup_insert_ne by lia. }
  destruct (flt rate1 rate2).
  - rewrite !setitem_in_range by lia. simpl.
    apply Hnew. left. lia.
  - rewrite !setitem_in_range by lia. simpl.
    apply Hnew. right. lia.
Qed.

Lemma compute_fcomp_pivots_roa (N : nat) (s_pivot : list Z)
  (s_rate : list float) :
  1 ≤ N → length s_rate = N + 1 →
  roa (λ f_pivot, length f_pivot = N + 1 ∧ fcomp_steps f_pivot (N + 1))
    (compute_fcomp_pivots' N s_pivot s_rate).
Proof.
  intros HN Hsr. unfold OBS.compute_fcomp_pivots.
  rewrite (setitem_in_range (replicate (N + 1) 0%Z) 1)
    by (rewrite length_replicate; lia).
  rewrite (setitem_in_range (replicate (N + 1) (lit 0)) 1)
    by (rewrite length_replicate; lia).
  rewrite !outcome_bind_unfold.
  pose proof (for_range_invariant (fcomp_invariant N)
                (arithmetic_error fdiv fsqrt fpow2)
                (λ '(f_pivot, f_rate) i,
                   m ← (if (1 <? i)%Z
                        then OBS.getitem f_pivot (i - 1)%Z
                        else OBS.Return 0%Z);
                   L ← (if (m =? 0)%Z then OBS.Return (lit 1)
                        else OBS.getitem s_rate m);
                   R ← (if (i - 1 - m =? 0)%Z
                        then OBS.Return (lit 1)
                        else OBS.getitem f_rate (i - 1 - m)%Z);
                   rate1 ← join_fcomp' L R;
                   let m := (m + 1)%Z in
                   L ← (if (m =? 0)%Z then OBS.Return (lit 1)
                        else OBS.getitem s_rate m);
                   R ← (if (i - 1 - m <=? 0)%Z
                        then OBS.Return (lit 1)
                        else OBS.getitem f_rate (i - 1 - m)%Z);
                   rate2 ← join_fcomp' L R;
                   if flt rate1 rate2 then
                     f_pivot ← OBS.setitem f_pivot i (m - 1)%Z;
                     f_rate ← OBS.setitem f_rate i rate1;
                     OBS.Return (f_pivot, f_rate)
                   else
                     f_pivot ← OBS.setitem f_pivot i m;
                     f_rate ← OBS.setitem f_rate i rate2;
                     OBS.Return (f_pivot, f_rate))
                (N - 1) 2
                (<[1 := 0%Z]> (replicate (N + 1) 0%Z),
                 <[1 := lit (1 # 4)]> (replicate (N + 1) (lit 0))))
    as Hloop.
  change (Z.of_nat 2) with 2%Z in Hloop.
  eapply roa_bind with (good := fcomp_invariant N (2 + (N - 1))).
  - unfold returns_or_arithmetic. apply Hloop.
    + repeat split; simpl; rewrite ?length_insert, ?length_replicate;
        try done.
      * rewrite list_lookup_insert_ne by lia.
        by rewrite lookup_replicate_2 by lia.
      * rewrite list_lookup_insert_eq
          by (rewrite length_replicate; lia). done.
      * intros j Hj2 Hj. lia.
    + intros i s Hi Hinv.
      exact (fcomp_body N i s_rate s ltac:(lia) ltac:(lia) Hsr Hinv).
  - intros [fp fr] (Hlp & _ & Hsteps). cbn [fst snd] in Hlp, Hsteps.
    replace (2 + (N - 1)) with (N + 1) in Hsteps by lia.
    simpl. done.
Qed.

(** ** The recursions *)

Lemma halves_lookup (N n : nat) :
  n ≤ N → halves N !! n = Some (Z.of_nat (n / 2)).
Proof.
  intros Hn. unfold halves. change (map ?f ?l) with (f <$> l).
  rewrite (Nat2Z.inj_div n 2).
  rewrite list_lookup_fmap, lookup_seq_lt by lia. reflexivity.
Qed.

Lemma OBS_S_with_pivots_roa (N : nat) :
  ∀ (depth n : nat), n ≤ N → n < depth →
  roa (λ s, length (SComp.sequence s) = n)
    (OBS_S_with_pivots' depth (Z.of_nat n) (halves N)).
Proof.
  induction depth as [|depth IH]; intros n HnN Hnd; [lia|].
  cbn [OBS.OBS_S_with_pivots].
  destruct (decide (n = 0)) as [->|Hn0]; [done|].
  rewrite (proj2 (Z.eqb_neq (Z.of_nat n) 0)) by lia.
  rewrite (getitem_in_range _ n _ (halves_lookup N n HnN)).
  rewrite outcome_bind_unfold.
  assert (Hlt : n / 2 < n) by (apply Nat.div_lt; lia).
  generalize dependent (n / 2). intros half Hlt.
  replace (Z.of_nat n - 1 - Z.of_nat half)%Z
    with (Z.of_nat (n - 1 - half)) by lia.
  eapply roa_bind; [apply (IH half); lia|]. intros left Hleft.
  eapply roa_bind; [apply (IH (n - 1 - half)); lia|]. intros right Hright.
  eapply roa_weaken; [apply join_scomp_objects_roa|].
  intros s Hs. simpl in *. lia.
Qed.

Lemma OBS_F_with_pivots_roa (N : nat) (f_pivot : list Z) :
  fcomp_steps f_pivot (N + 1) →
  ∀ (depth n : nat), n ≤ N → n < depth →
  roa (λ s, length (FComp.sequence s) = n)
    (OBS_F_with_pivots' depth (Z.of_nat n) (halves N) f_pivot).
Proof.
  intros Hsteps. induction depth as [|depth IH]; intros n HnN Hnd; [lia|].
  cbn [OBS.OBS_F_with_pivots].
  destruct (decide (n = 0)) as [->|Hn0]; [done|].
  rewrite (proj2 (Z.eqb_neq (Z.of_nat n) 0)) by lia.
  destruct (fcomp_steps_bound f_pivot (N + 1) Hsteps n)
    as (p & Hp & Hp0 & Hp1); [lia..|].
  rewrite (getitem_in_range _ n _ Hp). rewrite outcome_bind_unfold.
  set (pn := Z.to_nat p).
  assert (Hpn : p = Z.of_nat pn) by (unfold pn; lia).
  rewrite Hpn.
  replace (Z.of_nat n - 1 - Z.of_nat pn)%Z with (Z.of_nat (n - 1 - pn))
    by lia.
  eapply roa_bind; [apply (OBS_S_with_pivots_roa N depth pn); lia|].
  intros left Hleft.
  eapply roa_bind; [apply (IH (n - 1 - pn)); lia|]. intros right Hright.
  eapply roa_weaken; [apply join_scomp_fcomp_roa|].
  intros s Hs. simpl in *. lia.
Qed.

(** The recursion of [OBS_S_with_pivots] halves its argument, so a depth
    logarithmic in [n] is enough. *)
Lemma log2_half (n m : nat) :
  1 ≤ m → 2 * m ≤ n → Nat.log2 m + 1 ≤ Nat.log2 n.
Proof.
  intros Hm Hmn. pose proof (Nat.log2_double m ltac:(lia)) as Hd.
  pose proof (Nat.log2_le_mono (2 * m) n Hmn). lia.
Qed.

Lemma OBS_S_with_pivots_log_roa (N : nat) :
  ∀ (depth n : nat), n ≤ N →
  (n = 0 ∧ 1 ≤ depth) ∨ (1 ≤ n ∧ Nat.log2 n + 2 ≤ depth) →
  roa (λ s, length (SComp.sequence s) = n)
    (OBS_S_with_pivots' depth (Z.of_nat n) (halves N)).
Proof.
  induction depth as [|depth IH]; intros n HnN Hnd; [lia|].
  cbn [OBS.OBS_S_with_pivots].
  destruct (decide (n = 0)) as [->|Hn0]; [done|].
  destruct Hnd as [[? _]|[_ Hnd]]; [done|].
  rewrite (proj2 (Z.eqb_neq (Z.of_nat n) 0)) by lia.
  rewrite (getitem_in_range _ n _ (halves_lookup N n HnN)).
  rewrite outcome_bind_unfold.
  assert (Hlt : n / 2 < n) by (apply Nat.div_lt; lia).
  assert (Hhalf : 2 * (n / 2) ≤ n) by (apply Nat.Div0.mul_div_le).
  assert (Hrest : 2 * (n - 1 - n / 2) ≤ n).
  { pose proof (Nat.div_mod_eq n 2).
    pose proof (Nat.mod_upper_bound n 2 ltac:(lia)). lia. }
  assert (Hchild : ∀ m, 2 * m ≤ n →
            (m = 0 ∧ 1 ≤ depth) ∨ (1 ≤ m ∧ Nat.log2 m + 2 ≤ depth)).
  { intros m Hm. destruct (decide (m = 0)) as [->|Hm0]; [left; lia|].
    right. pose proof (log2_half n m ltac:(lia) Hm). lia. }
  generalize dependent (n / 2). intros half Hlt Hhalf Hrest.
  replace (Z.of_nat n - 1 - Z.of_nat half)%Z
    with (Z.of_nat (n - 1 - half)) by lia.
  eapply roa_bind; [apply (IH half); [lia|by apply Hchild]|].
  intros left Hleft.
  eapply roa_bind; [apply (IH (n - 1 - half)); [lia|by apply Hchild]|].
  intros right Hright.
  eapply roa_weaken; [apply join_scomp_objects_roa|].
  intros s Hs. simpl in *. lia.
Qed.

(** X11.  [compute_scomp_pivots(N)] never raises an [IndexError]: it
    returns the pivots [floor(i / 2)] for [i] from 0 to [N] together with
    [N + 1] rates, unless the arithmetic of [join_scomp] raises. *)
Theorem scomp_pivots_are_the_halves (N : nat) :
  returns_or_arithmetic fdiv fsqrt fpow2
    (λ '(s_pivot, s_rate), s_pivot = halves N ∧ length s_rate = N + 1)
    (compute_scomp_pivots' N).
Proof.
  eapply roa_weaken; [apply compute_scomp_pivots_roa|].
  by intros [sp sr].
Qed.

(** X12.  For [N >= 1] and [N + 1] rates, [compute_fcomp_pivots] never
    raises an [IndexError]: unless the arithmetic raises, it returns
    [N + 1] pivots, of which the pivot of [j >= 1] lies between 0 and
    [j - 1], the first is 0 and each later one is its predecessor or its
    predecessor plus one. *)
Theorem fcomp_pivots_grow_by_at_most_one (N : nat) (s_pivot : list Z)
  (s_rate : list float) :
  1 ≤ N → length s_rate = N + 1 →
  returns_or_arithmetic fdiv fsqrt fpow2
    (λ f_pivot,
       length f_pivot = N + 1 ∧ f_pivot !! 1 = Some 0%Z ∧
       (∀ j, 1 ≤ j → j ≤ N →
             ∃ b, f_pivot !! j = Some b ∧ (0 <= b <= Z.of_nat j - 1)%Z) ∧
       (∀ j, 2 ≤ j → j ≤ N →
             ∃ a b, f_pivot !! (j - 1) = Some a ∧ f_pivot !! j = Some b ∧
                    (b = a ∨ b = (a + 1)%Z)))
    (compute_fcomp_pivots' N s_pivot s_rate).
Proof.
  intros HN Hsr.
  eapply roa_weaken; [by apply compute_fcomp_pivots_roa|].
  intros f_pivot (Hlen & Hsteps). split; [done|].
  split; [apply Hsteps|]. split.
  - intros j Hj1 HjN.
    destruct (fcomp_steps_bound f_pivot (N + 1) Hsteps j)
      as (b & Hb & Hb0 & Hb1); [lia..|].
    exists b. split; [done|lia].
  - intros j Hj2 HjN. apply Hsteps; lia.
Qed.

(** X13.  For [N = 0] the assignment [f_pivot[1] = 0] of
    [compute_fcomp_pivots] is out of range, so that [OBS_F(0)] raises an
    [IndexError], whatever the arithmetic, while [OBS_S(0)] returns the
    empty schedule of rate 1. *)
Theorem no_stepsize_raises_index_error (depth : nat) (s_pivot : list Z)
  (s_rate : list float) :
  compute_fcomp_pivots' 0 s_pivot s_rate = OBS.Raises OBS.IndexError ∧
  OBS_F' depth 0 = OBS.Raises OBS.IndexError ∧
  OBS_S' (S depth) 0 = OBS.Return (SComp.Build [] (lit 1)).
Proof. by repeat split. Qed.

(** X14.  [OBS_S(N)] returns a schedule of exactly [N] stepsizes, unless
    the arithmetic raises; it never raises an [IndexError], and its
    recursion is no deeper than [log2(N) + 2]. *)
Theorem OBS_S_has_N_stepsizes (depth N : nat) :
  Nat.log2 N + 2 ≤ depth →
  returns_or_arithmetic fdiv fsqrt fpow2
    (λ s, length (SComp.sequence s) = N) (OBS_S' depth N).
Proof.
  intros Hdepth. unfold OBS.OBS_S.
  eapply roa_bind; [apply compute_scomp_pivots_roa|].
  intros [s_pivot s_rate] [Hpivots _]. simpl in Hpivots. subst s_pivot.
  apply OBS_S_with_pivots_log_roa; [done|].
  destruct (decide (N = 0)) as [->|HN]; [left|right]; lia.
Qed.

(** X15.  For [1 <= N], [OBS_F(N)] returns a schedule of exactly [N]
    stepsizes, unless the arithmetic raises; it never raises an
    [IndexError], and its recursion is no deeper than [N + 1]. *)
Theorem OBS_F_has_N_stepsizes (depth N : nat) :
  1 ≤ N → N < depth →
  returns_or_arithmetic fdiv fsqrt fpow2
    (λ s, length (FComp.sequence s) = N) (OBS_F' depth N).
Proof.
  intros HN Hdepth. unfold OBS.OBS_F.
  eapply roa_bind; [apply compute_scomp_pivots_roa|].
  intros [s_pivot s_rate] [Hpivots Hrates]. simpl in Hpivots, Hrates.
  subst s_pivot.
  eapply roa_bind; [by apply compute_fcomp_pivots_roa|].
  intros f_pivot [_ Hsteps].
  by apply OBS_F_with_pivots_roa.
Qed.

End ScheduleFacts.

(** ** The schedule over the rationals *)

Lemma fcomp_pivots_grow_by_at_most_one_witness :
  returns_or_arithmetic Rational.fdiv Rational.fsqrt Rational.fpow2
    (λ f_pivot,
       length f_pivot = 3 + 1 ∧ f_pivot !! 1 = Some 0%Z ∧
       (∀ j, 1 ≤ j → j ≤ 3 →
             ∃ b, f_pivot !! j = Some b ∧ (0 <= b <= Z.of_nat j - 1)%Z) ∧
       (∀ j, 2 ≤ j → j ≤ 3 →
             ∃ a b, f_pivot !! (j - 1) = Some a ∧ f_pivot !! j = Some b ∧
                    (b = a ∨ b = (a + 1)%Z)))
    (Rational.compute_fcomp_pivots 3 [] [0%Q; 1%Q; 1%Q; 1%Q]).
Proof.
  apply (fcomp_pivots_grow_by_at_most_one Q Rational.lit Qplus Qmult Qmax
           Rational.flt Rational.fdiv Rational.fsqrt Rational.fpow2
           3 [] [0%Q; 1%Q; 1%Q; 1%Q]).
  - lia.
  - reflexivity.
Defined.

Lemma OBS_S_has_N_stepsizes_witness :
  Nat.log2 3 + 2 ≤ 3 ∧
  returns_or_arithmetic Rational.fdiv Rational.fsqrt Rational.fpow2
    (λ s, length (SComp.sequence s) = 3) (Rational.OBS_S 3 3).
Proof.
  split; [vm_compute; lia|].
  apply (OBS_S_has_N_stepsizes Q Rational.lit Qplus Qminus Qmult Qmax Qopp
           Rational.fdiv Rational.fsqrt Rational.fpow2 3 3).
  vm_compute. lia.
Defined.

Lemma OBS_F_has_N_stepsizes_witness :
  returns_or_arithmetic Rational.fdiv Rational.fsqrt Rational.fpow2
    (λ s, length (FComp.sequence s) = 3) (Rational.OBS_F 4 3).
Proof.
  apply (OBS_F_has_N_stepsizes Q Rational.lit Qplus Qminus Qmult Qmax Qopp
           Rational.flt Rational.fdiv Rational.fsqrt Rational.fpow2 4 3);
    lia.
Defined.
